(** * elphmod, phonons.py: spring list, dynamical matrix, band order

    A shallow embedding of [src/phonons.py] and proofs about it.

    Conventions of the embedding.
    - numpy [float64] values are real numbers ([R]); [complex] values are
      pairs of reals.  Rounding is not modelled.
    - numpy arrays of fixed shape are total functions of their indices,
      the shape being carried next to them; one-dimensional buffers that the
      code fills by index are lists.
    - [np.int8] buffers store integers wrapped to 8 bits (two's complement).
    - a Python exception is the result [None] of an [option]-valued model. *)

From Stdlib Require Import String Ascii.
From Stdlib Require Import Reals Lra Lia ZArith List Bool Arith Permutation.
Import ListNotations.
Open Scope R_scope.

Set Implicit Arguments.

(** ** Option as the exception monad *)

Definition obind {A B : Type} (x : option A) (f : A -> option B) : option B :=
  match x with
  | Some a => f a
  | None => None
  end.

Notation "x <- c ;; k" := (obind c (fun x => k))
  (at level 61, c at next level, right associativity).
Notation "' p <- c ;; k" := (obind c (fun x => match x with p => k end))
  (at level 61, p pattern, c at next level, right associativity).

(** [for x in l: s = body(x, s)], stopping at the first exception. *)
Fixpoint for_each {A S : Type} (l : list A) (body : A -> S -> option S)
  (s : S) : option S :=
  match l with
  | [] => Some s
  | x :: l' => s' <- body x s ;; for_each l' body s'
  end.

(** [range(n)] *)
Definition range (n : nat) : list nat := seq 0 n.

(** ** Real vectors, 3x3 tensors and integer cells *)

Definition vec3 : Type := R * R * R.
Definition mat3 : Type := vec3 * vec3 * vec3.
Definition cell : Type := (Z * Z * Z)%type.

Definition vadd (u v : vec3) : vec3 :=
  let '(u1, u2, u3) := u in let '(v1, v2, v3) := v in
  (u1 + v1, u2 + v2, u3 + v3).

Definition vsub (u v : vec3) : vec3 :=
  let '(u1, u2, u3) := u in let '(v1, v2, v3) := v in
  (u1 - v1, u2 - v2, u3 - v3).

Definition vscale (k : R) (u : vec3) : vec3 :=
  let '(u1, u2, u3) := u in (k * u1, k * u2, k * u3).

Definition vdot (u v : vec3) : R :=
  let '(u1, u2, u3) := u in let '(v1, v2, v3) := v in
  u1 * v1 + u2 * v2 + u3 * v3.

Definition vmap (f : R -> R) (u : vec3) : vec3 :=
  let '(u1, u2, u3) := u in (f u1, f u2, f u3).

Definition mmap (f : R -> R) (m : mat3) : mat3 :=
  let '(r1, r2, r3) := m in (vmap f r1, vmap f r2, vmap f r3).

Definition madd (m p : mat3) : mat3 :=
  let '(r1, r2, r3) := m in let '(s1, s2, s3) := p in
  (vadd r1 s1, vadd r2 s2, vadd r3 s3).

Definition mzero : mat3 := ((0, 0, 0), (0, 0, 0), (0, 0, 0)).

Definition mneg (m : mat3) : mat3 := mmap Ropp m.

(** [m / d], element by element *)
Definition mdiv (m : mat3) (d : R) : mat3 := mmap (fun x => x / d) m.

(** [k * m], element by element *)
Definition mscale (k : R) (m : mat3) : mat3 := mmap (fun x => k * x) m.

Definition vget (u : vec3) (i : nat) : R :=
  let '(u1, u2, u3) := u in
  match i with O => u1 | 1%nat => u2 | _ => u3 end.

Definition mrow (m : mat3) (i : nat) : vec3 :=
  let '(r1, r2, r3) := m in
  match i with O => r1 | 1%nat => r2 | _ => r3 end.

Definition mget (m : mat3) (i j : nat) : R := vget (mrow m i) j.

Definition mtranspose (m : mat3) : mat3 :=
  ((mget m 0 0, mget m 1 0, mget m 2 0),
   (mget m 0 1, mget m 1 1, mget m 2 1),
   (mget m 0 2, mget m 1 2, mget m 2 2)).

(** [sum] of a list of tensors *)
Definition msum (l : list mat3) : mat3 := fold_right madd mzero l.

(** [np.dot(copy, at)]: an integer row vector times the matrix whose rows
    are the lattice vectors. *)
Definition cell_dot (c : cell) (lat : mat3) : vec3 :=
  let '(c1, c2, c3) := c in
  vadd (vadd (vscale (IZR c1) (mrow lat 0)) (vscale (IZR c2) (mrow lat 1)))
       (vscale (IZR c3) (mrow lat 2)).

(** [np.sqrt(np.dot(r, r))] *)
Definition vnorm (r : vec3) : R := sqrt (vdot r r).

(** Comparison of floats as a boolean. *)
Definition Rltb (x y : R) : bool := if Rlt_dec x y then true else false.

(** Python's [min] of a non-empty list; of the empty list it raises. *)
Definition list_min (l : list R) : option R :=
  match l with
  | [] => None
  | x :: l' => Some (fold_left Rmin l' x)
  end.

(** ** 8-bit storage *)

(** The value read back after a store into an [np.int8] array. *)
Definition int8 (z : Z) : Z := ((z + 128) mod 256 - 128)%Z.

Definition int8_cell (c : cell) : cell :=
  let '(c1, c2, c3) := c in (int8 c1, int8 c2, int8 c3).

(** ** Arrays filled by index *)

(** [buf[n] = v]; an index past the end raises [IndexError]. *)
Fixpoint set_item {A : Type} (buf : list A) (n : nat) (v : A)
  : option (list A) :=
  match buf, n with
  | [], _ => None
  | _ :: buf', O => Some (v :: buf')
  | x :: buf', S n' => buf'' <- set_item buf' n' v ;; Some (x :: buf'')
  end.

(** ** The force-constant tensor

    [phid] has shape [(nat, nat, nr1, nr2, nr3, 3, 3)]; [fc_phid] gives the
    3x3 block [phid[na1, na2, m1, m2, m3]]. *)

Record force_constants : Type := {
  fc_nat : nat;
  fc_nr1 : nat;
  fc_nr2 : nat;
  fc_nr3 : nat;
  fc_phid : nat -> nat -> nat -> nat -> nat -> mat3
}.

(** A spring: atom indices, lattice translation, mass-normalised coupling. *)
Record spring : Type := {
  sp_atoms : Z * Z;
  sp_cell : cell;
  sp_const : mat3
}.

(** ** Spring List Builder: [dynamical_matrix], set-up part *)

Definition supercells : list Z := [-1; 0; 1]%Z.

(** The 27 [copies] of cell [(m1, m2, m3)], [M3] running fastest. *)
Definition copies (nr1 nr2 nr3 m1 m2 m3 : nat) : list cell :=
  flat_map (fun M1 =>
    flat_map (fun M2 =>
      map (fun M3 =>
        (Z.of_nat m1 + M1 * Z.of_nat nr1,
         Z.of_nat m2 + M2 * Z.of_nat nr2,
         Z.of_nat m3 + M3 * Z.of_nat nr3)%Z) supercells) supercells) supercells.

Section Builder.

Variable phid : force_constants.
Variable amass : nat -> R.
Variable lat : mat3.            (* [at]: rows are the lattice vectors *)
Variable tau : nat -> vec3.
Variable eps : R.

Let nat_ := fc_nat phid.
Let nr1 := fc_nr1 phid.
Let nr2 := fc_nr2 phid.
Let nr3 := fc_nr3 phid.

(** [lengths] for the pair [(na1, na2)] and the given [copies] *)
Definition bond_lengths (na1 na2 : nat) (cs : list cell) : list R :=
  let shifts := map (fun c => cell_dot c lat) cs in
  let bonds := map (fun r => vsub (vadd r (tau na1)) (tau na2)) shifts in
  map vnorm bonds.

(** [copies[np.where(abs(lengths - length) < eps)]] *)
Definition select (cs : list cell) (lengths : list R) (length : R)
  : list cell :=
  map fst (filter (fun cl => Rltb (Rabs (snd cl - length)) eps)
                  (combine cs lengths)).

(** [selected] for one entry; [copies] is never empty, so [min] returns. *)
Definition selected (na1 na2 m1 m2 m3 : nat) : list cell :=
  let cs := copies nr1 nr2 nr3 m1 m2 m3 in
  let lengths := bond_lengths na1 na2 cs in
  match list_min lengths with
  | Some length => select cs lengths length
  | None => []
  end.

(** [C] for one entry *)
Definition coupling (na1 na2 m1 m2 m3 : nat) : mat3 :=
  mdiv (fc_phid phid na1 na2 m1 m2 m3)
       (INR (length (selected na1 na2 m1 m2 m3))
        * sqrt (amass na1 * amass na2)).

(** The buffers of one worker and its spring counter [n]. *)
Record buffers : Type := {
  b_atoms : list (Z * Z);
  b_cells : list cell;
  b_const : list mat3;
  b_n : nat
}.

(** Body of [for R in selected]. *)
Definition save (na1 na2 : nat) (C : mat3) (R : cell) (b : buffers)
  : option buffers :=
  a <- set_item (b_atoms b) (b_n b)
                (int8 (Z.of_nat na1), int8 (Z.of_nat na2)) ;;
  c <- set_item (b_cells b) (b_n b) (int8_cell R) ;;
  k <- set_item (b_const b) (b_n b) C ;;
  Some {| b_atoms := a; b_cells := c; b_const := k; b_n := S (b_n b) |}.

(** The work done for a cell the worker owns: the loops over [na1], [na2]
    and [R]. *)
Definition cell_work (m1 m2 m3 : nat) (b : buffers) : option buffers :=
  for_each (range nat_) (fun na1 =>
    for_each (range nat_) (fun na2 =>
      for_each (selected na1 na2 m1 m2 m3)
               (save na1 na2 (coupling na1 na2 m1 m2 m3)))) b.

(** The three loops over the cells with the overall counter [N] and the
    round-robin test, for any work [work] done on the owned cells. *)
Definition cell_loops {B : Type} (size rank : nat)
  (work : nat -> nat -> nat -> B -> option B) (s : nat * B)
  : option (nat * B) :=
  for_each (range nr1) (fun m1 =>
    for_each (range nr2) (fun m2 =>
      for_each (range nr3) (fun m3 (s : nat * B) =>
        let N := S (fst s) in
        if negb (N mod size =? rank)%nat then Some (N, snd s)
        else b <- work m1 m2 m3 (snd s) ;; Some (N, b)))) s.

(** The cells worker [rank] owns, in the order it meets them: the loops
    with the work replaced by taking note of the cell. *)
Definition owned_cells (size rank : nat) : list (nat * nat * nat) :=
  match cell_loops size rank
          (fun m1 m2 m3 seen => Some (seen ++ [(m1, m2, m3)])) (O, []) with
  | Some (_, seen) => seen
  | None => []
  end.

(** [maxdim] *)
Definition maxdim (size : nat) : nat :=
  (nat_ ^ 2 * nr1 * nr2 * nr3 * length supercells ^ 3 / size)%nat.

Section Worker.

(** [np.empty] leaves the content of a fresh buffer unspecified. *)
Variable junk_atoms : Z * Z.
Variable junk_cell : cell.
Variable junk_const : mat3.

Definition initial (size : nat) : buffers :=
  {| b_atoms := repeat junk_atoms (maxdim size);
     b_cells := repeat junk_cell (maxdim size);
     b_const := repeat junk_const (maxdim size);
     b_n := 0 |}.

(** What one worker contributes to the gather:
    [atoms[:n]], [cells[:n]], [const[:n]]. *)
Definition worker (size rank : nat)
  : option (list (Z * Z) * list cell * list mat3) :=
  s <- cell_loops size rank cell_work (O, initial size) ;;
  let b := snd s in
  Some (firstn (b_n b) (b_atoms b),
        firstn (b_n b) (b_cells b),
        firstn (b_n b) (b_const b)).

(** [Allgatherv]: the contributions in rank order; the run has a result
    only if every worker reaches the collective. *)
Fixpoint allgather (size : nat) (ranks : list nat)
  : option (list (Z * Z) * list cell * list mat3) :=
  match ranks with
  | [] => Some ([], [], [])
  | r :: ranks' =>
      '(a, c, k) <- worker size r ;;
      '(a', c', k') <- allgather size ranks' ;;
      Some (a ++ a', c ++ c', k ++ k')
  end.

(** [zip(allatoms, allcells, allconst)] *)
Definition zip3 (g : list (Z * Z) * list cell * list mat3) : list spring :=
  let '(a, c, k) := g in
  map (fun x => {| sp_atoms := fst (fst x); sp_cell := snd (fst x);
                   sp_const := snd x |})
      (combine (combine a c) k).

(** The Spring List that [calculate_dynamical_matrix] closes over, for a
    run with [size] workers. *)
Definition spring_list (size : nat) : option (list spring) :=
  g <- allgather size (range size) ;; Some (zip3 g).

End Worker.

End Builder.

(** ** Complex numbers *)

Definition complex : Type := R * R.

Definition C0 : complex := (0, 0).
Definition Ci : complex := (0, 1).
Definition RtoC (x : R) : complex := (x, 0).
Definition Cadd (z w : complex) : complex := (fst z + fst w, snd z + snd w).
Definition Cmul (z w : complex) : complex :=
  (fst z * fst w - snd z * snd w, fst z * snd w + snd z * fst w).
Definition Cconj (z : complex) : complex := (fst z, - snd z).
Definition Cexp (z : complex) : complex :=
  (exp (fst z) * cos (snd z), exp (fst z) * sin (snd z)).

(** [np.absolute] of a complex number *)
Definition Cabs (z : complex) : R := sqrt (fst z * fst z + snd z * snd z).

Definition Csum (l : list complex) : complex := fold_right Cadd C0 l.

(** A square complex array; the side is carried next to it. *)
Definition cmatrix : Type := nat -> nat -> complex.

(** ** Dynamical Matrix Evaluator: [calculate_dynamical_matrix] *)

(** First index of the slice [a::step] of an axis of length [len]. *)
Definition slice_start (a : Z) (len : nat) : nat :=
  if (a <? 0)%Z then Z.to_nat (Z.max (a + Z.of_nat len) 0)
  else Z.to_nat (Z.min a (Z.of_nat len)).

(** The indices that [a::step] addresses on an axis of length [len]
    ([step] positive). *)
Definition slice_indices (a : Z) (step len : nat) : list nat :=
  let start := slice_start a len in
  map (fun k => (start + k * step)%nat)
      (range ((len - start + step - 1) / step)).

Fixpoint index_of (i : nat) (l : list nat) : option nat :=
  match l with
  | [] => None
  | x :: l' => if (i =? x)%nat then Some O
               else option_map S (index_of i l')
  end.

(** [D[rows, cols] += B] for a 3x3 block [B]: numpy raises unless the
    addressed block is 3x3 too. *)
Definition iadd_block (D : cmatrix) (rows cols : list nat)
  (B : nat -> nat -> complex) : option cmatrix :=
  if ((length rows =? 3) && (length cols =? 3))%nat then
    Some (fun i j =>
            match index_of i rows, index_of j cols with
            | Some a, Some b => Cadd (D i j) (B a b)
            | _, _ => D i j
            end)
  else None.

(** [R.dot(q)] *)
Definition cell_dot_q (c : cell) (q1 q2 q3 : R) : R :=
  let '(c1, c2, c3) := c in IZR c1 * q1 + IZR c2 * q2 + IZR c3 * q3.

(** [C * np.exp(1j * R.dot(q))] *)
Definition spring_block (s : spring) (q1 q2 q3 : R) (i j : nat) : complex :=
  Cmul (RtoC (mget (sp_const s) i j))
       (Cexp (Cmul Ci (RtoC (cell_dot_q (sp_cell s) q1 q2 q3)))).

(** Body of the loop over the springs; a zero step in a slice raises. *)
Definition add_spring (nat_ : nat) (q1 q2 q3 : R) (s : spring) (D : cmatrix)
  : option cmatrix :=
  if (nat_ =? 0)%nat then None
  else iadd_block D
         (slice_indices (fst (sp_atoms s)) nat_ (3 * nat_))
         (slice_indices (snd (sp_atoms s)) nat_ (3 * nat_))
         (spring_block s q1 q2 q3).

(** The matrix of side [3 * nat_] at the wavevector [(q1, q2, q3)]. *)
Definition calculate_dynamical_matrix (nat_ : nat) (springs : list spring)
  (q1 q2 q3 : R) : option cmatrix :=
  for_each springs (add_spring nat_ q1 q2 q3) (fun _ _ => C0).

(** [dynamical_matrix]: the set-up by [size] workers, then the function that
    every worker gets back. *)
Definition dynamical_matrix (phid : force_constants) (amass : nat -> R)
  (lat : mat3) (tau : nat -> vec3) (eps : R) (junk_atoms : Z * Z)
  (junk_cell : cell) (junk_const : mat3) (size : nat)
  : option (R -> R -> R -> option cmatrix) :=
  springs <- spring_list phid amass lat tau eps junk_atoms junk_cell
                         junk_const size ;;
  Some (calculate_dynamical_matrix (fc_nat phid) springs).

(** ** Frequency Solver *)

(** [np.sign] *)
Definition np_sign (x : R) : R :=
  if Rlt_dec x 0 then -1 else if Rlt_dec 0 x then 1 else 0.

(** [np.sign(w2) * np.sqrt(np.absolute(w2))] for one eigenvalue *)
Definition signed_frequency (w2 : R) : R := np_sign w2 * sqrt (Rabs w2).

Section Frequencies.

(** The dense Hermitian eigensolver of scipy, applied to a matrix of the
    given side: eigenvalues, and eigenvalues with eigenvectors. *)
Variable eigvalsh : nat -> cmatrix -> list R.
Variable eigh : nat -> cmatrix -> list R * cmatrix.

Definition frequencies (side : nat) (D : cmatrix) : list R :=
  let w2 := eigvalsh side D in
  map signed_frequency w2.

Definition frequencies_and_displacements (side : nat) (D : cmatrix)
  : list R * cmatrix :=
  let '(w2, e) := eigh side D in
  (map signed_frequency w2, e).

End Frequencies.

(** ** Acoustic sum rule: [asr] *)

(** [phid[a, b, m1, m2, m3] = v], in place. *)
Definition set_block (p : force_constants) (a b m1 m2 m3 : nat) (v : mat3)
  : force_constants :=
  {| fc_nat := fc_nat p; fc_nr1 := fc_nr1 p; fc_nr2 := fc_nr2 p;
     fc_nr3 := fc_nr3 p;
     fc_phid := fun a' b' m1' m2' m3' =>
       if ((a' =? a) && (b' =? b) && (m1' =? m1) && (m2' =? m2)
           && (m3' =? m3))%nat
       then v else fc_phid p a' b' m1' m2' m3' |}.

(** The blocks the generator yields for [na1], in its order. *)
Definition asr_terms (p : force_constants) (na1 : nat) : list mat3 :=
  flat_map (fun na2 =>
    flat_map (fun m1 =>
      flat_map (fun m2 =>
        flat_map (fun m3 =>
          if (negb (na1 =? na2) || negb (m1 =? 0) || negb (m2 =? 0)
              || negb (m3 =? 0))%nat
          then [fc_phid p na1 na2 m1 m2 m3] else [])
          (range (fc_nr3 p))) (range (fc_nr2 p))) (range (fc_nr1 p)))
    (range (fc_nat p)).

(** Python's [sum]: a left fold from zero. *)
Definition py_sum (l : list mat3) : mat3 := fold_left madd l mzero.

(** [asr] changes [phid] in place; the model returns the changed array.  The
    store at cell [0, 0, 0] raises when an axis of the grid is empty. *)
Definition asr (phid : force_constants) : option force_constants :=
  for_each (range (fc_nat phid)) (fun na1 p =>
    let v := mneg (py_sum (asr_terms p na1)) in
    if ((0 <? fc_nr1 p) && (0 <? fc_nr2 p) && (0 <? fc_nr3 p))%nat
    then Some (set_block p na1 na1 0 0 0 v)
    else None) phid.

(** ** Dispersion Sampler: the balanced split *)

(** [sizes]: [N // size] everywhere, then one more on [sizes[:N % size]]. *)
Definition sizes (N size : nat) : list nat :=
  let s := repeat (N / size)%nat size in
  map S (firstn (N mod size) s) ++ skipn (N mod size) s.

Definition nat_sum (l : list nat) : nat := fold_right Nat.add O l.

(** [Scatterv] with counts and no displacements: rank [r] receives the
    [counts[r]] items that follow those of the ranks before it.  The code
    counts floats, two per mesh point; the model counts mesh points. *)
Definition scatterv {A : Type} (sendbuf : list A) (counts : list nat)
  (rank : nat) : list A :=
  firstn (nth rank counts O) (skipn (nat_sum (firstn rank counts)) sendbuf).

(** The indices of the [N] flattened mesh points that [rank] receives. *)
Definition my_points (N size rank : nat) : list nat :=
  scatterv (range N) (sizes N size) rank.

(** ** Band Order Resolver: [band_order] *)

(** Python's [max(l, key=key)]: the first item with the largest key; on an
    empty sequence it raises. *)
Definition py_max_key (l : list nat) (key : nat -> R) : option nat :=
  match l with
  | [] => None
  | x :: l' =>
      Some (fold_left (fun best y => if Rltb (key best) (key y) then y
                                     else best) l' x)
  end.

Section BandOrder.

Variable N bands : nat.
Variable w : nat -> nat -> R.                (* [w[n, nu]] *)
Variable e : nat -> nat -> nat -> complex.   (* [e[n, k, mu]] *)
Variable junk_order : nat -> nat -> nat.     (* content of [np.empty] *)

(** [np.absolute(np.dot(e[n0, :, order[n0, nu]], e[n, :, mu].conj()))] *)
Definition overlap (order : nat -> nat -> nat) (n0 n nu mu : nat) : R :=
  Cabs (Csum (map (fun k => Cmul (e n0 k (order n0 nu)) (Cconj (e n k mu)))
                  (range bands))).

(** [np.all(np.absolute(np.diff(w[n])) > 1e-10)] *)
Definition no_degeneracy (n : nat) : bool :=
  forallb (fun k => Rltb 1e-10 (Rabs (w n (S k) - w n k)))
          (range (bands - 1)).

(** [order[n, nu] = v] *)
Definition set_order (order : nat -> nat -> nat) (n nu v : nat)
  : nat -> nat -> nat :=
  fun n' nu' => if ((n' =? n) && (nu' =? nu))%nat then v else order n' nu'.

(** Body of [for nu in range(bands)]. *)
Definition assign_slot (n0 n nu : nat) (order : nat -> nat -> nat)
  : option (nat -> nat -> nat) :=
  mu <- py_max_key (range bands) (overlap order n0 n nu) ;;
  Some (set_order order n nu mu).

(** Body of [for n in range(1, N)]; the state is [(n0, order)]. *)
Definition track_point (n : nat) (s : nat * (nat -> nat -> nat))
  : option (nat * (nat -> nat -> nat)) :=
  order <- for_each (range bands) (assign_slot (fst s) n) (snd s) ;;
  Some (if no_degeneracy n then n else fst s, order).

(** [order[0] = range(bands)] raises on an array without rows. *)
Definition band_order : option (nat -> nat -> nat) :=
  if (N =? 0)%nat then None
  else
    let order0 := fun n nu => if (n =? 0)%nat then nu else junk_order n nu in
    s <- for_each (seq 1 (N - 1)) track_point (O, order0) ;;
    Some (snd s).

(** The tuple [order[n]]. *)
Definition order_row (order : nat -> nat -> nat) (n : nat) : list nat :=
  map (order n) (range bands).

End BandOrder.

(** ** Band Order Resolver: the symmetry-consensus pass of [dispersion] *)

(** Python's order on tuples of integers. *)
Fixpoint tuple_ltb (x y : list nat) : bool :=
  match x, y with
  | [], [] => false
  | [], _ :: _ => true
  | _ :: _, [] => false
  | a :: x', b :: y' => (a <? b)%nat || ((a =? b)%nat && tuple_ltb x' y')
  end.

Fixpoint tuple_eqb (x y : list nat) : bool :=
  match x, y with
  | [], [] => true
  | a :: x', b :: y' => (a =? b)%nat && tuple_eqb x' y'
  | _, _ => false
  end.

(** The dictionary [counts], as its items in insertion order. *)
Definition counts_dict : Type := list (list nat * nat).

(** [if new in counts: counts[new] += 1 else: counts[new] = 1] *)
Fixpoint count_one (new : list nat) (counts : counts_dict) : counts_dict :=
  match counts with
  | [] => [(new, 1%nat)]
  | (x, c) :: counts' =>
      if tuple_eqb x new then (x, S c) :: counts'
      else (x, c) :: count_one new counts'
  end.

(** [(-counts[x], x) < (-counts[y], y)] *)
Definition vote_ltb (x y : list nat * nat) : bool :=
  (snd y <? snd x)%nat || ((snd x =? snd y)%nat && tuple_ltb (fst x) (fst y)).

(** [min(counts, key=lambda x: (-counts[x], x))]: the first key of the
    dictionary with the least sort key; on an empty dictionary it raises. *)
Definition py_min_vote (counts : counts_dict) : option (list nat) :=
  match counts with
  | [] => None
  | x :: counts' =>
      Some (fst (fold_left (fun best y => if vote_ltb y best then y else best)
                           counts' x))
  end.

Section Consensus.

(** [bravais.images(n, m, nq)]: the mesh points equivalent to [(n, m)]
    under the hexagonal point group.  The module [bravais] is not part of
    the sources at hand, so the function is a parameter. *)
Variable images : nat -> nat -> nat -> list (nat * nat).

Variable nq : nat.

(** [order] of shape [(nq, nq, bands)], a tuple per mesh point. *)
Definition mesh_order : Type := nat -> nat -> list nat.

(** [tuple(order[N, M])]; an index outside the mesh raises. *)
Definition get_order (order : mesh_order) (N M : nat) : option (list nat) :=
  if ((N <? nq) && (M <? nq))%nat then Some (order N M) else None.

(** [order[n, m] = t] *)
Definition set_mesh (order : mesh_order) (n m : nat) (t : list nat)
  : mesh_order :=
  fun n' m' => if ((n' =? n) && (m' =? m))%nat then t else order n' m'.

(** The loop over the images of [(n, m)] that fills [counts]. *)
Definition tally (order : mesh_order) (n m : nat) : option counts_dict :=
  for_each (images n m nq)
           (fun NM counts =>
              new <- get_order order (fst NM) (snd NM) ;;
              Some (count_one new counts)) [].

(** Body of [for m in range(nq)]. *)
Definition fix_point (n m : nat) (order : mesh_order) : option mesh_order :=
  counts <- tally order n m ;;
  best <- py_min_vote counts ;;
  Some (set_mesh order n m best).

(** The pass run when [fix] is set. *)
Definition fix_order (order : mesh_order) : option mesh_order :=
  for_each (range nq) (fun n => for_each (range nq) (fun m => fix_point n m))
           order.

End Consensus.

(** ** What the builder computes, as plain lists *)

Section BuilderLists.

Variable phid : force_constants.
Variable amass : nat -> R.
Variable lat : mat3.
Variable tau : nat -> vec3.
Variable eps : R.

(** The cells in the order of the three loops. *)
Definition all_cells : list (nat * nat * nat) :=
  flat_map (fun m1 =>
    flat_map (fun m2 =>
      map (fun m3 => (m1, m2, m3)) (range (fc_nr3 phid)))
      (range (fc_nr2 phid))) (range (fc_nr1 phid)).

(** The value of the counter [N] when the loops reach a cell. *)
Definition counter (c : nat * nat * nat) : nat :=
  let '(m1, m2, m3) := c in
  S (m1 * (fc_nr2 phid * fc_nr3 phid) + m2 * fc_nr3 phid + m3).

(** The springs saved for one entry [(na1, na2, m1, m2, m3)]. *)
Definition entry_springs (na1 na2 m1 m2 m3 : nat) : list spring :=
  map (fun R => {| sp_atoms := (int8 (Z.of_nat na1), int8 (Z.of_nat na2));
                   sp_cell := int8_cell R;
                   sp_const := coupling phid amass lat tau eps
                                        na1 na2 m1 m2 m3 |})
      (selected phid lat tau eps na1 na2 m1 m2 m3).

(** The springs saved for one cell. *)
Definition cell_springs (c : nat * nat * nat) : list spring :=
  let '(m1, m2, m3) := c in
  flat_map (fun na1 =>
    flat_map (fun na2 => entry_springs na1 na2 m1 m2 m3)
             (range (fc_nat phid))) (range (fc_nat phid)).

(** The springs one worker saves. *)
Definition worker_springs (size rank : nat) : list spring :=
  flat_map cell_springs (owned_cells phid size rank).

End BuilderLists.

(** ** Notions used in the statements and proofs *)

Section RoundRobinCells.

Variables size rank : nat.

(** The cells of [cs] that the worker owns when the counter stands at
    [N0] before the first of them. *)
Fixpoint owned_from (N0 : nat) (cs : list (nat * nat * nat))
  : list (nat * nat * nat) :=
  match cs with
  | [] => []
  | c :: cs' =>
      if (S N0 mod size =? rank)%nat then c :: owned_from (S N0) cs'
      else owned_from (S N0) cs'
  end.

End RoundRobinCells.

(** The buffers have capacity [cap] and hold the springs [l] in their first
    [n] places. *)
Definition holds (cap : nat) (b : buffers) (l : list spring) : Prop :=
  length (b_atoms b) = cap /\ length (b_cells b) = cap
  /\ length (b_const b) = cap /\ b_n b = length l
  /\ firstn (b_n b) (b_atoms b) = map sp_atoms l
  /\ firstn (b_n b) (b_cells b) = map sp_cell l
  /\ firstn (b_n b) (b_const b) = map sp_const l.

(** A piece of the loops saves the springs [xs]: it appends them when they
    fit and raises when they do not. *)
Definition emits (f : buffers -> option buffers) (xs : list spring) : Prop :=
  forall cap b l, holds cap b l ->
    ((length l + length xs <= cap)%nat ->
       exists b', f b = Some b' /\ holds cap b' (l ++ xs))
    /\ ((cap < length l + length xs)%nat -> f b = None).

Section Fitting.

Variable phid : force_constants.
Variable amass : nat -> R.
Variable lat : mat3.
Variable tau : nat -> vec3.
Variable eps : R.

(** The springs of worker [rank] fit into its buffers. *)
Definition fits (size rank : nat) : bool :=
  (length (worker_springs phid amass lat tau eps size rank)
   <=? maxdim phid size)%nat.

End Fitting.

Section Bonds.

Variable phid : force_constants.
Variable lat : mat3.
Variable tau : nat -> vec3.

(** The length of the bond of the pair [(na1, na2)] across the cell [c]. *)
Definition bond_length (na1 na2 : nat) (c : cell) : R :=
  vnorm (vsub (vadd (cell_dot c lat) (tau na1)) (tau na2)).

(** The least bond length among the 27 copies of a cell. *)
Definition shortest (na1 na2 m1 m2 m3 : nat) : R :=
  match list_min (map (bond_length na1 na2)
                      (copies (fc_nr1 phid) (fc_nr2 phid) (fc_nr3 phid)
                              m1 m2 m3)) with
  | Some len => len
  | None => 0
  end.

End Bonds.

(** Lattice vectors of unit length along the axes. *)
Definition unit_lattice : mat3 := ((1, 0, 0), (0, 1, 0), (0, 0, 1)).

(** All atoms at the origin of the cell. *)
Definition at_origin : nat -> vec3 := fun _ => (0, 0, 0).

(** One atom in a single cell. *)
Definition single_cell (K : mat3) : force_constants :=
  {| fc_nat := 1; fc_nr1 := 1; fc_nr2 := 1; fc_nr3 := 1;
     fc_phid := fun _ _ _ _ _ => K |}.

(** One atom, two cells along the first axis: a chain.  The bond between
    the atom and its copy one cell further is as long as the bond to the
    copy one cell back, so it lies on the boundary of the supercell. *)
Definition chain (K0 K1 : mat3) : force_constants :=
  {| fc_nat := 1; fc_nr1 := 2; fc_nr2 := 1; fc_nr3 := 1;
     fc_phid := fun _ _ m1 _ _ => match m1 with O => K0 | _ => K1 end |}.

(** 129 atoms on a single cell, every block the identity. *)
Definition crowded : force_constants :=
  {| fc_nat := 129; fc_nr1 := 1; fc_nr2 := 1; fc_nr3 := 1;
     fc_phid := fun _ _ _ _ _ => unit_lattice |}.

(** Square of the length of an integer vector. *)
Definition norm2 (c : cell) : Z :=
  let '(c1, c2, c3) := c in (c1 * c1 + c2 * c2 + c3 * c3)%Z.

(** The spring was saved for the entry [(na1, na2, m1, m2, m3)]: its atoms
    are [na1] and [na2], and its translation falls on the cell
    [(m1, m2, m3)] of the grid. *)
Definition belongs (phid : force_constants) (na1 na2 m1 m2 m3 : nat)
  (s : spring) : bool :=
  let '(a, b) := sp_atoms s in
  let '(r1, r2, r3) := sp_cell s in
  ((a =? Z.of_nat na1) && (b =? Z.of_nat na2)
   && (r1 mod Z.of_nat (fc_nr1 phid) =? Z.of_nat m1)
   && (r2 mod Z.of_nat (fc_nr2 phid) =? Z.of_nat m2)
   && (r3 mod Z.of_nat (fc_nr3 phid) =? Z.of_nat m3))%Z.

(** The block of the entry recovered from a Spring List: the couplings of
    the springs of the entry, with the masses multiplied back, added up. *)
Definition resum (phid : force_constants) (amass : nat -> R)
  (springs : list spring) (na1 na2 m1 m2 m3 : nat) : mat3 :=
  msum (map (fun s => mscale (sqrt (amass na1 * amass na2)) (sp_const s))
            (filter (belongs phid na1 na2 m1 m2 m3) springs)).

(** The spring seen from its second atom. *)
Definition flip (s : spring) : spring :=
  let '(a, b) := sp_atoms s in
  let '(r1, r2, r3) := sp_cell s in
  {| sp_atoms := (b, a); sp_cell := (- r1, - r2, - r3)%Z;
     sp_const := mtranspose (sp_const s) |}.

(** The symmetry [(atomA, atomB, R) <-> (atomB, atomA, -R)] of a Spring List:
    seen from the second atoms it is the same collection of springs. *)
Definition symmetric_springs (springs : list spring) : Prop :=
  Permutation (map flip springs) springs.

(** Both atom indices address an atom. *)
Definition well_indexed (nat_ : nat) (s : spring) : Prop :=
  (0 <= fst (sp_atoms s) < Z.of_nat nat_
   /\ 0 <= snd (sp_atoms s) < Z.of_nat nat_)%Z.

(** A square array of the given side equals its conjugate transpose. *)
Definition hermitian (side : nat) (D : cmatrix) : Prop :=
  forall i j, (i < side)%nat -> (j < side)%nat -> D i j = Cconj (D j i).

(** What one spring adds to the element [(i, j)] of the matrix. *)
Definition spring_term (nat_ : nat) (q1 q2 q3 : R) (s : spring) (i j : nat)
  : complex :=
  match index_of i (slice_indices (fst (sp_atoms s)) nat_ (3 * nat_)),
        index_of j (slice_indices (snd (sp_atoms s)) nat_ (3 * nat_)) with
  | Some k, Some l => spring_block s q1 q2 q3 k l
  | _, _ => C0
  end.

(** The sum of a list of reals. *)
Definition Rsum (l : list R) : R := fold_right Rplus 0 l.

Section Correction.

Variable phid : force_constants.

(** The array after the corrections for the atoms below [n]. *)
Definition corrected_upto (n : nat) (p : force_constants) : Prop :=
  fc_nat p = fc_nat phid /\ fc_nr1 p = fc_nr1 phid
  /\ fc_nr2 p = fc_nr2 phid /\ fc_nr3 p = fc_nr3 phid
  /\ forall a b m1 m2 m3,
       fc_phid p a b m1 m2 m3
       = if ((a <? n) && (b =? a) && (m1 =? 0) && (m2 =? 0) && (m3 =? 0))%nat
         then mneg (py_sum (asr_terms phid a))
         else fc_phid phid a b m1 m2 m3.

End Correction.

(** Body of the loop of [asr]. *)
Definition asr_step (na1 : nat) (p : force_constants)
  : option force_constants :=
  let v := mneg (py_sum (asr_terms p na1)) in
  if ((0 <? fc_nr1 p) && (0 <? fc_nr2 p) && (0 <? fc_nr3 p))%nat
  then Some (set_block p na1 na1 0 0 0 v)
  else None.




Section References.

Variable bands : nat.
Variable w : nat -> nat -> R.
Variable e : nat -> nat -> nat -> complex.

(** The reference point against which point [n] is matched: the last point
    before [n], other than the first, without degeneracy; the first point
    if there is none. *)
Fixpoint reference (n : nat) : nat :=
  match n with
  | O => O
  | S m => if ((1 <=? m)%nat && no_degeneracy bands w m)%bool then m
           else reference m
  end.

(** The rows below [n] are matched against their references. *)
Definition matched_below (n : nat) (order : nat -> nat -> nat) : Prop :=
  (forall nu, order O nu = nu)
  /\ forall n' nu, (1 <= n' < n)%nat -> (nu < bands)%nat ->
       py_max_key (range bands) (overlap bands e order (reference n') n' nu)
       = Some (order n' nu).

End References.

(** A rotation matrix with rational entries; its columns are orthonormal. *)
Definition rotation_entry (k mu : nat) : R :=
  match k, mu with
  | 0%nat, 0%nat => 27 / 31 | 0%nat, 1%nat => - 6 / 31 | 0%nat, _ => 14 / 31
  | 1%nat, 0%nat => 14 / 31 | 1%nat, 1%nat => 21 / 31 | 1%nat, _ => - 18 / 31
  | _, 0%nat => - 6 / 31    | _, 1%nat => 22 / 31     | _, _ => 21 / 31
  end.

(** Eigenvectors at two mesh points: the unit vectors at the first point,
    the columns of the rotation at the second. *)
Definition tilted_e (n k mu : nat) : complex :=
  match n with
  | O => if (k =? mu)%nat then (1, 0) else (0, 0)
  | _ => (rotation_entry k mu, 0)
  end.

(** Frequencies without degeneracy. *)
Definition apart_w (n nu : nat) : R := INR nu.

Section Votes.

Local Open Scope nat_scope.

(** How often a tuple occurs in a list. *)
Definition occurrences (t : list nat) (ts : list (list nat)) : nat :=
  count_occ (list_eq_dec Nat.eq_dec) ts t.

(** The tuple that wins the vote: none occurs more often, and those that
    occur as often come later in the order of tuples. *)
Definition is_winner (t : list nat) (ts : list (list nat)) : Prop :=
  In t ts
  /\ forall t', In t' ts ->
       occurrences t' ts <= occurrences t ts
       /\ (occurrences t' ts = occurrences t ts ->
           t' = t \/ tuple_ltb t t' = true).

(** The dictionary after counting the tuples [ts]. *)
Definition tally_list (ts : list (list nat)) : counts_dict :=
  fold_left (fun counts t => count_one t counts) ts [].

(** The tuple chosen among the tuples [ts]. *)
Definition vote (ts : list (list nat)) : option (list nat) :=
  py_min_vote (tally_list ts).

(** The dictionary holds the tuples of [ts] with their numbers. *)
Definition dict_of (c : counts_dict) (ts : list (list nat)) : Prop :=
  NoDup (map fst c)
  /\ forall t k, In (t, k) c <-> (k = occurrences t ts /\ 1 <= k).

End Votes.

(** The mesh points in the order of the two loops. *)
Definition mesh_points (nq : nat) : list (nat * nat) :=
  flat_map (fun n => map (fun m => (n, m)) (range nq)) (range nq).

Section Orbits.

Variable images : nat -> nat -> nat -> list (nat * nat).
Variable nq : nat.

(** The tuples seen at the images of [(n, m)] in the array [order]. *)
Definition seen (order : nat -> nat -> list nat) (n m : nat)
  : list (list nat) :=
  map (fun NM => order (fst NM) (snd NM)) (images n m nq).

End Orbits.

Section Settling.

Variable images : nat -> nat -> nat -> list (nat * nat).
Variable nq : nat.
Variable order0 : nat -> nat -> list nat.

Local Abbreviation seen := (seen images nq).

(** Every point still has its old tuple or already the winner of its
    orbit. *)
Definition settling (cur : nat -> nat -> list nat) : Prop :=
  forall n m, (n < nq)%nat -> (m < nq)%nat ->
    cur n m = order0 n m \/ is_winner (cur n m) (seen order0 n m).

End Settling.

(** The orbits of the 3 x 3 mesh under the rotations by 60 degrees
    [(n, m) -> (-m, n + m)] and the mirror [(n, m) -> (m, n)], modulo 3. *)
Definition hex3_images (n m nq : nat) : list (nat * nat) :=
  match n, m with
  | 0%nat, 0%nat => [(0, 0)]%nat
  | 1%nat, 1%nat => [(1, 1); (2, 2)]%nat
  | 2%nat, 2%nat => [(1, 1); (2, 2)]%nat
  | _, _ => [(1, 0); (0, 1); (2, 1); (2, 0); (0, 2); (1, 2)]%nat
  end.

(** Every point holds the identity, except the point [(1, 0)]. *)
Definition one_off (n m : nat) : list nat :=
  match n, m with
  | 1%nat, 0%nat => [1; 0; 2]%nat
  | _, _ => [0; 1; 2]%nat
  end.

(** ** Reading the force constants: [read_flfrc] *)

(** [map] of a conversion that can raise. *)
Fixpoint map_opt {A B : Type} (g : A -> option B) (l : list A)
  : option (list B) :=
  match l with
  | [] => Some []
  | x :: l' => y <- g x ;; ys <- map_opt g l' ;; Some (y :: ys)
  end.

(** [np.empty(z)] raises on a negative size. *)
Definition np_size (z : Z) : option nat :=
  if (z <? 0)%Z then None else Some (Z.to_nat z).

(** [a[i]] for a Python index, negative indices counting from the end. *)
Definition py_index {A : Type} (a : list A) (i : Z) : option A :=
  if (i <? 0)%Z then
    if (i + Z.of_nat (length a) <? 0)%Z then None
    else nth_error a (Z.to_nat (i + Z.of_nat (length a)))
  else nth_error a (Z.to_nat i).

(** Assignment of a list to a row of three floats: numpy broadcasts one
    value and raises on any length other than one and three. *)
Definition broadcast3 (xs : list R) : option (list R) :=
  match xs with
  | [x] => Some [x; x; x]
  | [_; _; _] => Some xs
  | _ => None
  end.

(** A table that can be assigned to a 3x3 block. *)
Definition fits33 (t : list (list R)) : bool :=
  forallb (fun row => (length row =? 3)%nat) t
  || forallb (fun row => (length row =? 1)%nat) t.

(** [K[j1, j2] = v] *)
Definition mset (K : mat3) (j1 j2 : nat) (v : R) : mat3 :=
  let upd (u : vec3) : vec3 :=
    let '(u1, u2, u3) := u in
    match j2 with O => (v, u2, u3) | 1%nat => (u1, v, u3) | _ => (u1, u2, v)
    end in
  let '(r1, r2, r3) := K in
  match j1 with
  | O => (upd r1, r2, r3) | 1%nat => (r1, upd r2, r3) | _ => (r1, r2, upd r3)
  end.

(** What [read_flfrc] returns: the list [[phid, amass[ityp], at, tau]], or
    [None] after a message has been printed. *)
Record flfrc : Type := {
  r_phid : force_constants;
  r_amass : list R;
  r_at : list (list R);
  r_tau : list (list R)
}.

Inductive returned : Type :=
| Loaded (d : flfrc)
| Nothing (printed : string).

Section ReadFlfrc.

(** Python's [int] and [float] of a word; [None] when they raise. *)
Variable py_int : string -> option Z.
Variable py_float : string -> option R.

(** The content of a fresh [np.empty] block. *)
Variable junk_block : mat3.

(** The file: the lines not yet read, each split into its words. *)
Definition file : Type := list (list string).

(** [cells()]: the words of the next line; at the end of the file
    [readline] gives the empty string. *)
Definition cells (f : file) : list string * file :=
  match f with
  | [] => ([], [])
  | l :: f' => (l, f')
  end.

(** [table(rows)], with the eager [map] of Python 2. *)
Fixpoint table (rows : nat) (f : file) : option (list (list R) * file) :=
  match rows with
  | O => Some ([], f)
  | S rows' =>
      let '(ws, f1) := cells f in
      row <- map_opt py_float ws ;;
      '(t, f2) <- table rows' f1 ;;
      Some (row :: t, f2)
  end.

(** The lattice vectors for [ibrav == 4]. *)
Definition hexagonal_at (celldim : list R) : option (list (list R)) :=
  c0 <- nth_error celldim 0 ;;
  c2 <- nth_error celldim 2 ;;
  Some [ [1 * c0; 0 * c0; 0 * c0];
         [-1 * c0 / 2; sqrt 3 * c0 / 2; 0 * c0 / 2];
         [0 * c0 * c2; 0 * c0 * c2; 1 * c0 * c2] ].

(** The loop over the atomic species. *)
Definition read_species (ntyp : nat) (f : file) : option (list R * file) :=
  for_each (range ntyp)
    (fun _ (s : list R * file) =>
       let '(tmp, f1) := cells (snd s) in
       _ <- nth_error tmp 1 ;;
       m <- py_float (last tmp EmptyString) ;;
       Some (fst s ++ [m], f1)) ([], f).

(** The loop over the atoms. *)
Definition read_atoms (nat_ : nat) (f : file)
  : option (list Z * list (list R) * file) :=
  for_each (range nat_)
    (fun _ (s : list Z * list (list R) * file) =>
       let '(ityp, tau, f0) := s in
       let '(tmp, f1) := cells f0 in
       w <- nth_error tmp 1 ;;
       i <- py_int w ;;
       xs <- map_opt py_float (firstn 3 (skipn 2 tmp)) ;;
       row <- broadcast3 xs ;;
       Some (ityp ++ [(i - 1)%Z], tau ++ [row], f1)) ([], [], f).

(** The dielectric function and the effective charges, read and dropped. *)
Definition read_rigid (nat_ : nat) (f : file) : option file :=
  '(_, f1) <- table 3 f ;;
  for_each (range nat_)
    (fun _ f0 => '(zeu, f') <- table 3 f0 ;;
                 if fits33 zeu then Some f' else None) f1.

(** The loops over the force constants. *)
Definition read_phid (nat_ nr1 nr2 nr3 : nat) (f : file)
  : option (force_constants * file) :=
  for_each (range 3) (fun j1 =>
    for_each (range 3) (fun j2 =>
      for_each (range nat_) (fun na1 =>
        for_each (range nat_) (fun na2 (s : force_constants * file) =>
          let '(_, f1) := cells (snd s) in
          for_each (range nr3) (fun m3 =>
            for_each (range nr2) (fun m2 =>
              for_each (range nr1) (fun m1 (s : force_constants * file) =>
                let '(tmp, f') := cells (snd s) in
                _ <- nth_error tmp 0 ;;
                v <- py_float (last tmp EmptyString) ;;
                Some (set_block (fst s) na1 na2 m1 m2 m3
                        (mset (fc_phid (fst s) na1 na2 m1 m2 m3) j1 j2 v),
                      f'))))
            (fst s, f1)))))
    ({| fc_nat := nat_; fc_nr1 := nr1; fc_nr2 := nr2; fc_nr3 := nr3;
        fc_phid := fun _ _ _ _ _ => junk_block |}, f).

(** [read_flfrc], from the opened file on.  The result is [None] when an
    exception is raised. *)
Definition read_flfrc (f : file) : option returned :=
  let '(tmp, f) := cells f in
  ints <- map_opt py_int (firstn 3 tmp) ;;
  match ints with
  | [ntyp; nat_; ibrav] =>
      celldim <- map_opt py_float (skipn 3 tmp) ;;
      lattice <-
        (if (ibrav =? 0)%Z then
           '(a, f') <- table 3 f ;; Some (Some (a, f'))
         else if (ibrav =? 4)%Z then
           a <- hexagonal_at celldim ;; Some (Some (a, f))
         else Some None) ;;
      match lattice with
      | None => Some (Nothing "Bravais lattice unknown")
      | Some (lat, f) =>
          ntyp' <- np_size ntyp ;;
          '(amass, f) <- read_species ntyp' f ;;
          nat' <- np_size nat_ ;;
          '(ityp, tau, f) <- read_atoms nat' f ;;
          c0 <- nth_error celldim 0 ;;
          let tau := map (map (fun x => x * c0)) tau in
          let '(tmp, f) := cells f in
          flag <- nth_error tmp 0 ;;
          f <- (if String.eqb flag "T" then read_rigid nat' f else Some f) ;;
          let '(tmp, f) := cells f in
          dims <- map_opt py_int tmp ;;
          match dims with
          | [nr1; nr2; nr3] =>
              nr1' <- np_size nr1 ;;
              nr2' <- np_size nr2 ;;
              nr3' <- np_size nr3 ;;
              '(phid, _) <- read_phid nat' nr1' nr2' nr3' f ;;
              masses <- map_opt (py_index amass) ityp ;;
              Some (Loaded {| r_phid := phid; r_amass := masses;
                              r_at := lat; r_tau := tau |})
          | _ => None
          end
      end
  | _ => None
  end.

End ReadFlfrc.

(** *** Plain decimal words *)

Definition digit (c : ascii) : option Z :=
  let n := nat_of_ascii c in
  if ((48 <=? n) && (n <=? 57))%nat then Some (Z.of_nat (n - 48)) else None.

Fixpoint digits (s : string) (acc : Z) : option Z :=
  match s with
  | EmptyString => Some acc
  | String c s' => d <- digit c ;; digits s' (10 * acc + d)%Z
  end.

(** [int] on the words that are plain decimal integers; Python accepts more
    (a plus sign, blanks, underscores), which this converter rejects. *)
Definition decimal_int (s : string) : option Z :=
  match s with
  | EmptyString => None
  | String "-"%char EmptyString => None
  | String "-"%char s' => option_map Z.opp (digits s' 0)
  | _ => digits s 0
  end.

(** [float] on the same words. *)
Definition decimal_float (s : string) : option R :=
  option_map IZR (decimal_int s).

(** A file whose header announces one species, one atom and the lattice
    code 1 (simple cubic), with six cell dimensions. *)
Definition cubic_header : list string :=
  ["1"; "1"; "1"; "10"; "0"; "0"; "0"; "0"; "0"]%string.

(** All blocks [phid[a, b, m1, m2, m3]] of the atom [a], the self term
    included. *)
Definition atom_blocks (p : force_constants) (a : nat) : list mat3 :=
  flat_map (fun b =>
    flat_map (fun m1 =>
      flat_map (fun m2 =>
        map (fun m3 => fc_phid p a b m1 m2 m3) (range (fc_nr3 p)))
        (range (fc_nr2 p))) (range (fc_nr1 p))) (range (fc_nat p)).

(** Two arrays of the same shape with the same content. *)
Definition same_tensor (p p' : force_constants) : Prop :=
  fc_nat p = fc_nat p' /\ fc_nr1 p = fc_nr1 p' /\ fc_nr2 p = fc_nr2 p'
  /\ fc_nr3 p = fc_nr3 p'
  /\ forall a b m1 m2 m3,
       fc_phid p a b m1 m2 m3 = fc_phid p' a b m1 m2 m3.

(** A list of floats in ascending order. *)
Definition ascending (l : list R) : Prop :=
  forall i j, (i <= j < length l)%nat -> nth i l 0 <= nth j l 0.

(** The columns [u[:, nu]] for [nu < bands] are orthonormal. *)
Definition orthonormal (bands : nat) (u : nat -> nat -> complex) : Prop :=
  forall nu mu, (nu < bands)%nat -> (mu < bands)%nat ->
    Csum (map (fun k => Cmul (u k nu) (Cconj (u k mu))) (range bands))
    = if (nu =? mu)%nat then (1, 0) else (0, 0).

(** Two bands that swap between the first and the second point of a path:
    the unit vectors at the first point, exchanged at the second. *)
Definition swapped_e (n k mu : nat) : complex :=
  match n with
  | O => if (k =? mu)%nat then (1, 0) else (0, 0)
  | _ => if (k =? 1 - mu)%nat then (1, 0) else (0, 0)
  end.

(** ** Dispersion Sampler: [dispersion] *)

(** [np.linspace(0, stop, num, endpoint=False)] *)
Definition linspace (stop : R) (num : nat) : list R :=
  map (fun i => INR i * (stop / INR num)) (range num).

(** [q -= q[nq // 2]]; the index raises on an empty array. *)
Definition centred (q : list R) (nq : nat) : option (list R) :=
  c <- nth_error q (nq / 2) ;; Some (map (fun x => x - c) q).

(** [np.array(np.meshgrid(q, q)).T.reshape(N, 2)]: the pairs
    [(q[i], q[j])], [j] running fastest. *)
Definition mesh_pairs (q : list R) : list (R * R) :=
  flat_map (fun a => map (fun b => (a, b)) q) q.

(** The wavevectors of the mesh, flattened. *)
Definition wavevectors (nq : nat) : option (list (R * R)) :=
  q <- centred (linspace (2 * PI) nq) nq ;; Some (mesh_pairs q).

(** Assignment of a list to a row of [bands] items: numpy broadcasts one
    value and raises on any length other than one and [bands]. *)
Definition assign_row {A : Type} (bands : nat) (xs : list A)
  : option (list A) :=
  if (length xs =? bands)%nat then Some xs
  else match xs with
       | [x] => Some (repeat x bands)
       | _ => None
       end.

(** [Gatherv] and [Allgatherv] with the counts [sizes]: the parts of the
    workers in rank order; there is a result only if every worker reaches
    the collective. *)
Definition gather {A : Type} (size : nat) (part : nat -> option (list A))
  : option (list A) :=
  parts <- map_opt part (range size) ;; Some (concat parts).

(** [np.reshape] between the shapes [(nq, nq, ...)] and [(nq * nq, ...)]. *)
Definition flatten {A : Type} (nq : nat) (a : nat -> nat -> A) : nat -> A :=
  fun i => a (i / nq)%nat (i mod nq)%nat.

Definition unflatten {A : Type} (nq : nat) (a : nat -> A) : nat -> nat -> A :=
  fun n m => a (n * nq + m)%nat.

(** [range(0, nq, 2)] *)
Definition even_rows (nq : nat) : list nat :=
  map (fun k => (2 * k)%nat) (range ((nq + 1) / 2)).

(** [a[n] = a[n, ::-1]] *)
Definition reverse_row {A : Type} (nq : nat) (a : nat -> nat -> A) (n : nat)
  : nat -> nat -> A :=
  fun n' m => if (n' =? n)%nat then a n (nq - 1 - m)%nat else a n' m.

(** The loop that reverses every other row. *)
Definition wind {A : Type} (nq : nat) (a : nat -> nat -> A)
  : nat -> nat -> A :=
  fold_left (reverse_row nq) (even_rows nq) a.

(** [np.roll(a, shift, axis)] reads the item [i] of the result from this
    index of an axis of length [nq]. *)
Definition roll_index (nq shift i : nat) : nat :=
  let offset := (shift mod nq)%nat in
  if (i <? offset)%nat then (i + nq - offset)%nat else (i - offset)%nat.

Definition roll {A : Type} (nq shift : nat) (axis : nat)
  (a : nat -> nat -> A) : nat -> nat -> A :=
  match axis with
  | O => fun n m => a (roll_index nq shift n) m
  | _ => fun n m => a n (roll_index nq shift m)
  end.

(** [a[n, m] = v] *)
Definition set_point {A : Type} (a : nat -> nat -> A) (n m : nat) (v : A)
  : nat -> nat -> A :=
  fun n' m' => if ((n' =? n) && (m' =? m))%nat then v else a n' m'.

(** [w[n, m] = w[n, m, order[n, m]]]; an index that is no band raises. *)
Definition reorder_point (order : nat -> nat -> list nat) (n m : nat)
  (w : nat -> nat -> list R) : option (nat -> nat -> list R) :=
  row <- map_opt (nth_error (w n m)) (order n m) ;;
  Some (set_point w n m row).

(** [my_e[n, [k1, k2], nu] = v] *)
Definition set_pair (E : cmatrix) (k1 k2 nu : nat) (v : complex * complex)
  : cmatrix :=
  fun k mu =>
    if (mu =? nu)%nat then
      if (k =? k2)%nat then snd v
      else if (k =? k1)%nat then fst v
      else E k mu
    else E k mu.

Section Dispersion.

(** The function [dynamical_matrix] handed to [dispersion], which returns
    matrices of side [bands]. *)
Variable calculate : R -> R -> R -> option cmatrix.
Variable bands : nat.

Variable eigvalsh : nat -> cmatrix -> list R.
Variable eigh : nat -> cmatrix -> list R * cmatrix.

(** [bravais.u1], [bravais.u2], [bravais.rotate], [bravais.images] and
    [np.arctan2]: the module [bravais] is not part of the sources at
    hand. *)
Variable u1 u2 : R * R.
Variable rotate : complex * complex -> R -> complex * complex.
Variable arctan2 : R -> R -> R.
Variable images : nat -> nat -> nat -> list (nat * nat).

(** The content of fresh [np.empty] arrays. *)
Variable junk_w : list R.
Variable junk_e : cmatrix.
Variable junk_order : nat -> nat -> nat.

(** Body of the loop over [my_q] when the bands are not ordered. *)
Definition sample (q : R * R) : option (list R) :=
  D <- calculate (fst q) (snd q) 0 ;;
  assign_row bands (frequencies eigvalsh bands D).

(** The two loops that rotate the displacements of every atom in the
    plane. *)
Definition rotate_displacements (phi : R) (E : cmatrix) : cmatrix :=
  let nat_ := (bands / 3)%nat in
  fold_left (fun E na =>
    fold_left (fun E nu =>
      set_pair E na (na + nat_) nu
               (rotate (E na nu, E (na + nat_)%nat nu) (- phi)))
      (range bands) E) (range nat_) E.

(** Body of the loop over [my_q] when the bands are ordered. *)
Definition sample_displacements (q : R * R) : option (list R * cmatrix) :=
  D <- calculate (fst q) (snd q) 0 ;;
  let '(fr, E) := frequencies_and_displacements eigh bands D in
  row <- assign_row bands fr ;;
  let qx := fst q * fst u1 + snd q * fst u2 in
  let qy := fst q * snd u1 + snd q * snd u2 in
  let phi := arctan2 qy qx in
  Some (row, rotate_displacements phi E).

(** The tuples [order[n, m]] of an integer array. *)
Definition tuples (order : nat -> nat -> nat -> nat)
  : nat -> nat -> list nat :=
  fun n m => map (order n m) (range bands).

(** [dispersion] run by [size] workers: the array [w], and [order] when
    the bands are ordered. *)
Definition dispersion (size nq : nat) (order fix_ : bool)
  : option ((nat -> nat -> list R) * option (nat -> nat -> list nat)) :=
  _ <- calculate 0 0 0 ;;
  let N := (nq ^ 2)%nat in
  q <- wavevectors nq ;;
  if negb order then
    rows <- gather size (fun rank =>
              map_opt sample (scatterv q (sizes N size) rank)) ;;
    Some (unflatten nq (fun i => nth i rows junk_w), None)
  else
    pts <- gather size (fun rank =>
             map_opt sample_displacements (scatterv q (sizes N size) rank)) ;;
    let w := unflatten nq (fun i => fst (nth i pts (junk_w, junk_e))) in
    let e := unflatten nq (fun i => snd (nth i pts (junk_w, junk_e))) in
    let w := wind nq w in
    let e := wind nq e in
    order <- band_order N bands (fun i nu => nth nu (flatten nq w i) 0)
                        (flatten nq e) junk_order ;;
    let order := unflatten nq order in
    let w := wind nq w in
    let order := wind nq order in
    let w := roll nq (nq / 2) 1 (roll nq (nq / 2) 0 w) in
    let order := roll nq (nq / 2) 1 (roll nq (nq / 2) 0 order) in
    let order := tuples order in
    order <- (if fix_ then fix_order images nq order else Some order) ;;
    w <- for_each (range nq) (fun n =>
           for_each (range nq) (fun m => reorder_point order n m)) w ;;
    Some (w, Some order).

End Dispersion.

(** The component of the wavevector at the index [i] of an axis of the
    mesh. *)
Definition mesh_q (nq i : nat) : R :=
  INR i * (2 * PI / INR nq) - INR (nq / 2) * (2 * PI / INR nq).

(** The mesh point whose data the wound and flattened array holds at the
    index [i]. *)
Definition path (nq i : nat) : nat * nat :=
  let n := (i / nq)%nat in
  (n, if Nat.even n then (nq - 1 - i mod nq)%nat else (i mod nq)%nat).

(** Mesh points one step apart along one axis. *)
Definition neighbours (p p' : nat * nat) : Prop :=
  (fst p' = fst p /\ (snd p' = S (snd p) \/ snd p = S (snd p')))
  \/ (fst p' = S (fst p) /\ snd p' = snd p).

(** A crystal without forces: every matrix is zero, and so are the
    eigenvalues that the solver returns with the unit vectors. *)
Definition free_crystal : R -> R -> R -> option cmatrix :=
  fun _ _ _ => Some (fun _ _ => C0).

Definition zero_eigvalsh : nat -> cmatrix -> list R :=
  fun side _ => repeat 0 side.

Definition zero_eigh : nat -> cmatrix -> list R * cmatrix :=
  fun side _ =>
    (repeat 0 side, fun k mu => if (k =? mu)%nat then (1, 0) else C0).

(** The rotation by no angle at all, and a point group with the identity
    only. *)
Definition no_rotation : complex * complex -> R -> complex * complex :=
  fun v _ => v.

Definition own_image (n m nq : nat) : list (nat * nat) := [(n, m)].

(** A row of three floats as a vector. *)
Definition row3 (l : list R) : vec3 := (nth 0 l 0, nth 1 l 0, nth 2 l 0).

(** A file with the lattice vectors given, one species, no atom and an
    empty grid. *)
Definition free_file : file :=
  [ ["1"; "0"; "0"; "1"];
    ["1"; "0"; "0"];
    ["0"; "2"; "0"];
    ["0"; "0"; "3"];
    ["1"; "X"; "7"];
    ["F"];
    ["0"; "0"; "0"] ]%string.

(** A file for a hexagonal lattice with two species and one atom, whose
    species number is 0; the grid has a single cell. *)
Definition hexagonal_file : file :=
  [ ["2"; "1"; "4"; "2"; "0"; "3"];
    ["1"; "C"; "12"];
    ["2"; "O"; "16"];
    ["1"; "0"; "0"; "0"; "0"];
    ["F"];
    ["1"; "1"; "1"] ]%string
  ++ concat (repeat [ ["1"; "1"; "1"; "1"]; ["1"; "1"; "1"; "5"] ]%string 9).


(** An entry of the block of force constants of the file: the Cartesian
    indices [j1] and [j2], the atoms [na1] and [na2], the cell
    [(m1, m2, m3)]. *)
Definition entry : Type := (nat * nat * nat * nat * nat * nat * nat)%type.

(** The lines of the block in the order in which the loops read them: for
    each pair of Cartesian indices and each pair of atoms a line that is
    skipped, [None], then the lines of the entries. *)
Definition entry_lines (nr1 nr2 nr3 j1 j2 na1 na2 : nat)
  : list (option entry) :=
  flat_map (fun m3 =>
    flat_map (fun m2 =>
      map (fun m1 => Some (j1, j2, na1, na2, m1, m2, m3)) (range nr1))
      (range nr2))
    (range nr3).

Definition phid_lines (nat_ nr1 nr2 nr3 : nat) : list (option entry) :=
  flat_map (fun j1 =>
    flat_map (fun j2 =>
      flat_map (fun na1 =>
        flat_map (fun na2 => None :: entry_lines nr1 nr2 nr3 j1 j2 na1 na2)
          (range nat_))
        (range nat_))
      (range 3))
    (range 3).

(** The number, within the block, of the line that holds an entry. *)
Definition line_of (nat_ nr1 nr2 nr3 : nat) (e : entry) : nat :=
  let '(j1, j2, na1, na2, m1, m2, m3) := e in
  ((((j1 * 3 + j2) * nat_ + na1) * nat_ + na2) * (1 + nr3 * (nr2 * nr1))
   + 1 + ((m3 * nr2 + m2) * nr1 + m1))%nat.

(** The entry addresses an element of the array. *)
Definition valid_entry (nat_ nr1 nr2 nr3 : nat) (e : entry) : Prop :=
  let '(j1, j2, na1, na2, m1, m2, m3) := e in
  (j1 < 3 /\ j2 < 3 /\ na1 < nat_ /\ na2 < nat_
   /\ m1 < nr1 /\ m2 < nr2 /\ m3 < nr3)%nat.

(** The element [phid[na1, na2, m1, m2, m3, j1, j2]]. *)
Definition element (p : force_constants) (e : entry) : R :=
  let '(j1, j2, na1, na2, m1, m2, m3) := e in
  mget (fc_phid p na1 na2 m1 m2 m3) j1 j2.

(** What the loops do with one line of the block. *)
Definition read_line (py_float : string -> option R) (l : option entry)
  (s : force_constants * file) : option (force_constants * file) :=
  match l with
  | None => Some (fst s, snd (cells (snd s)))
  | Some (j1, j2, na1, na2, m1, m2, m3) =>
      let '(tmp, f') := cells (snd s) in
      _ <- nth_error tmp 0 ;;
      v <- py_float (last tmp EmptyString) ;;
      Some (set_block (fst s) na1 na2 m1 m2 m3
              (mset (fc_phid (fst s) na1 na2 m1 m2 m3) j1 j2 v), f')
  end.

(** * Proofs *)

Unset Implicit Arguments.

(** ** Loops *)

Lemma for_each_app {A S : Type} (l1 l2 : list A) (body : A -> S -> option S)
  (s : S) :
  for_each (l1 ++ l2) body s = s' <- for_each l1 body s ;; for_each l2 body s'.
Proof.
  revert s; induction l1 as [|x l1 IH]; intros s; simpl; [reflexivity|].
  destruct (body x s); simpl; auto.
Qed.

Lemma for_each_flat_map {A B S : Type} (f : A -> list B) (l : list A)
  (body : B -> S -> option S) (s : S) :
  for_each (flat_map f l) body s
  = for_each l (fun x => for_each (f x) body) s.
Proof.
  revert s; induction l as [|x l IH]; intros s; simpl; [reflexivity|].
  rewrite for_each_app. destruct (for_each (f x) body s); simpl; auto.
Qed.

Lemma for_each_map {A B S : Type} (f : A -> B) (l : list A)
  (body : B -> S -> option S) (s : S) :
  for_each (map f l) body s = for_each l (fun x => body (f x)) s.
Proof.
  revert s; induction l as [|x l IH]; intros s; simpl; [reflexivity|].
  destruct (body (f x) s); simpl; auto.
Qed.

Lemma for_each_ext {A S : Type} (l : list A) (f g : A -> S -> option S)
  (s : S) :
  (forall x s, In x l -> f x s = g x s) ->
  for_each l f s = for_each l g s.
Proof.
  revert s; induction l as [|x l IH]; intros s H; simpl; [reflexivity|].
  rewrite (H x s) by (left; reflexivity).
  destruct (g x s); simpl; auto. apply IH. intros; apply H; right; assumption.
Qed.

(** ** The round-robin loops *)

Section RoundRobin.

Variable phid : force_constants.
Variables size rank : nat.

Local Abbreviation owned_from := (owned_from size rank).

Lemma cell_loops_flat {B : Type} (work : nat -> nat -> nat -> B -> option B)
  (s : nat * B) :
  cell_loops phid size rank work s
  = for_each (all_cells phid)
      (fun c (s : nat * B) =>
         let '(m1, m2, m3) := c in
         let N := S (fst s) in
         if negb (N mod size =? rank)%nat then Some (N, snd s)
         else b <- work m1 m2 m3 (snd s) ;; Some (N, b)) s.
Proof.
  unfold cell_loops, all_cells.
  rewrite for_each_flat_map. apply for_each_ext; intros m1 s1 _.
  rewrite for_each_flat_map. apply for_each_ext; intros m2 s2 _.
  rewrite for_each_map. reflexivity.
Qed.

Lemma cell_steps_owned {B : Type}
  (work : nat -> nat -> nat -> B -> option B)
  (cs : list (nat * nat * nat)) (N0 : nat) (b : B) :
  for_each cs
      (fun c (s : nat * B) =>
         let '(m1, m2, m3) := c in
         let N := S (fst s) in
         if negb (N mod size =? rank)%nat then Some (N, snd s)
         else b <- work m1 m2 m3 (snd s) ;; Some (N, b)) (N0, b)
  = b' <- for_each (owned_from N0 cs)
                   (fun c => let '(m1, m2, m3) := c in work m1 m2 m3) b ;;
    Some ((N0 + length cs)%nat, b').
Proof.
  revert N0 b; induction cs as [|[[m1 m2] m3] cs IH]; intros N0 b; simpl.
  - rewrite Nat.add_0_r. reflexivity.
  - destruct (S N0 mod size =? rank)%nat; simpl.
    + destruct (work m1 m2 m3 b) as [b1|]; simpl; [|reflexivity].
      rewrite IH. replace (S N0 + length cs)%nat with (N0 + S (length cs))%nat
        by lia. reflexivity.
    + rewrite IH. replace (S N0 + length cs)%nat with (N0 + S (length cs))%nat
        by lia. reflexivity.
Qed.

Lemma cell_loops_owned {B : Type}
  (work : nat -> nat -> nat -> B -> option B) (b : B) :
  cell_loops phid size rank work (O, b)
  = b' <- for_each (owned_from O (all_cells phid))
                   (fun c => let '(m1, m2, m3) := c in work m1 m2 m3) b ;;
    Some (length (all_cells phid), b').
Proof. rewrite cell_loops_flat, cell_steps_owned. reflexivity. Qed.

Lemma note_cells (cs seen : list (nat * nat * nat)) :
  for_each cs
    (fun c => let '(m1, m2, m3) := c in
              fun seen => Some (seen ++ [(m1, m2, m3)])) seen
  = Some (seen ++ cs).
Proof.
  revert seen; induction cs as [|[[m1 m2] m3] cs IH]; intros seen; simpl.
  - rewrite app_nil_r. reflexivity.
  - rewrite IH, <- app_assoc. reflexivity.
Qed.

Lemma owned_cells_eq :
  owned_cells phid size rank = owned_from O (all_cells phid).
Proof.
  unfold owned_cells. rewrite cell_loops_owned, note_cells. reflexivity.
Qed.

End RoundRobin.

(** ** Partitions *)

Lemma flat_map_seq_shift {A : Type} (f : nat -> list A) (a n : nat) :
  flat_map f (seq (S a) n) = flat_map (fun r => f (S r)) (seq a n).
Proof.
  revert a; induction n as [|n IH]; intros a; simpl; [reflexivity|].
  rewrite IH. reflexivity.
Qed.

Lemma flat_map_seq_blocks (a k n : nat) :
  flat_map (fun i => seq (a + i * k) k) (seq 0 n) = seq a (n * k).
Proof.
  induction n as [|n IH]; [reflexivity|].
  rewrite seq_S, flat_map_app, IH. simpl. rewrite app_nil_r.
  replace (k + n * k)%nat with (n * k + k)%nat by lia.
  rewrite seq_app. reflexivity.
Qed.

Lemma flat_map_ext_in {A B : Type} (f g : A -> list B) (l : list A) :
  (forall x, In x l -> f x = g x) -> flat_map f l = flat_map g l.
Proof.
  induction l as [|x l IH]; intros H; simpl; [reflexivity|].
  rewrite (H x) by (left; reflexivity). rewrite IH; [reflexivity|].
  intros; apply H; right; assumption.
Qed.

Lemma map_flat_map {A B C : Type} (g : B -> C) (f : A -> list B) (l : list A) :
  map g (flat_map f l) = flat_map (fun x => map g (f x)) l.
Proof.
  induction l as [|x l IH]; simpl; [reflexivity|].
  rewrite map_app, IH. reflexivity.
Qed.

Lemma map_offset_seq (base a k : nat) :
  map (fun m => S (base + m)) (seq a k) = seq (S (base + a)) k.
Proof.
  revert a; induction k as [|k IH]; intros a; simpl; [reflexivity|].
  rewrite IH. do 2 f_equal. lia.
Qed.

Lemma counter_all_cells (phid : force_constants) :
  map (counter phid) (all_cells phid)
  = seq 1 (fc_nr1 phid * fc_nr2 phid * fc_nr3 phid).
Proof.
  unfold all_cells, range.
  set (n1 := fc_nr1 phid). set (n2 := fc_nr2 phid). set (n3 := fc_nr3 phid).
  rewrite map_flat_map.
  rewrite (flat_map_ext_in _ (fun m1 => seq (1 + m1 * (n2 * n3)) (n2 * n3))).
  - rewrite flat_map_seq_blocks. f_equal. lia.
  - intros m1 _. rewrite map_flat_map.
    rewrite (flat_map_ext_in _
               (fun m2 => seq ((1 + m1 * (n2 * n3)) + m2 * n3) n3)).
    + apply flat_map_seq_blocks.
    + intros m2 _. rewrite map_map. unfold counter. fold n2 n3.
      rewrite (map_offset_seq (m1 * (n2 * n3) + m2 * n3) 0 n3).
      f_equal. lia.
Qed.

Lemma owned_from_filter (size rank : nat) (f : nat * nat * nat -> nat)
  (cs : list (nat * nat * nat)) (N0 : nat) :
  map f cs = seq (S N0) (length cs) ->
  owned_from size rank N0 cs = filter (fun c => (f c mod size =? rank)%nat) cs.
Proof.
  revert N0; induction cs as [|c cs IH]; intros N0 H; simpl in *.
  - reflexivity.
  - injection H as Hc Hcs. rewrite Hc, (IH (S N0) Hcs). reflexivity.
Qed.

Lemma owned_cells_filter (phid : force_constants) (size rank : nat) :
  owned_cells phid size rank
  = filter (fun c => (counter phid c mod size =? rank)%nat) (all_cells phid).
Proof.
  rewrite owned_cells_eq. apply owned_from_filter.
  rewrite counter_all_cells. f_equal.
  rewrite <- (length_map (counter phid)), counter_all_cells, length_seq.
  reflexivity.
Qed.

Lemma length_all_cells (phid : force_constants) :
  length (all_cells phid) = (fc_nr1 phid * fc_nr2 phid * fc_nr3 phid)%nat.
Proof.
  rewrite <- (length_map (counter phid)), counter_all_cells, length_seq.
  reflexivity.
Qed.

Lemma NoDup_all_cells (phid : force_constants) : NoDup (all_cells phid).
Proof.
  apply (NoDup_map_inv (counter phid)). rewrite counter_all_cells.
  apply seq_NoDup.
Qed.

(** Sorting the items of a list into [size] bins by a key below [size]
    loses and repeats nothing. *)
Lemma bins_permutation {A : Type} (key : A -> nat) (size : nat) (l : list A) :
  (forall x, In x l -> key x < size)%nat ->
  Permutation (flat_map (fun r => filter (fun x => (key x =? r)%nat) l)
                        (seq 0 size)) l.
Proof.
  induction l as [|x l IH]; intros Hk.
  - simpl. induction (seq 0 size); simpl; auto.
  - assert (Hx : (key x < size)%nat) by (apply Hk; left; reflexivity).
    assert (IH' := IH (fun y Hy => Hk y (or_intror Hy))). clear IH.
    assert (G : forall rs, NoDup rs ->
              Permutation
                (flat_map (fun r => filter (fun y => (key y =? r)%nat) (x :: l))
                          rs)
                ((if in_dec Nat.eq_dec (key x) rs then [x] else [])
                 ++ flat_map (fun r => filter (fun y => (key y =? r)%nat) l)
                             rs)).
    { induction rs as [|r rs IHrs]; intros Hnd; [simpl; auto|].
      inversion Hnd as [|? ? Hnotin Hnd']; subst.
      specialize (IHrs Hnd'). simpl flat_map.
      destruct (Nat.eqb_spec (key x) r) as [E|E].
      - subst r. destruct (in_dec Nat.eq_dec (key x) (key x :: rs));
          [|exfalso; apply n; left; reflexivity].
        destruct (in_dec Nat.eq_dec (key x) rs); [contradiction|].
        simpl in IHrs. simpl. constructor.
        apply Permutation_app_head. exact IHrs.
      - destruct (in_dec Nat.eq_dec (key x) (r :: rs)) as [i|n];
          destruct (in_dec Nat.eq_dec (key x) rs) as [i'|n'].
        + simpl. simpl in IHrs.
          eapply Permutation_trans;
            [apply Permutation_app_head; exact IHrs|].
          apply Permutation_sym, Permutation_middle.
        + exfalso. destruct i; [congruence|contradiction].
        + exfalso. apply n. right. assumption.
        + simpl. simpl in IHrs. apply Permutation_app_head. exact IHrs. }
    specialize (G (seq 0 size) (seq_NoDup size 0)).
    destruct (in_dec Nat.eq_dec (key x) (seq 0 size)) as [i|n].
    + eapply Permutation_trans; [exact G|]. simpl. constructor. exact IH'.
    + exfalso. apply n. apply in_seq. lia.
Qed.

Lemma owned_cells_partition (phid : force_constants) (size : nat) :
  (1 <= size)%nat ->
  Permutation (flat_map (owned_cells phid size) (range size)) (all_cells phid).
Proof.
  intros Hs. unfold range.
  rewrite (flat_map_ext_in _
    (fun r => filter (fun c => (counter phid c mod size =? r)%nat)
                     (all_cells phid))).
  - apply (bins_permutation (fun c => counter phid c mod size)%nat).
    intros c _. apply Nat.mod_upper_bound. lia.
  - intros r _. apply owned_cells_filter.
Qed.

(** The balanced split. *)

Section BalancedSplit.

Local Open Scope nat_scope.

Lemma firstn_repeat {A : Type} (x : A) (k n : nat) :
  (k <= n)%nat -> firstn k (repeat x n) = repeat x k.
Proof.
  revert n; induction k as [|k IH]; intros n H; [reflexivity|].
  destruct n as [|n]; [lia|]. simpl. rewrite IH by lia. reflexivity.
Qed.

Lemma skipn_repeat {A : Type} (x : A) (k n : nat) :
  skipn k (repeat x n) = repeat x (n - k).
Proof.
  revert n; induction k as [|k IH]; intros n; simpl.
  - rewrite Nat.sub_0_r. reflexivity.
  - destruct n as [|n]; [reflexivity|]. simpl. apply IH.
Qed.

Lemma sizes_repeat (N size : nat) :
  (1 <= size)%nat ->
  sizes N size
  = repeat (S (N / size)) (N mod size) ++ repeat (N / size) (size - N mod size).
Proof.
  intros H. unfold sizes.
  assert (N mod size < size)%nat by (apply Nat.mod_upper_bound; lia).
  rewrite firstn_repeat by lia. rewrite skipn_repeat.
  f_equal. clear. induction (N mod size) as [|k IH]; simpl; [reflexivity|].
  rewrite IH. reflexivity.
Qed.

Lemma nat_sum_app (l1 l2 : list nat) :
  nat_sum (l1 ++ l2) = (nat_sum l1 + nat_sum l2)%nat.
Proof. induction l1; simpl; lia. Qed.

Lemma nat_sum_repeat (x n : nat) : nat_sum (repeat x n) = (n * x)%nat.
Proof. induction n; simpl; lia. Qed.

Lemma sizes_sum (N size : nat) :
  (1 <= size)%nat -> nat_sum (sizes N size) = N.
Proof.
  intros H. rewrite sizes_repeat by assumption.
  rewrite nat_sum_app, !nat_sum_repeat.
  assert (N mod size < size)%nat by (apply Nat.mod_upper_bound; lia).
  pose proof (Nat.div_mod_eq N size). nia.
Qed.

Lemma sizes_length (N size : nat) :
  (1 <= size)%nat -> length (sizes N size) = size.
Proof.
  intros H. rewrite sizes_repeat by assumption.
  assert (N mod size < size)%nat by (apply Nat.mod_upper_bound; lia).
  rewrite length_app, !repeat_length. lia.
Qed.

Lemma sizes_nth (N size r : nat) :
  (1 <= size)%nat -> (r < size)%nat ->
  nth r (sizes N size) O
  = (N / size + (if r <? N mod size then 1 else 0))%nat.
Proof.
  intros H Hr. rewrite sizes_repeat by assumption.
  destruct (Nat.ltb_spec r (N mod size)).
  - rewrite app_nth1 by (rewrite repeat_length; lia).
    rewrite nth_repeat_lt by lia. lia.
  - rewrite app_nth2 by (rewrite repeat_length; lia).
    rewrite repeat_length.
    assert (N mod size < size)%nat by (apply Nat.mod_upper_bound; lia).
    rewrite nth_repeat_lt by lia. lia.
Qed.

Lemma scatterv_cons {A : Type} (buf : list A) (c : nat) (cs : list nat)
  (r : nat) :
  scatterv buf (c :: cs) (S r) = scatterv (skipn c buf) cs r.
Proof.
  unfold scatterv. simpl. rewrite skipn_skipn.
  f_equal. f_equal. lia.
Qed.

Lemma scatterv_concat {A : Type} (counts : list nat) (buf : list A) :
  flat_map (scatterv buf counts) (range (length counts))
  = firstn (nat_sum counts) buf.
Proof.
  unfold range. revert buf; induction counts as [|c cs IH]; intros buf.
  - reflexivity.
  - simpl length. simpl seq. simpl flat_map. rewrite flat_map_seq_shift.
    rewrite (flat_map_ext_in _ (scatterv (skipn c buf) cs))
      by (intros; apply scatterv_cons).
    rewrite IH. unfold scatterv at 1. simpl.
    rewrite <- (firstn_skipn c (firstn (c + nat_sum cs) buf)).
    rewrite firstn_firstn, Nat.min_l by lia.
    f_equal. rewrite skipn_firstn_comm. f_equal. lia.
Qed.

End BalancedSplit.

Lemma NoDup_app_disjoint {A : Type} (l1 l2 : list A) (x : A) :
  NoDup (l1 ++ l2) -> In x l1 -> In x l2 -> False.
Proof.
  induction l1 as [|y l1 IH]; simpl; intros Hnd H1 H2; [contradiction|].
  inversion Hnd as [|? ? Hnotin Hnd']; subst.
  destruct H1 as [->|H1].
  - apply Hnotin. apply in_or_app. right. assumption.
  - apply IH; assumption.
Qed.

(** In a concatenation without repetition an item has a single source. *)
Lemma flat_map_single_source {A B : Type} (f : A -> list B) (l : list A)
  (x : B) (a b : A) :
  NoDup (flat_map f l) -> In a l -> In b l -> In x (f a) -> In x (f b) ->
  a = b.
Proof.
  induction l as [|h t IH]; simpl; intros Hnd Ha Hb Hxa Hxb; [contradiction|].
  destruct Ha as [->|Ha], Hb as [->|Hb]; try reflexivity.
  - exfalso. apply (NoDup_app_disjoint _ _ x Hnd Hxa).
    apply in_flat_map. exists b. split; assumption.
  - exfalso. apply (NoDup_app_disjoint _ _ x Hnd Hxb).
    apply in_flat_map. exists a. split; assumption.
  - apply IH; try assumption. apply (NoDup_app_remove_l _ _ Hnd).
Qed.

Section PartitionClaim.

Local Open Scope nat_scope.

(** C6.  For every worker count [W >= 1]: the cells the round-robin loops of
    the Spring List Builder give to the workers [0 .. W-1] are, together, a
    rearrangement of all cells of the grid, each cell going to the one worker
    whose rank is the running counter of the cell modulo [W]; and the
    contiguous shares that the Dispersion Sampler scatters, concatenated in
    rank order, are exactly the indices [0 .. N-1], the share of rank [r]
    having [N / W] points plus one if [r < N mod W], and the sizes summing
    to [N]. *)
Theorem C6_partitions_cover_once (W N : nat) (phid : force_constants) :
  1 <= W ->
  (Permutation (flat_map (owned_cells phid W) (range W)) (all_cells phid)
   /\ NoDup (all_cells phid)
   /\ length (all_cells phid) = fc_nr1 phid * fc_nr2 phid * fc_nr3 phid
   /\ (forall c r, In c (all_cells phid) ->
         (r < W /\ In c (owned_cells phid W r)) <-> r = counter phid c mod W)
   /\ (forall r, NoDup (owned_cells phid W r))
   /\ (forall c r, In c (owned_cells phid W r) -> In c (all_cells phid)))
  /\
  (flat_map (my_points N W) (range W) = range N
   /\ (forall i, i < N -> exists r, r < W /\ In i (my_points N W r))
   /\ (forall i r r', r < W -> r' < W ->
         In i (my_points N W r) -> In i (my_points N W r') -> r = r')
   /\ (forall r, NoDup (my_points N W r))
   /\ (forall r, r < W ->
         length (my_points N W r)
         = N / W + (if r <? N mod W then 1 else 0))
   /\ (forall r, r < W ->
         nth r (sizes N W) 0 = N / W + (if r <? N mod W then 1 else 0))
   /\ length (sizes N W) = W
   /\ nat_sum (sizes N W) = N).
Proof.
  intros HW.
  assert (Hbal : flat_map (my_points N W) (range W) = range N).
  { replace (range W) with (range (length (sizes N W)))
      by (rewrite sizes_length by assumption; reflexivity).
    change (my_points N W) with (scatterv (range N) (sizes N W)).
    rewrite scatterv_concat, sizes_sum by assumption.
    unfold range. rewrite <- (length_seq N 0) at 1. apply firstn_all. }
  assert (Hnd : NoDup (flat_map (my_points N W) (range W))).
  { rewrite Hbal. apply seq_NoDup. }
  split; [repeat split|repeat split].
  - apply owned_cells_partition; assumption.
  - apply NoDup_all_cells.
  - apply length_all_cells.
  - intros [Hr Hin]. rewrite owned_cells_filter in Hin.
    apply filter_In in Hin. destruct Hin as [_ Hin].
    apply Nat.eqb_eq in Hin. symmetry; assumption.
  - subst r. apply Nat.mod_upper_bound. lia.
  - subst r. rewrite owned_cells_filter. apply filter_In.
    split; [assumption|]. apply Nat.eqb_refl.
  - intros r. rewrite owned_cells_filter. apply NoDup_filter, NoDup_all_cells.
  - intros c r Hin. rewrite owned_cells_filter in Hin.
    apply filter_In in Hin. tauto.
  - exact Hbal.
  - intros i Hi.
    assert (Hin : In i (flat_map (my_points N W) (range W))).
    { rewrite Hbal. apply in_seq. lia. }
    apply in_flat_map in Hin. destruct Hin as [r [Hr Hin]].
    exists r. split; [|assumption]. apply in_seq in Hr. lia.
  - intros i r r' Hr Hr' Hi Hi'.
    apply (flat_map_single_source (my_points N W) (range W) i r r' Hnd);
      try assumption; apply in_seq; lia.
  - intros r. unfold my_points, scatterv.
    assert (H1 : NoDup (skipn (nat_sum (firstn r (sizes N W))) (range N))).
    { pose proof (seq_NoDup N 0) as H0. fold (range N) in H0.
      rewrite <- (firstn_skipn (nat_sum (firstn r (sizes N W))) (range N))
        in H0.
      apply (NoDup_app_remove_l _ _ H0). }
    rewrite <- (firstn_skipn (nth r (sizes N W) 0)
                  (skipn (nat_sum (firstn r (sizes N W))) (range N))) in H1.
    apply (NoDup_app_remove_r _ _ H1).
  - intros r Hr.
    assert (Hlen : forall r, r <= W ->
              nat_sum (firstn r (sizes N W)) + nat_sum (skipn r (sizes N W))
              = N).
    { intros k _. rewrite <- nat_sum_app, firstn_skipn.
      apply sizes_sum; assumption. }
    unfold my_points, scatterv. rewrite length_firstn, length_skipn.
    unfold range. rewrite length_seq.
    rewrite <- (sizes_nth N W r HW Hr).
    assert (Hk : nat_sum (firstn r (sizes N W)) + nth r (sizes N W) 0 <= N).
    { specialize (Hlen r ltac:(lia)).
      assert (Hs : nth r (sizes N W) 0 <= nat_sum (skipn r (sizes N W))).
      { rewrite <- (firstn_skipn r (sizes N W)) at 1.
        rewrite app_nth2 by (rewrite length_firstn; lia).
        rewrite length_firstn, sizes_length by assumption.
        replace (r - Nat.min r W) with 0 by lia.
        destruct (skipn r (sizes N W)); simpl; lia. }
      lia. }
    lia.
  - intros r Hr. apply sizes_nth; assumption.
  - apply sizes_length; assumption.
  - apply sizes_sum; assumption.
Qed.

(** Three workers and a 2 x 2 x 1 grid, seven mesh points. *)
Lemma C6_partitions_cover_once_witness :
  nat_sum (sizes 7 3) = 7
  /\ flat_map (my_points 7 3) (range 3) = range 7.
Proof.
  pose proof (@C6_partitions_cover_once 3 7
                {| fc_nat := 1; fc_nr1 := 2; fc_nr2 := 2; fc_nr3 := 1;
                   fc_phid := fun _ _ _ _ _ => mzero |}
                ltac:(lia)) as [_ [H1 [_ [_ [_ [_ [_ [_ H2]]]]]]]].
  split; assumption.
Defined.

End PartitionClaim.

(** ** Signed frequencies *)

Lemma signed_frequency_pos (w2 : R) : 0 < w2 -> signed_frequency w2 = sqrt w2.
Proof.
  intros H. unfold signed_frequency, np_sign.
  destruct (Rlt_dec w2 0); [lra|]. destruct (Rlt_dec 0 w2); [|lra].
  rewrite Rabs_pos_eq by lra. lra.
Qed.

Lemma signed_frequency_neg (w2 : R) :
  w2 < 0 -> signed_frequency w2 = - sqrt (- w2).
Proof.
  intros H. unfold signed_frequency, np_sign.
  destruct (Rlt_dec w2 0); [|lra].
  rewrite Rabs_left by lra. lra.
Qed.

Lemma signed_frequency_zero : signed_frequency 0 = 0.
Proof.
  unfold signed_frequency, np_sign.
  destruct (Rlt_dec 0 0); [lra|]. lra.
Qed.

Lemma sqrt_of_square (x : R) : 0 <= x -> sqrt (x * x) = x.
Proof. intros H. apply sqrt_square. assumption. Qed.

(** C4.  Both modes of the Frequency Solver map every eigenvalue [w2] that
    the eigensolver returns to [sign(w2) * sqrt(|w2|)], the eigenvectors being
    passed on unchanged: the result has the magnitude [sqrt(|w2|)] and the
    sign of [w2].  In particular [-4] gives [-2], [9] gives [3] and [0]
    gives [0]. *)
Theorem C4_signed_frequency
  (eigvalsh : nat -> cmatrix -> list R)
  (eigh : nat -> cmatrix -> list R * cmatrix)
  (side : nat) (D : cmatrix) :
  frequencies eigvalsh side D
    = map (fun w2 => np_sign w2 * sqrt (Rabs w2)) (eigvalsh side D)
  /\ fst (frequencies_and_displacements eigh side D)
     = map (fun w2 => np_sign w2 * sqrt (Rabs w2)) (fst (eigh side D))
  /\ snd (frequencies_and_displacements eigh side D) = snd (eigh side D)
  /\ (forall w2, Rabs (signed_frequency w2) = sqrt (Rabs w2)
                 /\ 0 <= signed_frequency w2 * w2
                 /\ signed_frequency w2 * Rabs (signed_frequency w2) = w2)
  /\ np_sign (-4) = -1 /\ np_sign 9 = 1 /\ np_sign 0 = 0
  /\ signed_frequency (-4) = -2
  /\ signed_frequency 9 = 3
  /\ signed_frequency 0 = 0.
Proof.
  assert (Hs : forall x, 0 <= x -> sqrt x * sqrt x = x)
    by (intros; apply sqrt_sqrt; assumption).
  repeat split.
  - unfold frequencies_and_displacements. destruct (eigh side D); reflexivity.
  - unfold frequencies_and_displacements. destruct (eigh side D); reflexivity.
  - destruct (Rtotal_order w2 0) as [H|[H|H]].
    + rewrite signed_frequency_neg by assumption.
      rewrite Rabs_Ropp, (Rabs_left w2) by assumption.
      apply Rabs_pos_eq. apply sqrt_pos.
    + subst. rewrite signed_frequency_zero, Rabs_R0, sqrt_0. reflexivity.
    + rewrite signed_frequency_pos by assumption.
      rewrite (Rabs_pos_eq w2) by lra. apply Rabs_pos_eq. apply sqrt_pos.
  - destruct (Rtotal_order w2 0) as [H|[H|H]].
    + rewrite signed_frequency_neg by assumption.
      pose proof (sqrt_pos (- w2)). nra.
    + subst. lra.
    + rewrite signed_frequency_pos by assumption.
      pose proof (sqrt_pos w2). nra.
  - destruct (Rtotal_order w2 0) as [H|[H|H]].
    + rewrite signed_frequency_neg by assumption.
      rewrite Rabs_Ropp, (Rabs_pos_eq _ (sqrt_pos _)).
      pose proof (Hs (- w2) ltac:(lra)). lra.
    + subst. rewrite signed_frequency_zero. lra.
    + rewrite signed_frequency_pos by assumption.
      rewrite (Rabs_pos_eq _ (sqrt_pos _)). apply Hs. lra.
  - unfold np_sign. destruct (Rlt_dec (-4) 0); lra.
  - unfold np_sign. destruct (Rlt_dec 9 0); [lra|].
    destruct (Rlt_dec 0 9); lra.
  - unfold np_sign. destruct (Rlt_dec 0 0); [lra|].
    destruct (Rlt_dec 0 0); lra.
  - rewrite signed_frequency_neg by lra.
    replace (- -4) with (2 * 2) by lra. rewrite sqrt_of_square; lra.
  - rewrite signed_frequency_pos by lra.
    replace 9 with (3 * 3) by lra. rewrite sqrt_of_square; lra.
  - apply signed_frequency_zero.
Qed.

(** ** The buffers of a worker *)

Lemma set_item_some {A : Type} (buf : list A) (n : nat) (v : A) :
  (n < length buf)%nat ->
  exists buf', set_item buf n v = Some buf'
               /\ length buf' = length buf
               /\ firstn (S n) buf' = firstn n buf ++ [v].
Proof.
  revert n; induction buf as [|x buf IH]; intros n H; simpl in H; [lia|].
  destruct n as [|n].
  - exists (v :: buf). repeat split.
  - destruct (IH n ltac:(lia)) as [buf' [E [L F]]].
    exists (x :: buf'). simpl. rewrite E. simpl. repeat split.
    + rewrite L. reflexivity.
    + simpl in F. rewrite F. reflexivity.
Qed.

Lemma set_item_none {A : Type} (buf : list A) (n : nat) (v : A) :
  (length buf <= n)%nat -> set_item buf n v = None.
Proof.
  revert n; induction buf as [|x buf IH]; intros n H; [reflexivity|].
  simpl in H. destruct n as [|n]; [lia|]. simpl.
  rewrite IH by lia. reflexivity.
Qed.

Lemma save_emits (na1 na2 : nat) (C : mat3) (R : cell) :
  emits (save na1 na2 C R)
        [{| sp_atoms := (int8 (Z.of_nat na1), int8 (Z.of_nat na2));
            sp_cell := int8_cell R; sp_const := C |}].
Proof.
  intros cap b l (La & Lc & Lk & Hn & Fa & Fc & Fk). simpl length. split.
  - intros Hfit. unfold save.
    destruct (@set_item_some _ (b_atoms b) (b_n b)
                (int8 (Z.of_nat na1), int8 (Z.of_nat na2)) ltac:(lia))
      as [a [Ea [La' Fa']]].
    destruct (@set_item_some _ (b_cells b) (b_n b) (int8_cell R) ltac:(lia))
      as [c [Ec [Lc' Fc']]].
    destruct (@set_item_some _ (b_const b) (b_n b) C ltac:(lia))
      as [k [Ek [Lk' Fk']]].
    rewrite Ea, Ec, Ek. simpl. eexists. split; [reflexivity|].
    unfold holds. cbn [b_atoms b_cells b_const b_n].
    rewrite length_app, !map_app. cbn [map length sp_atoms sp_cell sp_const].
    rewrite Fa', Fc', Fk', Fa, Fc, Fk.
    repeat split; lia.
  - intros Hfull. unfold save.
    rewrite (@set_item_none _ (b_atoms b) (b_n b)) by lia. reflexivity.
Qed.

Lemma holds_le (cap : nat) (b : buffers) (l : list spring) :
  holds cap b l -> (length l <= cap)%nat.
Proof.
  intros (La & _ & _ & Hn & Fa & _).
  apply (f_equal (@length _)) in Fa.
  rewrite length_firstn, length_map in Fa. lia.
Qed.

Lemma for_each_emits {A : Type} (l : list A)
  (body : A -> buffers -> option buffers) (g : A -> list spring) :
  (forall x, In x l -> emits (body x) (g x)) ->
  emits (for_each l body) (flat_map g l).
Proof.
  induction l as [|x l IH]; intros Hb cap b acc Hh.
  - simpl. rewrite app_nil_r. split.
    + intros _. exists b. split; [reflexivity|assumption].
    + pose proof (holds_le _ _ _ Hh). simpl. lia.
  - assert (Hx := Hb x (or_introl eq_refl) cap b acc Hh).
    assert (IH' := IH (fun y Hy => Hb y (or_intror Hy))). clear IH.
    simpl. rewrite length_app. destruct Hx as [Hfit Hfull]. split.
    + intros Hle. destruct (Hfit ltac:(lia)) as [b1 [E1 H1]].
      rewrite E1. simpl.
      destruct (IH' cap b1 (acc ++ g x) H1) as [Hfit' _].
      rewrite length_app in Hfit'.
      destruct (Hfit' ltac:(lia)) as [b2 [E2 H2]].
      exists b2. split; [assumption|]. rewrite app_assoc. assumption.
    + intros Hgt.
      destruct (Nat.le_gt_cases (length acc + length (g x)) cap) as [Hle|Hlt].
      * destruct (Hfit Hle) as [b1 [E1 H1]]. rewrite E1. simpl.
        destruct (IH' cap b1 (acc ++ g x) H1) as [_ Hfull'].
        apply Hfull'. rewrite length_app. lia.
      * rewrite (Hfull Hlt). reflexivity.
Qed.

Lemma flat_map_single {A B : Type} (f : A -> B) (l : list A) :
  flat_map (fun x => [f x]) l = map f l.
Proof. induction l as [|x l IH]; simpl; [|rewrite IH]; reflexivity. Qed.

Section WorkerProofs.

Variable phid : force_constants.
Variable amass : nat -> R.
Variable lat : mat3.
Variable tau : nat -> vec3.
Variable eps : R.
Variable junk_atoms : Z * Z.
Variable junk_cell : cell.
Variable junk_const : mat3.

Lemma cell_work_emits (m1 m2 m3 : nat) :
  emits (cell_work phid amass lat tau eps m1 m2 m3)
        (cell_springs phid amass lat tau eps (m1, m2, m3)).
Proof.
  unfold cell_work, cell_springs.
  apply for_each_emits; intros na1 _.
  apply for_each_emits; intros na2 _.
  unfold entry_springs. rewrite <- flat_map_single.
  apply for_each_emits; intros R _. apply save_emits.
Qed.

Lemma initial_holds (size : nat) :
  holds (maxdim phid size)
        (initial phid junk_atoms junk_cell junk_const size) [].
Proof.
  unfold holds, initial; simpl. rewrite !repeat_length. repeat split.
Qed.

Local Abbreviation fits := (fits phid amass lat tau eps).

Lemma worker_spec (size rank : nat) :
  worker phid amass lat tau eps junk_atoms junk_cell junk_const size rank
  = if fits size rank then
      let ws := worker_springs phid amass lat tau eps size rank in
      Some (map sp_atoms ws, map sp_cell ws, map sp_const ws)
    else None.
Proof.
  unfold worker. rewrite cell_loops_owned, <- owned_cells_eq.
  assert (E : emits
                (for_each (owned_cells phid size rank)
                   (fun c => let '(m1, m2, m3) := c in
                             cell_work phid amass lat tau eps m1 m2 m3))
                (worker_springs phid amass lat tau eps size rank)).
  { unfold worker_springs. apply for_each_emits.
    intros [[m1 m2] m3] _. apply cell_work_emits. }
  destruct (E _ _ _ (initial_holds size)) as [Hfit Hfull]. simpl in *.
  unfold fits. destruct (Nat.leb_spec
    (length (worker_springs phid amass lat tau eps size rank))
    (maxdim phid size)) as [Hle|Hgt].
  - destruct (Hfit Hle) as [b' [Eb (_ & _ & _ & _ & Fa & Fc & Fk)]].
    rewrite Eb. simpl. rewrite Fa, Fc, Fk. reflexivity.
  - rewrite (Hfull Hgt). reflexivity.
Qed.

Lemma zip3_maps (l : list spring) :
  zip3 (map sp_atoms l, map sp_cell l, map sp_const l) = l.
Proof.
  unfold zip3. induction l as [|[a c k] l IH]; simpl; [reflexivity|].
  f_equal. exact IH.
Qed.

Lemma allgather_spec (size : nat) (ranks : list nat) :
  allgather phid amass lat tau eps junk_atoms junk_cell junk_const
            size ranks
  = if forallb (fits size) ranks then
      let ss := flat_map (worker_springs phid amass lat tau eps size) ranks in
      Some (map sp_atoms ss, map sp_cell ss, map sp_const ss)
    else None.
Proof.
  induction ranks as [|r ranks IH]; simpl; [reflexivity|].
  rewrite worker_spec. destruct (fits size r); simpl; [|reflexivity].
  rewrite IH. destruct (forallb (fits size) ranks); simpl; [|reflexivity].
  rewrite !map_app. reflexivity.
Qed.

(** The Spring List is the concatenation, in rank order, of what the
    workers save, provided the springs of every worker fit into its
    buffers; otherwise a worker raises and there is no list. *)
Lemma spring_list_spec (size : nat) :
  spring_list phid amass lat tau eps junk_atoms junk_cell junk_const size
  = if forallb (fits size) (range size) then
      Some (flat_map (worker_springs phid amass lat tau eps size)
                     (range size))
    else None.
Proof.
  unfold spring_list. rewrite allgather_spec.
  destruct (forallb (fits size) (range size)); [|reflexivity].
  cbv zeta. cbn [obind]. rewrite zip3_maps. reflexivity.
Qed.

End WorkerProofs.

(** ** The selection of the shortest bonds *)

Lemma fold_Rmin_le (l : list R) (x : R) :
  fold_left Rmin l x <= x /\ forall y, In y l -> fold_left Rmin l x <= y.
Proof.
  revert x; induction l as [|a l IH]; intros x; simpl.
  - split; [lra|contradiction].
  - destruct (IH (Rmin x a)) as [H1 H2]. split.
    + pose proof (Rmin_l x a). lra.
    + intros y [->|Hy]; [|auto]. pose proof (Rmin_r x y). lra.
Qed.

Lemma fold_Rmin_in (l : list R) (x : R) :
  fold_left Rmin l x = x \/ In (fold_left Rmin l x) l.
Proof.
  revert x; induction l as [|a l IH]; intros x; simpl; [left; reflexivity|].
  destruct (IH (Rmin x a)) as [H|H].
  - rewrite H. unfold Rmin. destruct (Rle_dec x a); auto.
  - right. right. assumption.
Qed.

(** Python's [min] returns an item of the list below all the others. *)
Lemma list_min_spec (l : list R) (m : R) :
  list_min l = Some m -> In m l /\ forall y, In y l -> m <= y.
Proof.
  destruct l as [|x l]; simpl; [discriminate|].
  intros H; injection H as <-. split.
  - destruct (fold_Rmin_in l x) as [H|H]; [left; symmetry|right]; assumption.
  - intros y [<-|Hy].
    + apply (proj1 (fold_Rmin_le l x)).
    + apply (proj2 (fold_Rmin_le l x)). assumption.
Qed.

Lemma Rltb_true (x y : R) : Rltb x y = true <-> x < y.
Proof. unfold Rltb. destruct (Rlt_dec x y); split; auto; discriminate. Qed.

Lemma Rltb_false (x y : R) : Rltb x y = false <-> ~ x < y.
Proof.
  unfold Rltb. destruct (Rlt_dec x y); split; auto; try discriminate.
  contradiction.
Qed.

Lemma length_copies (nr1 nr2 nr3 m1 m2 m3 : nat) :
  length (copies nr1 nr2 nr3 m1 m2 m3) = 27%nat.
Proof. reflexivity. Qed.

Section SelectionProofs.

Variable phid : force_constants.
Variable amass : nat -> R.
Variable lat : mat3.
Variable tau : nat -> vec3.
Variable eps : R.

Local Abbreviation bond_length := (bond_length lat tau).

Lemma bond_lengths_map (na1 na2 : nat) (cs : list cell) :
  bond_lengths lat tau na1 na2 cs = map (bond_length na1 na2) cs.
Proof. unfold bond_lengths. rewrite !map_map. reflexivity. Qed.

Lemma select_filter (na1 na2 : nat) (cs : list cell) (len : R) :
  select eps cs (map (bond_length na1 na2) cs) len
  = filter (fun c => Rltb (Rabs (bond_length na1 na2 c - len)) eps) cs.
Proof.
  unfold select. induction cs as [|c cs IH]; simpl; [reflexivity|].
  destruct (Rltb (Rabs (bond_length na1 na2 c - len)) eps); simpl;
    rewrite IH; reflexivity.
Qed.

Local Abbreviation shortest := (shortest phid lat tau).

Lemma shortest_spec (na1 na2 m1 m2 m3 : nat) :
  let cs := copies (fc_nr1 phid) (fc_nr2 phid) (fc_nr3 phid) m1 m2 m3 in
  (exists c, In c cs /\ bond_length na1 na2 c = shortest na1 na2 m1 m2 m3)
  /\ (forall c, In c cs -> shortest na1 na2 m1 m2 m3 <= bond_length na1 na2 c).
Proof.
  intros cs. unfold shortest. fold cs.
  destruct (list_min (map (bond_length na1 na2) cs)) as [len|] eqn:E.
  - destruct (list_min_spec _ _ E) as [Hin Hle]. split.
    + apply in_map_iff in Hin. destruct Hin as [c [Hc Hin]].
      exists c. split; assumption.
    + intros c Hc. apply Hle. apply in_map. assumption.
  - exfalso. subst cs. simpl in E. discriminate.
Qed.

Lemma selected_filter (na1 na2 m1 m2 m3 : nat) :
  selected phid lat tau eps na1 na2 m1 m2 m3
  = filter (fun c => Rltb (Rabs (bond_length na1 na2 c
                                 - shortest na1 na2 m1 m2 m3)) eps)
           (copies (fc_nr1 phid) (fc_nr2 phid) (fc_nr3 phid) m1 m2 m3).
Proof.
  unfold selected, shortest. rewrite bond_lengths_map.
  set (cs := copies _ _ _ m1 m2 m3).
  destruct (list_min (map (bond_length na1 na2) cs)) as [len|] eqn:E.
  - apply select_filter.
  - subst cs. simpl in E. discriminate.
Qed.

Lemma selected_length_le (na1 na2 m1 m2 m3 : nat) :
  (length (selected phid lat tau eps na1 na2 m1 m2 m3) <= 27)%nat.
Proof.
  rewrite selected_filter.
  eapply Nat.le_trans; [apply filter_length_le|].
  rewrite length_copies. constructor.
Qed.

Lemma selected_nonempty (na1 na2 m1 m2 m3 : nat) :
  0 < eps ->
  (1 <= length (selected phid lat tau eps na1 na2 m1 m2 m3))%nat.
Proof.
  intros He. rewrite selected_filter.
  destruct (shortest_spec na1 na2 m1 m2 m3) as [[c [Hc E]] _].
  set (f := fun c => Rltb (Rabs (bond_length na1 na2 c
                                 - shortest na1 na2 m1 m2 m3)) eps).
  assert (Hin : In c (filter f (copies (fc_nr1 phid) (fc_nr2 phid)
                                       (fc_nr3 phid) m1 m2 m3))).
  { apply filter_In. split; [assumption|]. unfold f. apply Rltb_true.
    rewrite E. replace (_ - _) with 0 by lra. rewrite Rabs_R0. assumption. }
  destruct (filter f _); [contradiction|simpl; lia].
Qed.

End SelectionProofs.

(** ** How many springs a worker saves *)

Section Counting.

Local Open Scope nat_scope.

Lemma flat_map_length_le {A B : Type} (f : A -> list B) (l : list A) (k : nat) :
  (forall x, In x l -> length (f x) <= k) ->
  length (flat_map f l) <= length l * k.
Proof.
  induction l as [|x l IH]; intros H; simpl; [lia|].
  rewrite length_app.
  pose proof (H x (or_introl eq_refl)).
  pose proof (IH (fun y Hy => H y (or_intror Hy))). lia.
Qed.

Lemma flat_map_length_ge {A B : Type} (f : A -> list B) (l : list A) (k : nat) :
  (forall x, In x l -> k <= length (f x)) ->
  length l * k <= length (flat_map f l).
Proof.
  induction l as [|x l IH]; intros H; simpl; [lia|].
  rewrite length_app.
  pose proof (H x (or_introl eq_refl)).
  pose proof (IH (fun y Hy => H y (or_intror Hy))). lia.
Qed.

Lemma flat_map_length_in {A B : Type} (f : A -> list B) (l : list A) (x : A) :
  In x l -> length (f x) <= length (flat_map f l).
Proof.
  induction l as [|y l IH]; simpl; intros H; [contradiction|].
  rewrite length_app. destruct H as [->|H]; [lia|].
  specialize (IH H). lia.
Qed.

Variable phid : force_constants.
Variable amass : nat -> R.
Variable lat : mat3.
Variable tau : nat -> vec3.
Variable eps : R.

Lemma entry_springs_length (na1 na2 m1 m2 m3 : nat) :
  length (entry_springs phid amass lat tau eps na1 na2 m1 m2 m3)
  = length (selected phid lat tau eps na1 na2 m1 m2 m3).
Proof. unfold entry_springs. apply length_map. Qed.

Lemma cell_springs_length_le (c : nat * nat * nat) :
  length (cell_springs phid amass lat tau eps c)
  <= fc_nat phid * (fc_nat phid * 27).
Proof.
  destruct c as [[m1 m2] m3]. unfold cell_springs.
  rewrite <- (length_seq (fc_nat phid) 0) at 2 3. fold (range (fc_nat phid)).
  apply flat_map_length_le; intros na1 _.
  apply flat_map_length_le; intros na2 _.
  rewrite entry_springs_length. apply selected_length_le.
Qed.

Lemma cell_springs_length_ge (c : nat * nat * nat) :
  (0 < eps)%R ->
  fc_nat phid * (fc_nat phid * 1)
  <= length (cell_springs phid amass lat tau eps c).
Proof.
  intros He. destruct c as [[m1 m2] m3]. unfold cell_springs.
  rewrite <- (length_seq (fc_nat phid) 0) at 1 2. fold (range (fc_nat phid)).
  apply flat_map_length_ge; intros na1 _.
  apply flat_map_length_ge; intros na2 _.
  rewrite entry_springs_length. apply selected_nonempty. assumption.
Qed.

Lemma owned_cells_length_le (size rank : nat) :
  length (owned_cells phid size rank)
  <= fc_nr1 phid * fc_nr2 phid * fc_nr3 phid.
Proof.
  rewrite owned_cells_filter, <- length_all_cells. apply filter_length_le.
Qed.

(** A single worker never runs out of buffer. *)
Lemma fits_alone : fits phid amass lat tau eps 1 0 = true.
Proof.
  unfold fits. apply Nat.leb_le. unfold worker_springs, maxdim.
  rewrite Nat.div_1_r.
  eapply Nat.le_trans;
    [apply flat_map_length_le; intros c _; apply cell_springs_length_le|].
  pose proof (owned_cells_length_le 1 0).
  change (length supercells ^ 3) with 27. rewrite Nat.pow_2_r. nia.
Qed.

Lemma first_cell_owned (size : nat) :
  1 <= fc_nr1 phid -> 1 <= fc_nr2 phid -> 1 <= fc_nr3 phid -> 2 <= size ->
  In (0, 0, 0) (owned_cells phid size 1).
Proof.
  intros H1 H2 H3 Hs. rewrite owned_cells_filter. apply filter_In. split.
  - unfold all_cells, range. apply in_flat_map. exists 0. split.
    + apply in_seq. lia.
    + apply in_flat_map. exists 0. split; [apply in_seq; lia|].
      apply in_map_iff. exists 0. split; [reflexivity|apply in_seq; lia].
  - unfold counter. simpl. rewrite Nat.mod_small by lia. reflexivity.
Qed.

(** With more than 27 workers per cell, worker 1 saves more springs than
    its buffers take. *)
Lemma worker_one_overflows (size : nat) :
  (0 < eps)%R -> 1 <= fc_nat phid ->
  1 <= fc_nr1 phid -> 1 <= fc_nr2 phid -> 1 <= fc_nr3 phid ->
  27 * (fc_nr1 phid * fc_nr2 phid * fc_nr3 phid) < size ->
  maxdim phid size < length (worker_springs phid amass lat tau eps size 1).
Proof.
  intros He Hn H1 H2 H3 Hs.
  assert (H2s : 2 <= size) by nia.
  assert (Hown := first_cell_owned size H1 H2 H3 H2s).
  pose proof (flat_map_length_in (cell_springs phid amass lat tau eps) _ _
                                 Hown) as Hge.
  pose proof (cell_springs_length_ge (0, 0, 0)%nat He) as Hc.
  fold (worker_springs phid amass lat tau eps size 1) in Hge.
  assert (Hm : maxdim phid size < fc_nat phid * (fc_nat phid * 1)).
  { unfold maxdim. apply Nat.Div0.div_lt_upper_bound.
    change (length supercells ^ 3) with 27. rewrite Nat.pow_2_r. nia. }
  lia.
Qed.

End Counting.

(** C9.  The local buffers of a worker have [maxdim] places, the floor of the
    number of all candidate springs over the number of workers, while a
    worker that owns a cell saves at least [nat ^ 2] springs: with more than
    27 workers per cell, worker 1 owns the first cell, its first stores run
    past the end of the buffers, and the run has no Spring List. *)
Theorem C9_buffer_overflow (phid : force_constants) (amass : nat -> R)
  (lat : mat3) (tau : nat -> vec3) (eps : R)
  (junk_atoms : Z * Z) (junk_cell : cell) (junk_const : mat3) (W : nat) :
  0 < eps -> (1 <= fc_nat phid)%nat ->
  (1 <= fc_nr1 phid)%nat -> (1 <= fc_nr2 phid)%nat -> (1 <= fc_nr3 phid)%nat ->
  (27 * (fc_nr1 phid * fc_nr2 phid * fc_nr3 phid) < W)%nat ->
  (maxdim phid W < length (worker_springs phid amass lat tau eps W 1))%nat
  /\ worker phid amass lat tau eps junk_atoms junk_cell junk_const W 1 = None
  /\ spring_list phid amass lat tau eps junk_atoms junk_cell junk_const W
     = None.
Proof.
  intros He Hn H1 H2 H3 Hs.
  pose proof (@worker_one_overflows phid amass lat tau eps W
                                    He Hn H1 H2 H3 Hs) as Hov.
  assert (Hfits : fits phid amass lat tau eps W 1 = false).
  { unfold fits. apply Nat.leb_gt. exact Hov. }
  split; [exact Hov|]. split.
  - rewrite worker_spec, Hfits. reflexivity.
  - rewrite spring_list_spec.
    destruct (forallb (fits phid amass lat tau eps W) (range W)) eqn:E;
      [|reflexivity].
    rewrite forallb_forall in E.
    rewrite (E 1%nat) in Hfits; [discriminate|]. apply in_seq. nia.
Qed.

(** ** A cubic toy lattice *)

Lemma bond_length_cubic (na1 na2 : nat) (c : cell) :
  bond_length unit_lattice at_origin na1 na2 c = sqrt (IZR (norm2 c)).
Proof.
  destruct c as [[c1 c2] c3]. unfold bond_length, vnorm, at_origin. simpl.
  f_equal. rewrite !plus_IZR, !mult_IZR. ring.
Qed.

Lemma sqrt_IZR_ge_1 (x : Z) : (1 <= x)%Z -> 1 <= sqrt (IZR x).
Proof.
  intros H. rewrite <- sqrt_1 at 1. apply sqrt_le_1_alt.
  apply IZR_le in H. exact H.
Qed.

Lemma sqrt_IZR_ge_14 (x : Z) : (2 <= x)%Z -> 1.4 <= sqrt (IZR x).
Proof.
  intros H. rewrite <- (sqrt_of_square 1.4) by lra. apply sqrt_le_1_alt.
  apply IZR_le in H. lra.
Qed.

Lemma sqrt_IZR_nonpos (x : Z) : (x <= 0)%Z -> sqrt (IZR x) = 0.
Proof.
  intros H. apply IZR_le in H.
  destruct (Req_dec (IZR x) 0) as [E|E]; [rewrite E; apply sqrt_0|].
  apply sqrt_neg_0. lra.
Qed.

(** Within [1e-7] of length 1: the squared length is 1. *)
Lemma near_one (x : Z) :
  Rltb (Rabs (sqrt (IZR x) - 1)) 1e-7 = (x =? 1)%Z.
Proof.
  destruct (Z.eqb_spec x 1) as [->|Hne].
  - apply Rltb_true. rewrite sqrt_1. replace (1 - 1) with 0 by lra.
    rewrite Rabs_R0. lra.
  - apply Rltb_false. intros H.
    destruct (Z_le_gt_dec x 0) as [Hle|Hgt].
    + rewrite sqrt_IZR_nonpos in H by assumption.
      replace (0 - 1) with (-1) in H by lra.
      rewrite Rabs_left in H by lra. lra.
    + pose proof (sqrt_IZR_ge_14 x ltac:(lia)).
      rewrite Rabs_pos_eq in H by lra. lra.
Qed.

(** Within [1e-7] of length 0: the squared length is not positive. *)
Lemma near_zero (x : Z) :
  Rltb (Rabs (sqrt (IZR x) - 0)) 1e-7 = (x <=? 0)%Z.
Proof.
  destruct (Z.leb_spec x 0) as [Hle|Hgt].
  - apply Rltb_true. rewrite sqrt_IZR_nonpos by assumption.
    replace (0 - 0) with 0 by lra. rewrite Rabs_R0. lra.
  - apply Rltb_false. intros H.
    pose proof (sqrt_IZR_ge_1 x ltac:(lia)).
    rewrite Rabs_pos_eq in H by lra. lra.
Qed.

Lemma shortest_unique (phid : force_constants) (lat : mat3)
  (tau : nat -> vec3) (na1 na2 m1 m2 m3 : nat) (len : R) :
  let cs := copies (fc_nr1 phid) (fc_nr2 phid) (fc_nr3 phid) m1 m2 m3 in
  (exists c, In c cs /\ bond_length lat tau na1 na2 c = len) ->
  (forall c, In c cs -> len <= bond_length lat tau na1 na2 c) ->
  shortest phid lat tau na1 na2 m1 m2 m3 = len.
Proof.
  intros cs [c [Hc E]] Hle.
  destruct (shortest_spec phid lat tau na1 na2 m1 m2 m3) as [[c' [Hc' E']] Hle'].
  fold cs in Hc', Hle'.
  pose proof (Hle c' Hc'). pose proof (Hle' c Hc). lra.
Qed.

Lemma filter_ext_in' {A : Type} (f g : A -> bool) (l : list A) :
  (forall x, In x l -> f x = g x) -> filter f l = filter g l.
Proof.
  induction l as [|x l IH]; intros H; simpl; [reflexivity|].
  rewrite (H x) by (left; reflexivity).
  rewrite IH by (intros; apply H; right; assumption). reflexivity.
Qed.

(** In the cubic toy lattice the selection is decided on integers. *)
Lemma selected_cubic (phid : force_constants) (na1 na2 m1 m2 m3 : nat)
  (least : Z) :
  let cs := copies (fc_nr1 phid) (fc_nr2 phid) (fc_nr3 phid) m1 m2 m3 in
  (least = 0 \/ least = 1)%Z ->
  existsb (fun c => (norm2 c =? least)%Z) cs = true ->
  forallb (fun c => (least <=? norm2 c)%Z) cs = true ->
  selected phid unit_lattice at_origin 1e-7 na1 na2 m1 m2 m3
  = filter (fun c => (norm2 c =? least)%Z) cs.
Proof.
  intros cs Hl Hex Hall.
  apply existsb_exists in Hex. destruct Hex as [c0 [Hc0 E0]].
  apply Z.eqb_eq in E0. rewrite forallb_forall in Hall.
  assert (Hs : shortest phid unit_lattice at_origin na1 na2 m1 m2 m3
               = IZR least).
  { apply shortest_unique.
    - exists c0. split; [assumption|]. rewrite bond_length_cubic, E0.
      destruct Hl as [-> | ->]; [apply sqrt_0|apply sqrt_1].
    - intros c Hc. rewrite bond_length_cubic.
      specialize (Hall c Hc). apply Z.leb_le in Hall.
      destruct Hl as [-> | ->]; [apply sqrt_pos|].
      apply sqrt_IZR_ge_1. assumption. }
  rewrite selected_filter, Hs. apply filter_ext_in'. intros c Hc.
  rewrite bond_length_cubic. specialize (Hall c Hc). apply Z.leb_le in Hall.
  destruct Hl as [-> | ->].
  - rewrite near_zero. destruct (Z.leb_spec (norm2 c) 0);
      destruct (Z.eqb_spec (norm2 c) 0); try reflexivity; lia.
  - apply near_one.
Qed.

(** The run that fails: one atom, one cell, 28 workers. *)
Lemma C9_buffer_overflow_witness :
  worker (single_cell mzero) (fun _ => 1) unit_lattice at_origin 1e-7
         (0, 0)%Z (0, 0, 0)%Z mzero 28 1 = None.
Proof.
  apply (@C9_buffer_overflow (single_cell mzero) (fun _ => 1) unit_lattice
           at_origin 1e-7 (0, 0)%Z (0, 0, 0)%Z mzero 28%nat);
    simpl; try lia; lra.
Defined.

(** ** The Spring List as a whole *)

Lemma flat_map_flat_map {A B C : Type} (f : B -> list C) (g : A -> list B)
  (l : list A) :
  flat_map f (flat_map g l) = flat_map (fun x => flat_map f (g x)) l.
Proof.
  induction l as [|x l IH]; simpl; [reflexivity|].
  rewrite flat_map_app, IH. reflexivity.
Qed.

(** A run that ends without an exception yields the springs of all cells,
    in some order. *)
Lemma spring_list_all_cells (phid : force_constants) (amass : nat -> R)
  (lat : mat3) (tau : nat -> vec3) (eps : R)
  (junk_atoms : Z * Z) (junk_cell : cell) (junk_const : mat3)
  (W : nat) (springs : list spring) :
  (1 <= W)%nat ->
  spring_list phid amass lat tau eps junk_atoms junk_cell junk_const W
    = Some springs ->
  Permutation springs
    (flat_map (cell_springs phid amass lat tau eps) (all_cells phid)).
Proof.
  intros HW H. rewrite spring_list_spec in H.
  destruct (forallb _ _) in H; [|discriminate]. injection H as <-.
  unfold worker_springs. rewrite <- flat_map_flat_map.
  apply Permutation_flat_map. apply owned_cells_partition. assumption.
Qed.

(** A single worker always reaches the end, with the springs in the order
    of the loops. *)
Lemma spring_list_alone (phid : force_constants) (amass : nat -> R)
  (lat : mat3) (tau : nat -> vec3) (eps : R)
  (junk_atoms : Z * Z) (junk_cell : cell) (junk_const : mat3) :
  spring_list phid amass lat tau eps junk_atoms junk_cell junk_const 1
  = Some (flat_map (cell_springs phid amass lat tau eps) (all_cells phid)).
Proof.
  rewrite spring_list_spec. simpl forallb. rewrite fits_alone. simpl.
  rewrite app_nil_r. unfold worker_springs.
  rewrite owned_cells_filter.
  rewrite (filter_ext_in' _ (fun _ => true)).
  - f_equal. f_equal. induction (all_cells phid) as [|c l IH]; simpl;
      [|rewrite IH]; reflexivity.
  - intros c _. rewrite Nat.mod_1_r. reflexivity.
Qed.

Lemma mmap_ext (f g : R -> R) (K : mat3) :
  (forall x, f x = g x) -> mmap f K = mmap g K.
Proof.
  intros H. destruct K as [[[[a b] c] [[d e] f']] [[g' h] i]].
  simpl. rewrite !H. reflexivity.
Qed.

Lemma mmap_mmap (f g : R -> R) (K : mat3) :
  mmap f (mmap g K) = mmap (fun x => f (g x)) K.
Proof. destruct K as [[[[a b] c] [[d e] f']] [[g' h] i]]. reflexivity. Qed.

(** The chain: selection for its two cells. *)
Lemma chain_selected_0 (K0 K1 : mat3) :
  selected (chain K0 K1) unit_lattice at_origin 1e-7 0 0 0 0 0
  = [(0, 0, 0)%Z].
Proof.
  rewrite (selected_cubic (chain K0 K1) 0 0 0 0 0 0%Z);
    [reflexivity|left; reflexivity|reflexivity|reflexivity].
Qed.

Lemma chain_selected_1 (K0 K1 : mat3) :
  selected (chain K0 K1) unit_lattice at_origin 1e-7 0 0 1 0 0
  = [(-1, 0, 0)%Z; (1, 0, 0)%Z].
Proof.
  rewrite (selected_cubic (chain K0 K1) 0 0 1 0 0 1%Z);
    [reflexivity|right; reflexivity|reflexivity|reflexivity].
Qed.

Lemma chain_springs (K0 K1 : mat3) (m : R) :
  0 < m ->
  flat_map (cell_springs (chain K0 K1) (fun _ => m) unit_lattice at_origin
                         1e-7)
           (all_cells (chain K0 K1))
  = [ {| sp_atoms := (0, 0)%Z; sp_cell := (0, 0, 0)%Z;
         sp_const := mdiv K0 m |};
      {| sp_atoms := (0, 0)%Z; sp_cell := (-1, 0, 0)%Z;
         sp_const := mscale (/ 2) (mdiv K1 m) |};
      {| sp_atoms := (0, 0)%Z; sp_cell := (1, 0, 0)%Z;
         sp_const := mscale (/ 2) (mdiv K1 m) |} ].
Proof.
  intros Hm.
  assert (Hs : sqrt (m * m) = m) by (apply sqrt_square; lra).
  change (all_cells (chain K0 K1)) with [(0, 0, 0)%nat; (1, 0, 0)%nat].
  cbn [flat_map cell_springs chain fc_nat range seq app].
  unfold entry_springs, coupling.
  rewrite chain_selected_0, chain_selected_1.
  cbn [map length app fc_phid chain]. rewrite Hs.
  assert (E0 : mdiv K0 (INR 1 * m) = mdiv K0 m).
  { unfold mdiv. apply mmap_ext. intros x. simpl. f_equal. lra. }
  assert (E1 : mdiv K1 (INR 2 * m) = mscale (/ 2) (mdiv K1 m)).
  { unfold mdiv, mscale. rewrite mmap_mmap. apply mmap_ext. intros x.
    simpl. field. lra. }
  rewrite E0, E1. reflexivity.
Qed.

(** C1.  For positive masses, in a run that ends without an exception the
    Spring List holds, for
    every entry [(na1, na2, m1, m2, m3)] of the tensor, the springs of that
    entry and nothing else.  The springs of an entry are one per selected
    copy of the cell; the selected copies are those of the 27 copies whose
    bond length is less than [eps] away from the least of the 27 bond
    lengths; every spring of the entry carries the block of the entry divided
    by the number of selected copies times [sqrt (mass_A * mass_B)].  In the
    chain of one atom and two cells, the bond to the second cell is as long
    forwards as backwards: the entry gives exactly two springs, each with
    half of the mass-normalised block. *)
Theorem C1_minimum_image_springs :
  (forall (phid : force_constants) (amass : nat -> R) (lat : mat3)
          (tau : nat -> vec3) (eps : R) (junk_atoms : Z * Z)
          (junk_cell : cell) (junk_const : mat3) (W : nat)
          (springs : list spring),
     (1 <= W)%nat ->
     (forall na, (na < fc_nat phid)%nat -> 0 < amass na) ->
     spring_list phid amass lat tau eps junk_atoms junk_cell junk_const W
       = Some springs ->
     Permutation springs
       (flat_map (fun c : nat * nat * nat =>
          let '(m1, m2, m3) := c in
          flat_map (fun na1 =>
            flat_map (fun na2 =>
              entry_springs phid amass lat tau eps na1 na2 m1 m2 m3)
              (range (fc_nat phid))) (range (fc_nat phid)))
          (all_cells phid))
     /\ forall na1 na2 m1 m2 m3 : nat,
          let cs := copies (fc_nr1 phid) (fc_nr2 phid) (fc_nr3 phid)
                           m1 m2 m3 in
          let least := shortest phid lat tau na1 na2 m1 m2 m3 in
          let sel := selected phid lat tau eps na1 na2 m1 m2 m3 in
          length cs = 27%nat
          /\ (exists c, In c cs /\ bond_length lat tau na1 na2 c = least)
          /\ (forall c, In c cs -> least <= bond_length lat tau na1 na2 c)
          /\ sel = filter (fun c => Rltb (Rabs (bond_length lat tau na1 na2 c
                                               - least)) eps) cs
          /\ (forall c, In c sel <->
                In c cs /\ Rabs (bond_length lat tau na1 na2 c - least) < eps)
          /\ entry_springs phid amass lat tau eps na1 na2 m1 m2 m3
             = map (fun R =>
                      {| sp_atoms := (int8 (Z.of_nat na1), int8 (Z.of_nat na2));
                         sp_cell := int8_cell R;
                         sp_const :=
                           mdiv (fc_phid phid na1 na2 m1 m2 m3)
                                (INR (length sel)
                                 * sqrt (amass na1 * amass na2)) |}) sel)
  /\ (forall (K0 K1 : mat3) (m : R) (junk_atoms : Z * Z) (junk_cell : cell)
             (junk_const : mat3),
        0 < m ->
        entry_springs (chain K0 K1) (fun _ => m) unit_lattice at_origin 1e-7
                      0 0 1 0 0
        = [ {| sp_atoms := (0, 0)%Z; sp_cell := (-1, 0, 0)%Z;
               sp_const := mscale (/ 2) (mdiv K1 m) |};
            {| sp_atoms := (0, 0)%Z; sp_cell := (1, 0, 0)%Z;
               sp_const := mscale (/ 2) (mdiv K1 m) |} ]
        /\ spring_list (chain K0 K1) (fun _ => m) unit_lattice at_origin 1e-7
                       junk_atoms junk_cell junk_const 1
           = Some [ {| sp_atoms := (0, 0)%Z; sp_cell := (0, 0, 0)%Z;
                       sp_const := mdiv K0 m |};
                    {| sp_atoms := (0, 0)%Z; sp_cell := (-1, 0, 0)%Z;
                       sp_const := mscale (/ 2) (mdiv K1 m) |};
                    {| sp_atoms := (0, 0)%Z; sp_cell := (1, 0, 0)%Z;
                       sp_const := mscale (/ 2) (mdiv K1 m) |} ]).
Proof.
  split.
  - intros phid amass lat tau eps ja jc jk W springs HW _ Hrun. split.
    + pose proof (spring_list_all_cells phid amass lat tau eps ja jc jk W
                    springs HW Hrun) as HP.
      eapply Permutation_trans; [exact HP|].
      erewrite flat_map_ext_in; [apply Permutation_refl|].
      intros [[m1 m2] m3] _. reflexivity.
    + intros na1 na2 m1 m2 m3 cs least sel.
      destruct (shortest_spec phid lat tau na1 na2 m1 m2 m3) as [Hat Hle].
      assert (Hsel := selected_filter phid lat tau eps na1 na2 m1 m2 m3).
      fold cs least sel in Hat, Hle, Hsel.
      split; [reflexivity|]. split; [exact Hat|]. split; [exact Hle|].
      split; [exact Hsel|]. split; [|reflexivity].
      intros c. rewrite Hsel, filter_In, Rltb_true. reflexivity.
  - intros K0 K1 m ja jc jk Hm.
    pose proof (chain_springs K0 K1 m Hm) as Hall. split.
    + change (all_cells (chain K0 K1)) with [(0, 0, 0)%nat; (1, 0, 0)%nat]
        in Hall.
      cbn [flat_map cell_springs chain fc_nat range seq] in Hall.
      rewrite !app_nil_r in Hall.
      assert (H0 : length (entry_springs (chain K0 K1) (fun _ => m)
                             unit_lattice at_origin 1e-7 0 0 0 0 0) = 1%nat).
      { rewrite entry_springs_length, chain_selected_0. reflexivity. }
      destruct (entry_springs (chain K0 K1) (fun _ => m) unit_lattice
                  at_origin 1e-7 0 0 0 0 0) as [|s0 [|s0' l0]];
        try discriminate H0.
      simpl in Hall. injection Hall as _ Hall. exact Hall.
    + rewrite spring_list_alone, Hall. reflexivity.
Qed.

(** The general part at the chain with unit blocks and unit mass. *)
Lemma C1_minimum_image_springs_witness :
  Permutation
    [ {| sp_atoms := (0, 0)%Z; sp_cell := (0, 0, 0)%Z;
         sp_const := mdiv mzero 1 |};
      {| sp_atoms := (0, 0)%Z; sp_cell := (-1, 0, 0)%Z;
         sp_const := mscale (/ 2) (mdiv unit_lattice 1) |};
      {| sp_atoms := (0, 0)%Z; sp_cell := (1, 0, 0)%Z;
         sp_const := mscale (/ 2) (mdiv unit_lattice 1) |} ]
    (flat_map (fun c : nat * nat * nat =>
       let '(m1, m2, m3) := c in
       flat_map (fun na1 =>
         flat_map (fun na2 =>
           entry_springs (chain mzero unit_lattice) (fun _ => 1) unit_lattice
                         at_origin 1e-7 na1 na2 m1 m2 m3)
           (range 1)) (range 1))
       (all_cells (chain mzero unit_lattice))).
Proof.
  destruct C1_minimum_image_springs as [Hgen Hchain].
  destruct (Hchain mzero unit_lattice 1 (0, 0)%Z (0, 0, 0)%Z mzero
              ltac:(lra)) as [_ Hrun].
  exact (proj1 (Hgen (chain mzero unit_lattice) (fun _ => 1) unit_lattice
                     at_origin 1e-7 (0, 0)%Z (0, 0, 0)%Z mzero 1%nat _
                     (le_n 1) (fun _ _ => Rlt_0_1) Hrun)).
Defined.

(** ** Summing the springs back over the grid *)

Ltac mat_destruct :=
  repeat match goal with
         | K : mat3 |- _ => destruct K as [[[[? ?] ?] [[? ?] ?]] [[? ?] ?]]
         end.

Ltac pair_eq :=
  repeat match goal with
         | |- (_, _) = (_, _) => apply f_equal2
         end.

Lemma madd_comm (K L : mat3) : madd K L = madd L K.
Proof. mat_destruct. simpl. pair_eq; ring. Qed.

Lemma madd_assoc (K L M : mat3) : madd K (madd L M) = madd (madd K L) M.
Proof. mat_destruct. simpl. pair_eq; ring. Qed.

Lemma madd_zero_r (K : mat3) : madd K mzero = K.
Proof. mat_destruct. simpl. pair_eq; ring. Qed.

Lemma madd_zero_l (K : mat3) : madd mzero K = K.
Proof. mat_destruct. simpl. pair_eq; ring. Qed.

Lemma msum_app (l1 l2 : list mat3) :
  msum (l1 ++ l2) = madd (msum l1) (msum l2).
Proof.
  induction l1 as [|K l1 IH]; unfold msum in *; cbn [app fold_right].
  - rewrite madd_zero_l. reflexivity.
  - rewrite IH, madd_assoc. reflexivity.
Qed.

Lemma msum_perm (l1 l2 : list mat3) :
  Permutation l1 l2 -> msum l1 = msum l2.
Proof.
  induction 1 as [|K l1 l2 _ IH|K L l|l1 l2 l3 _ IH1 _ IH2];
    unfold msum in *; cbn [fold_right].
  - reflexivity.
  - rewrite IH. reflexivity.
  - rewrite !madd_assoc, (madd_comm L K). reflexivity.
  - congruence.
Qed.

(** [n] equal terms. *)
Lemma msum_equal_terms {A : Type} (l : list A) (K : mat3) :
  msum (map (fun _ => K) l) = mscale (INR (length l)) K.
Proof.
  induction l as [|x l IH].
  - unfold msum, mscale, mzero. mat_destruct. simpl. pair_eq; ring.
  - cbn [map length]. unfold msum in *. cbn [fold_right]. rewrite IH.
    rewrite S_INR. generalize (INR (length l)); intros k.
    mat_destruct. unfold mscale. simpl. pair_eq; ring.
Qed.

Lemma filter_flat_map {A B : Type} (p : B -> bool) (f : A -> list B)
  (l : list A) :
  filter p (flat_map f l) = flat_map (fun x => filter p (f x)) l.
Proof.
  induction l as [|x l IH]; simpl; [reflexivity|].
  rewrite filter_app, IH. reflexivity.
Qed.

Lemma Permutation_filter' {A : Type} (p : A -> bool) (l1 l2 : list A) :
  Permutation l1 l2 -> Permutation (filter p l1) (filter p l2).
Proof.
  induction 1 as [|x l1 l2 _ IH|x y l|l1 l2 l3 _ IH1 _ IH2]; simpl.
  - constructor.
  - destruct (p x); [constructor|]; assumption.
  - destruct (p x), (p y); try apply Permutation_refl. constructor.
  - eapply Permutation_trans; eassumption.
Qed.

Lemma flat_map_all_nil {A B : Type} (f : A -> list B) (l : list A) :
  (forall x, In x l -> f x = []) -> flat_map f l = [].
Proof.
  induction l as [|x l IH]; intros H; simpl; [reflexivity|].
  rewrite (H x (or_introl eq_refl)), IH; [reflexivity|].
  intros y Hy. apply H. right. assumption.
Qed.

(** Of the pieces of a concatenation only one is not empty. *)
Lemma flat_map_pick {A B : Type} (f : A -> list B) (l : list A) (x0 : A) :
  NoDup l -> In x0 l -> (forall x, In x l -> x <> x0 -> f x = []) ->
  flat_map f l = f x0.
Proof.
  induction l as [|x l IH]; intros Hnd Hin Hother; [contradiction|].
  inversion Hnd as [|? ? Hnotin Hnd']; subst. simpl.
  destruct Hin as [->|Hin].
  - rewrite (flat_map_all_nil f l); [apply app_nil_r|].
    intros y Hy. apply Hother; [right; assumption|].
    intros ->. contradiction.
  - rewrite (Hother x (or_introl eq_refl)) by (intros ->; contradiction).
    simpl. apply IH; try assumption.
    intros y Hy. apply Hother. right; assumption.
Qed.

Lemma int8_small (z : Z) : (-128 <= z <= 127)%Z -> int8 z = z.
Proof. intros H. unfold int8. rewrite Z.mod_small by lia. lia. Qed.

Lemma in_copies (nr1 nr2 nr3 m1 m2 m3 : nat) (c : cell) :
  In c (copies nr1 nr2 nr3 m1 m2 m3) ->
  exists M1 M2 M3 : Z,
    (-1 <= M1 <= 1 /\ -1 <= M2 <= 1 /\ -1 <= M3 <= 1)%Z
    /\ c = (Z.of_nat m1 + M1 * Z.of_nat nr1,
            Z.of_nat m2 + M2 * Z.of_nat nr2,
            Z.of_nat m3 + M3 * Z.of_nat nr3)%Z.
Proof.
  unfold copies, supercells. intros H.
  apply in_flat_map in H. destruct H as [M1 [H1 H]].
  apply in_flat_map in H. destruct H as [M2 [H2 H]].
  apply in_map_iff in H. destruct H as [M3 [E H3]].
  exists M1, M2, M3. split; [|symmetry; exact E].
  simpl in H1, H2, H3. lia.
Qed.

Lemma in_all_cells (phid : force_constants) (m1 m2 m3 : nat) :
  In (m1, m2, m3) (all_cells phid)
  <-> (m1 < fc_nr1 phid /\ m2 < fc_nr2 phid /\ m3 < fc_nr3 phid)%nat.
Proof.
  unfold all_cells, range. rewrite in_flat_map. split.
  - intros [a [Ha H]]. apply in_flat_map in H. destruct H as [b [Hb H]].
    apply in_map_iff in H. destruct H as [c [E Hc]].
    injection E as -> -> ->. apply in_seq in Ha, Hb, Hc. lia.
  - intros (H1 & H2 & H3). exists m1. split; [apply in_seq; lia|].
    apply in_flat_map. exists m2. split; [apply in_seq; lia|].
    apply in_map_iff. exists m3. split; [reflexivity|apply in_seq; lia].
Qed.

Lemma filter_constant {A : Type} (p : A -> bool) (l : list A) (b : bool) :
  (forall x, In x l -> p x = b) -> filter p l = if b then l else [].
Proof.
  induction l as [|x l IH]; intros H; simpl.
  - destruct b; reflexivity.
  - rewrite (H x (or_introl eq_refl)).
    rewrite IH by (intros y Hy; apply H; right; assumption).
    destruct b; reflexivity.
Qed.

Section RoundTrip.

Variable phid : force_constants.
Variable amass : nat -> R.
Variable lat : mat3.
Variable tau : nat -> vec3.
Variable eps : R.

(** The indices fit into the 8-bit buffers. *)
Hypothesis small_nat : (fc_nat phid <= 128)%nat.
Hypothesis small_nr1 : (fc_nr1 phid <= 64)%nat.
Hypothesis small_nr2 : (fc_nr2 phid <= 64)%nat.
Hypothesis small_nr3 : (fc_nr3 phid <= 64)%nat.

Lemma translation_mod (m nr : nat) (M : Z) :
  (m < nr)%nat -> (nr <= 64)%nat -> (-1 <= M <= 1)%Z ->
  (int8 (Z.of_nat m + M * Z.of_nat nr) mod Z.of_nat nr = Z.of_nat m)%Z.
Proof.
  intros Hm Hn HM. rewrite int8_small by nia.
  rewrite Z.mod_add by lia. apply Z.mod_small. lia.
Qed.

(** A spring tells the entry it was saved for. *)
Lemma belongs_entry (na1 na2 m1 m2 m3 na1' na2' m1' m2' m3' : nat)
  (s : spring) :
  (na1' < fc_nat phid)%nat -> (na2' < fc_nat phid)%nat ->
  (m1' < fc_nr1 phid)%nat -> (m2' < fc_nr2 phid)%nat ->
  (m3' < fc_nr3 phid)%nat ->
  In s (entry_springs phid amass lat tau eps na1' na2' m1' m2' m3') ->
  belongs phid na1 na2 m1 m2 m3 s
  = ((na1' =? na1) && (na2' =? na2) && (m1' =? m1) && (m2' =? m2)
     && (m3' =? m3))%nat.
Proof.
  intros Ha Hb H1 H2 H3 Hin. unfold entry_springs in Hin.
  apply in_map_iff in Hin. destruct Hin as [c [<- Hc]].
  rewrite selected_filter in Hc. apply filter_In in Hc.
  destruct Hc as [Hc _]. apply in_copies in Hc.
  destruct Hc as (M1 & M2 & M3 & (HM1 & HM2 & HM3) & ->).
  unfold belongs. cbn [sp_atoms sp_cell int8_cell].
  rewrite !int8_small by lia.
  rewrite !translation_mod by assumption.
  repeat match goal with
         | |- context [(Z.of_nat ?x =? Z.of_nat ?y)%Z] =>
             replace (Z.of_nat x =? Z.of_nat y)%Z with (x =? y)%nat
               by (destruct (Nat.eqb_spec x y);
                   destruct (Z.eqb_spec (Z.of_nat x) (Z.of_nat y));
                   try reflexivity; lia)
         end.
  reflexivity.
Qed.

Lemma filter_entry (na1 na2 m1 m2 m3 na1' na2' m1' m2' m3' : nat) :
  (na1' < fc_nat phid)%nat -> (na2' < fc_nat phid)%nat ->
  (m1' < fc_nr1 phid)%nat -> (m2' < fc_nr2 phid)%nat ->
  (m3' < fc_nr3 phid)%nat ->
  filter (belongs phid na1 na2 m1 m2 m3)
         (entry_springs phid amass lat tau eps na1' na2' m1' m2' m3')
  = if ((na1' =? na1) && (na2' =? na2) && (m1' =? m1) && (m2' =? m2)
        && (m3' =? m3))%nat
    then entry_springs phid amass lat tau eps na1' na2' m1' m2' m3'
    else [].
Proof.
  intros Ha Hb H1 H2 H3. apply filter_constant. intros s Hs.
  apply (belongs_entry na1 na2 m1 m2 m3 na1' na2' m1' m2' m3' s); assumption.
Qed.

(** Among the springs of all cells, those of one entry. *)
Lemma filter_all_cells (na1 na2 m1 m2 m3 : nat) :
  (na1 < fc_nat phid)%nat -> (na2 < fc_nat phid)%nat ->
  (m1 < fc_nr1 phid)%nat -> (m2 < fc_nr2 phid)%nat ->
  (m3 < fc_nr3 phid)%nat ->
  filter (belongs phid na1 na2 m1 m2 m3)
         (flat_map (cell_springs phid amass lat tau eps) (all_cells phid))
  = entry_springs phid amass lat tau eps na1 na2 m1 m2 m3.
Proof.
  intros Ha Hb H1 H2 H3.
  assert (Hcell : forall m1' m2' m3',
            In (m1', m2', m3') (all_cells phid) ->
            filter (belongs phid na1 na2 m1 m2 m3)
                   (cell_springs phid amass lat tau eps (m1', m2', m3'))
            = if ((m1' =? m1) && (m2' =? m2) && (m3' =? m3))%nat
              then entry_springs phid amass lat tau eps na1 na2 m1' m2' m3'
              else []).
  { intros m1' m2' m3' Hin. apply in_all_cells in Hin.
    destruct Hin as (H1' & H2' & H3').
    unfold cell_springs. rewrite filter_flat_map.
    rewrite (flat_map_pick _ (range (fc_nat phid)) na1).
    - rewrite filter_flat_map.
      rewrite (flat_map_pick _ (range (fc_nat phid)) na2).
      + rewrite filter_entry by assumption. rewrite !Nat.eqb_refl. reflexivity.
      + apply seq_NoDup.
      + apply in_seq. lia.
      + intros x Hx Hne. apply in_seq in Hx.
        rewrite filter_entry by (try assumption; lia).
        destruct (Nat.eqb_spec x na2); [contradiction|].
        rewrite andb_false_r. reflexivity.
    - apply seq_NoDup.
    - apply in_seq. lia.
    - intros x Hx Hne. apply in_seq in Hx. rewrite filter_flat_map.
      apply flat_map_all_nil. intros y Hy. apply in_seq in Hy.
      rewrite filter_entry by (try assumption; lia).
      destruct (Nat.eqb_spec x na1); [contradiction|]. reflexivity. }
  rewrite filter_flat_map.
  rewrite (flat_map_pick _ (all_cells phid) (m1, m2, m3)).
  - rewrite Hcell by (apply in_all_cells; lia).
    rewrite !Nat.eqb_refl. reflexivity.
  - apply NoDup_all_cells.
  - apply in_all_cells. lia.
  - intros [[m1' m2'] m3'] Hin Hne. rewrite Hcell by assumption.
    destruct (Nat.eqb_spec m1' m1); [|reflexivity].
    destruct (Nat.eqb_spec m2' m2); [|reflexivity].
    destruct (Nat.eqb_spec m3' m3); [|reflexivity].
    subst. contradiction.
Qed.

End RoundTrip.

(** The springs of one entry, with the masses multiplied back, add up to
    the block of the entry. *)
Lemma entry_round_trip (phid : force_constants) (amass : nat -> R)
  (lat : mat3) (tau : nat -> vec3) (eps : R) (na1 na2 m1 m2 m3 : nat) :
  0 < eps -> 0 < amass na1 -> 0 < amass na2 ->
  msum (map (fun s => mscale (sqrt (amass na1 * amass na2)) (sp_const s))
            (entry_springs phid amass lat tau eps na1 na2 m1 m2 m3))
  = fc_phid phid na1 na2 m1 m2 m3.
Proof.
  intros He Ha Hb. unfold entry_springs. rewrite map_map.
  cbn [sp_const]. rewrite msum_equal_terms. unfold coupling.
  pose proof (selected_nonempty phid lat tau eps na1 na2 m1 m2 m3 He) as Hk.
  apply le_INR in Hk. rewrite INR_1 in Hk.
  generalize dependent (INR (length (selected phid lat tau eps
                                              na1 na2 m1 m2 m3))).
  intros k Hk.
  assert (Hs : 0 < sqrt (amass na1 * amass na2)).
  { apply sqrt_lt_R0. apply Rmult_lt_0_compat; assumption. }
  generalize dependent (sqrt (amass na1 * amass na2)). intros s Hs.
  generalize (fc_phid phid na1 na2 m1 m2 m3). intros K.
  mat_destruct. unfold mscale, mdiv. simpl. pair_eq; field; lra.
Qed.

(** C2.  For positive masses and a positive tolerance, in a run that ends
    without an exception: the Spring List consists of the springs saved for
    the entries of the tensor; multiplying each spring saved for an entry by
    [sqrt (mass_A * mass_B)] and adding them up gives back the block of the
    entry; and when the indices fit into the 8-bit buffers (at most 128 atoms
    and 64 cells along each axis), the springs of an entry are found in the
    list by their atoms and by their translation modulo the grid, so that
    summing the list back over the grid reproduces the tensor. *)
Theorem C2_construction_round_trip
  (phid : force_constants) (amass : nat -> R) (lat : mat3)
  (tau : nat -> vec3) (eps : R) (junk_atoms : Z * Z) (junk_cell : cell)
  (junk_const : mat3) (W : nat) (springs : list spring) :
  (1 <= W)%nat -> 0 < eps ->
  (forall na, (na < fc_nat phid)%nat -> 0 < amass na) ->
  spring_list phid amass lat tau eps junk_atoms junk_cell junk_const W
    = Some springs ->
  Permutation springs
    (flat_map (fun c : nat * nat * nat =>
       let '(m1, m2, m3) := c in
       flat_map (fun na1 =>
         flat_map (fun na2 =>
           entry_springs phid amass lat tau eps na1 na2 m1 m2 m3)
           (range (fc_nat phid))) (range (fc_nat phid)))
       (all_cells phid))
  /\ (forall na1 na2 m1 m2 m3 : nat,
        (na1 < fc_nat phid)%nat -> (na2 < fc_nat phid)%nat ->
        msum (map (fun s => mscale (sqrt (amass na1 * amass na2))
                                   (sp_const s))
                  (entry_springs phid amass lat tau eps na1 na2 m1 m2 m3))
        = fc_phid phid na1 na2 m1 m2 m3)
  /\ ((fc_nat phid <= 128)%nat -> (fc_nr1 phid <= 64)%nat ->
      (fc_nr2 phid <= 64)%nat -> (fc_nr3 phid <= 64)%nat ->
      forall na1 na2 m1 m2 m3 : nat,
        (na1 < fc_nat phid)%nat -> (na2 < fc_nat phid)%nat ->
        (m1 < fc_nr1 phid)%nat -> (m2 < fc_nr2 phid)%nat ->
        (m3 < fc_nr3 phid)%nat ->
        Permutation (filter (belongs phid na1 na2 m1 m2 m3) springs)
                    (entry_springs phid amass lat tau eps na1 na2 m1 m2 m3)
        /\ resum phid amass springs na1 na2 m1 m2 m3
           = fc_phid phid na1 na2 m1 m2 m3).
Proof.
  intros HW He Hm Hrun.
  pose proof (spring_list_all_cells phid amass lat tau eps junk_atoms
                junk_cell junk_const W springs HW Hrun) as HP.
  split; [|split].
  - eapply Permutation_trans; [exact HP|].
    erewrite flat_map_ext_in; [apply Permutation_refl|].
    intros [[m1 m2] m3] _. reflexivity.
  - intros na1 na2 m1 m2 m3 Ha Hb.
    apply entry_round_trip; auto.
  - intros Sn S1 S2 S3 na1 na2 m1 m2 m3 Ha Hb H1 H2 H3.
    assert (HF : Permutation
                   (filter (belongs phid na1 na2 m1 m2 m3) springs)
                   (entry_springs phid amass lat tau eps na1 na2 m1 m2 m3)).
    { rewrite <- (filter_all_cells phid amass lat tau eps Sn S1 S2 S3
                    na1 na2 m1 m2 m3 Ha Hb H1 H2 H3).
      apply Permutation_filter'. exact HP. }
    split; [exact HF|].
    unfold resum.
    rewrite (msum_perm _ _ (Permutation_map _ HF)).
    apply entry_round_trip; auto.
Qed.

(** The chain with unit mass: the two half springs of the boundary bond add
    up to the block they come from. *)
Lemma C2_construction_round_trip_witness :
  msum (map (fun s => mscale (sqrt (1 * 1)) (sp_const s))
            (entry_springs (chain mzero unit_lattice) (fun _ => 1)
                           unit_lattice at_origin 1e-7 0 0 1 0 0))
  = unit_lattice.
Proof.
  assert (H1 : (1 <= 1)%nat) by constructor.
  assert (He : 0 < 1e-7) by lra.
  assert (Hm : forall na, (na < fc_nat (chain mzero unit_lattice))%nat ->
                          0 < (fun _ : nat => 1) na) by (intros; lra).
  exact (proj1 (proj2
           (C2_construction_round_trip
              (chain mzero unit_lattice) (fun _ => 1) unit_lattice at_origin
              1e-7 (0, 0)%Z (0, 0, 0)%Z mzero 1%nat _ H1 He Hm
              (spring_list_alone (chain mzero unit_lattice) (fun _ => 1)
                 unit_lattice at_origin 1e-7 (0, 0)%Z (0, 0, 0)%Z mzero)))
           0%nat 0%nat 1%nat 0%nat 0%nat (le_n 1) (le_n 1)).
Defined.

(** ** The dynamical matrix *)

Ltac complex_eq :=
  unfold Cadd, Cmul, Cconj, RtoC, C0, Ci; simpl; pair_eq; try ring.

Lemma Cadd_comm (z w : complex) : Cadd z w = Cadd w z.
Proof. destruct z, w. complex_eq. Qed.

Lemma Cadd_assoc (z w v : complex) : Cadd z (Cadd w v) = Cadd (Cadd z w) v.
Proof. destruct z, w, v. complex_eq. Qed.

Lemma Cadd_0_r (z : complex) : Cadd z C0 = z.
Proof. destruct z. complex_eq. Qed.

Lemma Cadd_0_l (z : complex) : Cadd C0 z = z.
Proof. destruct z. complex_eq. Qed.

Lemma Cconj_add (z w : complex) : Cconj (Cadd z w) = Cadd (Cconj z) (Cconj w).
Proof. destruct z, w. complex_eq. Qed.

Lemma Cconj_0 : Cconj C0 = C0.
Proof. complex_eq. Qed.

Lemma Csum_perm (l1 l2 : list complex) :
  Permutation l1 l2 -> Csum l1 = Csum l2.
Proof.
  induction 1 as [|z l1 l2 _ IH|z w l|l1 l2 l3 _ IH1 _ IH2];
    unfold Csum in *; cbn [fold_right].
  - reflexivity.
  - rewrite IH. reflexivity.
  - rewrite !Cadd_assoc, (Cadd_comm w z). reflexivity.
  - congruence.
Qed.

Lemma Cconj_Csum (l : list complex) : Cconj (Csum l) = Csum (map Cconj l).
Proof.
  induction l as [|z l IH]; unfold Csum in *; cbn [map fold_right].
  - apply Cconj_0.
  - rewrite Cconj_add, IH. reflexivity.
Qed.

Lemma Cexp_i (x : R) : Cexp (Cmul Ci (RtoC x)) = (cos x, sin x).
Proof.
  unfold Cexp, Cmul, Ci, RtoC. cbn [fst snd].
  replace (0 * x - 1 * 0) with 0 by ring.
  replace (0 * 0 + 1 * x) with x by ring.
  rewrite exp_0. pair_eq; ring.
Qed.

Lemma slice_indices_atom (a nat_ : nat) :
  (a < nat_)%nat ->
  slice_indices (Z.of_nat a) nat_ (3 * nat_)
  = [a; (a + 1 * nat_)%nat; (a + 2 * nat_)%nat].
Proof.
  intros H. unfold slice_indices, slice_start.
  destruct (Z.ltb_spec (Z.of_nat a) 0) as [Hneg|_]; [lia|].
  rewrite Z.min_l by lia. rewrite Nat2Z.id.
  replace ((3 * nat_ - a + nat_ - 1) / nat_)%nat with 3%nat.
  - unfold range. cbn [seq map].
    replace (a + 0 * nat_)%nat with a by lia. reflexivity.
  - apply (Nat.div_unique _ _ _ (nat_ - a - 1)%nat); lia.
Qed.

Lemma well_indexed_atoms (nat_ : nat) (s : spring) :
  well_indexed nat_ s ->
  exists a b, (a < nat_)%nat /\ (b < nat_)%nat
              /\ sp_atoms s = (Z.of_nat a, Z.of_nat b).
Proof.
  intros [[Ha1 Ha2] [Hb1 Hb2]].
  exists (Z.to_nat (fst (sp_atoms s))), (Z.to_nat (snd (sp_atoms s))).
  repeat split; try lia.
  rewrite !Z2Nat.id by assumption. destruct (sp_atoms s); reflexivity.
Qed.

Lemma add_spring_term (nat_ : nat) (q1 q2 q3 : R) (s : spring) (D : cmatrix) :
  well_indexed nat_ s ->
  exists D', add_spring nat_ q1 q2 q3 s D = Some D'
             /\ forall i j, D' i j = Cadd (D i j)
                                          (spring_term nat_ q1 q2 q3 s i j).
Proof.
  intros Hw. destruct (well_indexed_atoms nat_ s Hw) as (a & b & Ha & Hb & E).
  unfold add_spring, spring_term. rewrite E. cbn [fst snd].
  destruct (Nat.eqb_spec nat_ 0) as [->|_]; [lia|].
  rewrite !slice_indices_atom by assumption.
  unfold iadd_block. cbn [length Nat.eqb andb].
  eexists. split; [reflexivity|]. intros i j. cbv beta.
  destruct (index_of i _); [destruct (index_of j _)|];
    try reflexivity; symmetry; apply Cadd_0_r.
Qed.

(** The evaluator returns the sum of the terms of the springs. *)
Lemma evaluator_sum (nat_ : nat) (q1 q2 q3 : R) (springs : list spring) :
  Forall (well_indexed nat_) springs ->
  exists D, calculate_dynamical_matrix nat_ springs q1 q2 q3 = Some D
            /\ forall i j,
                 D i j = Csum (map (fun s => spring_term nat_ q1 q2 q3 s i j)
                                   springs).
Proof.
  unfold calculate_dynamical_matrix. intros Hw.
  assert (G : forall D0,
            exists D, for_each springs (add_spring nat_ q1 q2 q3) D0 = Some D
                      /\ forall i j,
                           D i j
                           = Cadd (D0 i j)
                               (Csum (map (fun s => spring_term nat_ q1 q2 q3
                                                                s i j)
                                          springs))).
  { induction Hw as [|s springs Hs _ IH]; intros D0.
    - exists D0. split; [reflexivity|]. intros. symmetry. apply Cadd_0_r.
    - destruct (add_spring_term nat_ q1 q2 q3 s D0 Hs) as [D1 [E1 H1]].
      destruct (IH D1) as [D [E H]].
      exists D. cbn [for_each]. rewrite E1. cbn [obind]. split; [exact E|].
      intros i j. rewrite H, H1. unfold Csum. cbn [map fold_right].
      symmetry. apply Cadd_assoc. }
  destruct (G (fun _ _ => C0)) as [D [E H]].
  exists D. split; [exact E|]. intros i j. rewrite H. apply Cadd_0_l.
Qed.

Lemma mget_transpose (K : mat3) (k l : nat) :
  mget (mtranspose K) k l = mget K l k.
Proof.
  mat_destruct.
  destruct k as [|[|[|k]]], l as [|[|[|l]]]; reflexivity.
Qed.

Lemma cell_dot_q_neg (r1 r2 r3 : Z) (q1 q2 q3 : R) :
  cell_dot_q (- r1, - r2, - r3)%Z q1 q2 q3 = - cell_dot_q (r1, r2, r3) q1 q2 q3.
Proof. unfold cell_dot_q. rewrite !opp_IZR. ring. Qed.

(** The term of a spring at [(j, i)], conjugated, is the term of the
    flipped spring at [(i, j)]. *)
Lemma spring_term_flip (nat_ : nat) (q1 q2 q3 : R) (s : spring) (i j : nat) :
  Cconj (spring_term nat_ q1 q2 q3 s j i)
  = spring_term nat_ q1 q2 q3 (flip s) i j.
Proof.
  destruct s as [[a b] [[r1 r2] r3] K]. unfold spring_term, flip.
  cbn [sp_atoms sp_cell sp_const fst snd].
  destruct (index_of j (slice_indices a nat_ (3 * nat_))) as [l|];
    destruct (index_of i (slice_indices b nat_ (3 * nat_))) as [k|];
    try apply Cconj_0.
  unfold spring_block. cbn [sp_cell sp_const].
  rewrite mget_transpose, cell_dot_q_neg, !Cexp_i, cos_neg, sin_neg.
  complex_eq.
Qed.

(** C3.  For every wavevector the evaluator returns a matrix, and the matrix
    equals its conjugate transpose, provided the Spring List has the symmetry
    [(atomA, atomB, R) <-> (atomB, atomA, -R)] (and its atom indices address
    atoms).  The symmetry is needed: the list with the single spring
    [(0, 0, (1, 0, 0))] gives at [q = (pi/2, 0, 0)] a matrix whose first
    diagonal element is the imaginary unit. *)
Theorem C3_dynamical_matrix_hermitian :
  (forall (nat_ : nat) (springs : list spring) (q1 q2 q3 : R),
     Forall (well_indexed nat_) springs ->
     symmetric_springs springs ->
     exists D, calculate_dynamical_matrix nat_ springs q1 q2 q3 = Some D
               /\ hermitian (3 * nat_) D)
  /\ (exists D,
        calculate_dynamical_matrix 1
          [ {| sp_atoms := (0, 0)%Z; sp_cell := (1, 0, 0)%Z;
               sp_const := unit_lattice |} ] (PI / 2) 0 0 = Some D
        /\ D 0%nat 0%nat = (0, 1) /\ ~ hermitian 3 D).
Proof.
  split.
  - intros nat_ springs q1 q2 q3 Hw Hsym.
    destruct (evaluator_sum nat_ q1 q2 q3 springs Hw) as [D [E H]].
    exists D. split; [exact E|]. intros i j _ _.
    rewrite !H, Cconj_Csum, map_map.
    rewrite (map_ext (fun s => Cconj (spring_term nat_ q1 q2 q3 s j i))
                     (fun s => spring_term nat_ q1 q2 q3 (flip s) i j))
      by (intros s; apply spring_term_flip).
    rewrite <- (map_map flip (fun s => spring_term nat_ q1 q2 q3 s i j)).
    symmetry. apply Csum_perm. apply Permutation_map. exact Hsym.
  - set (s := {| sp_atoms := (0, 0)%Z; sp_cell := (1, 0, 0)%Z;
                 sp_const := unit_lattice |}).
    assert (Hw : Forall (well_indexed 1) [s]).
    { constructor; [|constructor]. unfold well_indexed, s. simpl. lia. }
    destruct (evaluator_sum 1 (PI / 2) 0 0 [s] Hw) as [D [E H]].
    assert (H00 : D 0%nat 0%nat = (0, 1)).
    { rewrite H. unfold Csum. cbn [map fold_right].
      unfold spring_term, s. cbn [sp_atoms fst snd].
      change (slice_indices 0 1 (3 * 1)) with [0; 1; 2]%nat.
      cbn [index_of Nat.eqb]. unfold spring_block. cbn [sp_cell sp_const].
      rewrite Cexp_i. unfold cell_dot_q.
      replace (1 * (PI / 2) + 0 * 0 + 0 * 0) with (PI / 2) by ring.
      rewrite cos_PI2, sin_PI2. unfold mget, unit_lattice. simpl.
      complex_eq. }
    exists D. split; [exact E|]. split; [exact H00|].
    intros Hh. specialize (Hh 0%nat 0%nat ltac:(lia) ltac:(lia)).
    rewrite H00 in Hh. unfold Cconj in Hh. simpl in Hh.
    injection Hh as Hh. lra.
Qed.

(** The three springs of the chain at the wavevector [(1, 0, 0)]. *)
Lemma C3_dynamical_matrix_hermitian_witness :
  exists D,
    calculate_dynamical_matrix 1
      [ {| sp_atoms := (0, 0)%Z; sp_cell := (0, 0, 0)%Z;
           sp_const := unit_lattice |};
        {| sp_atoms := (0, 0)%Z; sp_cell := (-1, 0, 0)%Z;
           sp_const := unit_lattice |};
        {| sp_atoms := (0, 0)%Z; sp_cell := (1, 0, 0)%Z;
           sp_const := unit_lattice |} ] 1 0 0 = Some D
    /\ hermitian (3 * 1) D.
Proof.
  apply (proj1 C3_dynamical_matrix_hermitian).
  - repeat constructor; simpl; lia.
  - unfold symmetric_springs. cbn [map flip sp_atoms sp_cell sp_const].
    change (mtranspose unit_lattice) with unit_lattice.
    change (- 0)%Z with 0%Z. change (- -1)%Z with 1%Z.
    apply perm_skip. apply perm_swap.
Defined.

(** ** Sums of reals over lists *)

Lemma Rsum_app (l1 l2 : list R) : Rsum (l1 ++ l2) = Rsum l1 + Rsum l2.
Proof.
  induction l1 as [|x l1 IH]; unfold Rsum in *; cbn [app fold_right];
    [|rewrite IH]; ring.
Qed.


Lemma Rsum_flat_map {A B : Type} (h : B -> R) (g : A -> list B) (l : list A) :
  Rsum (map h (flat_map g l)) = Rsum (map (fun x => Rsum (map h (g x))) l).
Proof.
  induction l as [|x l IH]; cbn [flat_map map]; [reflexivity|].
  rewrite map_app, Rsum_app, IH. reflexivity.
Qed.

Lemma Rsum_ext {A : Type} (f g : A -> R) (l : list A) :
  (forall x, In x l -> f x = g x) -> Rsum (map f l) = Rsum (map g l).
Proof.
  induction l as [|x l IH]; intros H; cbn [map]; [reflexivity|].
  unfold Rsum in *. cbn [fold_right].
  rewrite (H x (or_introl eq_refl)), IH; [reflexivity|].
  intros y Hy. apply H. right. assumption.
Qed.

Lemma Rsum_zero {A : Type} (l : list A) : Rsum (map (fun _ => 0) l) = 0.
Proof.
  induction l as [|x l IH]; unfold Rsum in *; cbn [map fold_right];
    [|rewrite IH]; ring.
Qed.

Lemma Rsum_plus {A : Type} (f g : A -> R) (l : list A) :
  Rsum (map (fun x => f x + g x) l) = Rsum (map f l) + Rsum (map g l).
Proof.
  induction l as [|x l IH]; unfold Rsum in *; cbn [map fold_right];
    [|rewrite IH]; ring.
Qed.




(** A sum over [range n] with a single term. *)
Lemma Rsum_single (g : nat -> R) (x0 n : nat) :
  (x0 < n)%nat ->
  Rsum (map (fun x => if (x =? x0)%nat then g x else 0) (range n)) = g x0.
Proof.
  unfold range. intros H.
  assert (G : forall a k,
            Rsum (map (fun x => if (x =? x0)%nat then g x else 0) (seq a k))
            = if ((a <=? x0) && (x0 <? a + k))%nat then g x0 else 0).
  { intros a k; revert a; induction k as [|k IH]; intros a.
    - cbn [seq map]. destruct (Nat.leb_spec a x0), (Nat.ltb_spec x0 (a + 0));
        try reflexivity. lia.
    - cbn [seq map]. unfold Rsum in *. cbn [fold_right]. rewrite IH.
      destruct (Nat.eqb_spec a x0) as [->|Hne].
      + destruct (Nat.leb_spec (S x0) x0); [lia|].
        destruct (Nat.leb_spec x0 x0); [|lia].
        destruct (Nat.ltb_spec x0 (x0 + S k)); [|lia]. simpl. ring.
      + destruct (Nat.leb_spec (S a) x0), (Nat.leb_spec a x0),
          (Nat.ltb_spec x0 (S a + k)), (Nat.ltb_spec x0 (a + S k));
          simpl; try ring; lia. }
  rewrite G. destruct (Nat.ltb_spec x0 (0 + n)); [reflexivity|lia].
Qed.

Lemma Rsum_all_zero {A : Type} (f : A -> R) (l : list A) :
  (forall x, In x l -> f x = 0) -> Rsum (map f l) = 0.
Proof.
  intros H. rewrite (Rsum_ext f (fun _ => 0) l H). apply Rsum_zero.
Qed.

Lemma Rsum_only (F : nat -> R) (x0 n : nat) (v : R) :
  (x0 < n)%nat -> F x0 = v ->
  (forall x, (x < n)%nat -> x <> x0 -> F x = 0) ->
  Rsum (map F (range n)) = v.
Proof.
  intros Hlt Hv Hz.
  rewrite (Rsum_ext F (fun x => if (x =? x0)%nat then F x else 0)).
  - rewrite Rsum_single by assumption. exact Hv.
  - intros x Hx. apply in_seq in Hx.
    destruct (Nat.eqb_spec x x0); [reflexivity|].
    apply Hz; [lia|assumption].
Qed.

Lemma mget_madd (K L : mat3) (i j : nat) :
  mget (madd K L) i j = mget K i j + mget L i j.
Proof.
  mat_destruct. destruct i as [|[|i]], j as [|[|j]]; reflexivity.
Qed.

Lemma mget_mzero (i j : nat) : mget mzero i j = 0.
Proof. destruct i as [|[|i]], j as [|[|j]]; reflexivity. Qed.

Lemma mget_mmap (f : R -> R) (K : mat3) (i j : nat) :
  mget (mmap f K) i j = f (mget K i j).
Proof.
  mat_destruct. destruct i as [|[|i]], j as [|[|j]]; reflexivity.
Qed.

Lemma mget_py_sum (l : list mat3) (i j : nat) :
  mget (py_sum l) i j = Rsum (map (fun K => mget K i j) l).
Proof.
  unfold py_sum.
  assert (G : forall acc,
            mget (fold_left madd l acc) i j
            = mget acc i j + Rsum (map (fun K => mget K i j) l)).
  { induction l as [|K l IH]; intros acc; cbn [fold_left map].
    - unfold Rsum. simpl. ring.
    - rewrite IH, mget_madd. unfold Rsum. cbn [fold_right]. ring. }
  rewrite G, mget_mzero. ring.
Qed.

(** ** The acoustic sum rule *)

Lemma asr_terms_ext (p p' : force_constants) (a : nat) :
  fc_nat p = fc_nat p' -> fc_nr1 p = fc_nr1 p' -> fc_nr2 p = fc_nr2 p' ->
  fc_nr3 p = fc_nr3 p' ->
  (forall b m1 m2 m3,
     fc_phid p a b m1 m2 m3 = fc_phid p' a b m1 m2 m3
     \/ (b = a /\ m1 = 0 /\ m2 = 0 /\ m3 = 0)%nat) ->
  asr_terms p a = asr_terms p' a.
Proof.
  intros En E1 E2 E3 H. unfold asr_terms. rewrite En, E1, E2, E3.
  apply flat_map_ext_in; intros b _.
  apply flat_map_ext_in; intros m1 _.
  apply flat_map_ext_in; intros m2 _.
  apply flat_map_ext_in; intros m3 _.
  destruct (H b m1 m2 m3) as [E|(-> & -> & -> & ->)].
  - rewrite E. reflexivity.
  - rewrite Nat.eqb_refl. reflexivity.
Qed.

Section AsrProofs.

Variable phid : force_constants.
Hypothesis some_nr1 : (1 <= fc_nr1 phid)%nat.
Hypothesis some_nr2 : (1 <= fc_nr2 phid)%nat.
Hypothesis some_nr3 : (1 <= fc_nr3 phid)%nat.

Local Abbreviation corrected_upto := (corrected_upto phid).

Lemma asr_prefix (n : nat) :
  exists p, for_each (seq 0 n) asr_step phid = Some p /\ corrected_upto n p.
Proof.
  induction n as [|n [p [E (En & E1 & E2 & E3 & Hp)]]].
  - exists phid. split; [reflexivity|]. repeat split; intros; reflexivity.
  - rewrite seq_S, for_each_app, E. cbn [obind Nat.add for_each].
    unfold asr_step. rewrite E1, E2, E3.
    destruct (Nat.ltb_spec 0 (fc_nr1 phid)); [|lia].
    destruct (Nat.ltb_spec 0 (fc_nr2 phid)); [|lia].
    destruct (Nat.ltb_spec 0 (fc_nr3 phid)); [|lia].
    cbn [andb obind]. eexists. split; [reflexivity|].
    assert (Et : asr_terms p n = asr_terms phid n).
    { apply asr_terms_ext; try assumption. intros b m1 m2 m3.
      left. rewrite Hp. rewrite Nat.ltb_irrefl. reflexivity. }
    rewrite Et. unfold corrected_upto, set_block. cbn [fc_nat fc_nr1 fc_nr2
      fc_nr3 fc_phid]. repeat split; try assumption.
    intros a b m1 m2 m3. rewrite Hp.
    destruct (Nat.eqb_spec a n) as [->|Hne].
    + rewrite Nat.ltb_irrefl. cbn [andb].
      destruct (Nat.ltb_spec n (S n)); [|lia]. cbn [andb].
      destruct ((b =? n) && (m1 =? 0) && (m2 =? 0) && (m3 =? 0))%nat;
        reflexivity.
    + cbn [andb].
      destruct (Nat.ltb_spec a n), (Nat.ltb_spec a (S n));
        try reflexivity; lia.
Qed.

(** [asr] returns, and changes nothing but the blocks [phid[a, a, 0, 0, 0]]. *)
Lemma asr_returns :
  exists p, asr phid = Some p /\ corrected_upto (fc_nat phid) p.
Proof. exact (asr_prefix (fc_nat phid)). Qed.

(** After the correction the couplings of an atom add up to nothing. *)
Lemma asr_sum_rule (p : force_constants) (a i j : nat) :
  corrected_upto (fc_nat phid) p -> (a < fc_nat phid)%nat ->
  Rsum (map (fun b =>
    Rsum (map (fun m1 =>
      Rsum (map (fun m2 =>
        Rsum (map (fun m3 => mget (fc_phid p a b m1 m2 m3) i j)
                  (range (fc_nr3 phid))))
        (range (fc_nr2 phid))))
      (range (fc_nr1 phid))))
    (range (fc_nat phid))) = 0.
Proof.
  intros (_ & _ & _ & _ & Hp) Ha.
  set (S := mget (py_sum (asr_terms phid a)) i j).
  set (f := fun b m1 m2 m3 => mget (fc_phid phid a b m1 m2 m3) i j).
  set (other := fun b m1 m2 m3 : nat =>
                  (negb (a =? b) || negb (m1 =? 0) || negb (m2 =? 0)
                   || negb (m3 =? 0))%nat).
  assert (HS : S = Rsum (map (fun b =>
                 Rsum (map (fun m1 =>
                   Rsum (map (fun m2 =>
                     Rsum (map (fun m3 =>
                             if other b m1 m2 m3 then f b m1 m2 m3 else 0)
                               (range (fc_nr3 phid))))
                     (range (fc_nr2 phid))))
                   (range (fc_nr1 phid))))
                 (range (fc_nat phid)))).
  { unfold S. rewrite mget_py_sum. unfold asr_terms.
    rewrite Rsum_flat_map. apply Rsum_ext; intros b _.
    rewrite Rsum_flat_map. apply Rsum_ext; intros m1 _.
    rewrite Rsum_flat_map. apply Rsum_ext; intros m2 _.
    rewrite Rsum_flat_map. apply Rsum_ext; intros m3 _.
    fold (other b m1 m2 m3). destruct (other b m1 m2 m3).
    - unfold Rsum, f. simpl. ring.
    - reflexivity. }
  assert (Hone : Rsum (map (fun b =>
                   Rsum (map (fun m1 =>
                     Rsum (map (fun m2 =>
                       Rsum (map (fun m3 =>
                               if other b m1 m2 m3 then 0 else - S)
                                 (range (fc_nr3 phid))))
                       (range (fc_nr2 phid))))
                     (range (fc_nr1 phid))))
                   (range (fc_nat phid))) = - S).
  { apply (Rsum_only _ a); [assumption| |].
    - apply (Rsum_only _ 0%nat); [lia| |].
      + apply (Rsum_only _ 0%nat); [lia| |].
        * apply (Rsum_only _ 0%nat); [lia| |].
          -- unfold other. rewrite !Nat.eqb_refl. reflexivity.
          -- intros m3 _ Hne. unfold other.
             destruct (Nat.eqb_spec m3 0); [contradiction|].
             rewrite !Nat.eqb_refl. reflexivity.
        * intros m2 _ Hne. apply Rsum_all_zero; intros m3 _. unfold other.
          destruct (Nat.eqb_spec m2 0); [contradiction|].
          rewrite !Nat.eqb_refl. reflexivity.
      + intros m1 _ Hne. apply Rsum_all_zero; intros m2 _.
        apply Rsum_all_zero; intros m3 _. unfold other.
        destruct (Nat.eqb_spec m1 0); [contradiction|].
        rewrite !Nat.eqb_refl. reflexivity.
    - intros b _ Hne. apply Rsum_all_zero; intros m1 _.
      apply Rsum_all_zero; intros m2 _.
      apply Rsum_all_zero; intros m3 _. unfold other.
      destruct (Nat.eqb_spec a b); [subst; contradiction|]. reflexivity. }
  replace 0 with (S + - S) by ring. rewrite HS at 1. rewrite <- Hone.
  rewrite <- Rsum_plus. apply Rsum_ext; intros b Hb.
  rewrite <- Rsum_plus. apply Rsum_ext; intros m1 _.
  rewrite <- Rsum_plus. apply Rsum_ext; intros m2 _.
  rewrite <- Rsum_plus. apply Rsum_ext; intros m3 _.
  rewrite Hp. destruct (Nat.ltb_spec a (fc_nat phid)); [|lia].
  cbn [andb]. unfold other.
  destruct (Nat.eqb_spec b a) as [->|Hne].
  - rewrite Nat.eqb_refl. cbn [andb negb orb].
    destruct (m1 =? 0)%nat, (m2 =? 0)%nat, (m3 =? 0)%nat;
      cbn [andb negb orb]; try (unfold f; ring).
    unfold mneg. rewrite mget_mmap. fold S. ring.
  - destruct (Nat.eqb_spec a b); [subst; contradiction|].
    cbn [andb negb orb]. unfold f. ring.
Qed.

End AsrProofs.

(** ** The dynamical matrix at the zero wavevector *)






Lemma index_of_row (a a' k nat_ : nat) :
  (a < nat_)%nat -> (a' < nat_)%nat -> (k < 3)%nat ->
  index_of (k * nat_ + a) [a'; (a' + 1 * nat_)%nat; (a' + 2 * nat_)%nat]
  = if (a =? a')%nat then Some k else None.
Proof.
  intros Ha Ha' Hk. cbn [index_of].
  destruct k as [|[|[|k]]]; [| | |lia];
    repeat match goal with
           | |- context [(?x =? ?y)%nat] => destruct (Nat.eqb_spec x y)
           end; try reflexivity; try lia.
Qed.

Section ZeroWavevector.

Variable nat_ : nat.
Variable amass : nat -> R.


End ZeroWavevector.

Section TranslationSum.

Variable phid : force_constants.
Variable amass : nat -> R.
Variable lat : mat3.
Variable tau : nat -> vec3.
Variable eps : R.

Hypothesis small_nat : (fc_nat phid <= 128)%nat.
Hypothesis positive_eps : 0 < eps.
Hypothesis positive_mass :
  forall na, (na < fc_nat phid)%nat -> 0 < amass na.

Lemma entry_springs_atoms (na1 na2 m1 m2 m3 : nat) :
  (na1 < fc_nat phid)%nat -> (na2 < fc_nat phid)%nat ->
  entry_springs phid amass lat tau eps na1 na2 m1 m2 m3
  = map (fun R => {| sp_atoms := (Z.of_nat na1, Z.of_nat na2);
                     sp_cell := int8_cell R;
                     sp_const := coupling phid amass lat tau eps
                                          na1 na2 m1 m2 m3 |})
        (selected phid lat tau eps na1 na2 m1 m2 m3).
Proof.
  intros H1 H2. unfold entry_springs. rewrite !int8_small by lia.
  reflexivity.
Qed.

Lemma all_springs_well_indexed (s : spring) :
  In s (flat_map (cell_springs phid amass lat tau eps) (all_cells phid)) ->
  well_indexed (fc_nat phid) s.
Proof.
  intros H. apply in_flat_map in H. destruct H as [[[m1 m2] m3] [_ H]].
  unfold cell_springs in H.
  apply in_flat_map in H. destruct H as [na1 [H1 H]].
  apply in_flat_map in H. destruct H as [na2 [H2 H]].
  apply in_seq in H1, H2.
  rewrite entry_springs_atoms in H by lia.
  apply in_map_iff in H. destruct H as [R [<- _]].
  unfold well_indexed. cbn [sp_atoms fst snd]. lia.
Qed.



End TranslationSum.



(** *** Beyond 128 atoms *)

Lemma for_each_raises {A St : Type} (l : list A)
  (body : A -> St -> option St) (x : A) (s : St) :
  In x l -> (forall s, body x s = None) -> for_each l body s = None.
Proof.
  revert s. induction l as [|y l IH]; intros s Hin Hx; [contradiction|].
  cbn [for_each]. destruct Hin as [->|Hin].
  - rewrite Hx. reflexivity.
  - destruct (body y s); [|reflexivity]. cbn [obind]. apply IH; assumption.
Qed.

(** A slice that starts at or after the atom [nat_], also when it is counted
    from the end of the axis, has fewer than three items. *)
Lemma slice_short (a : Z) (nat_ : nat) :
  (1 <= nat_)%nat ->
  (Z.of_nat nat_ <= a \/ - 2 * Z.of_nat nat_ <= a < 0)%Z ->
  (length (slice_indices a nat_ (3 * nat_)) < 3)%nat.
Proof.
  intros Hn Ha. unfold slice_indices. cbv zeta. rewrite length_map.
  unfold range. rewrite length_seq. unfold slice_start.
  destruct (Z.ltb_spec a 0) as [Hneg|Hpos].
  - set (start := Z.to_nat (Z.max (a + Z.of_nat (3 * nat_)) 0)).
    assert (Hs : (nat_ <= start)%nat) by (unfold start; lia).
    apply Nat.Div0.div_lt_upper_bound. lia.
  - set (start := Z.to_nat (Z.min a (Z.of_nat (3 * nat_)))).
    assert (Hs : (nat_ <= start)%nat) by (unfold start; lia).
    apply Nat.Div0.div_lt_upper_bound. lia.
Qed.

Lemma add_spring_short (nat_ : nat) (q1 q2 q3 : R) (s : spring)
  (D : cmatrix) :
  (1 <= nat_)%nat ->
  ((Z.of_nat nat_ <= fst (sp_atoms s)
    \/ - 2 * Z.of_nat nat_ <= fst (sp_atoms s) < 0)
   \/ (Z.of_nat nat_ <= snd (sp_atoms s)
       \/ - 2 * Z.of_nat nat_ <= snd (sp_atoms s) < 0))%Z ->
  add_spring nat_ q1 q2 q3 s D = None.
Proof.
  intros Hn Ha. unfold add_spring, iadd_block.
  destruct (nat_ =? 0)%nat; [reflexivity|].
  replace ((length (slice_indices (fst (sp_atoms s)) nat_ (3 * nat_)) =? 3)
           && (length (slice_indices (snd (sp_atoms s)) nat_ (3 * nat_))
               =? 3))%nat with false; [reflexivity|].
  symmetry. apply andb_false_iff.
  destruct Ha as [Ha|Ha]; [left|right]; apply Nat.eqb_neq;
    pose proof (slice_short _ nat_ Hn Ha); lia.
Qed.

(** With more than 128 atoms the Spring List holds a spring of the atom 128,
    saved as [-128]. *)
Lemma spring_of_atom_128 (phid : force_constants) (amass : nat -> R)
  (lat : mat3) (tau : nat -> vec3) (eps : R) :
  0 < eps -> (129 <= fc_nat phid)%nat ->
  (1 <= fc_nr1 phid)%nat -> (1 <= fc_nr2 phid)%nat -> (1 <= fc_nr3 phid)%nat ->
  exists s,
    In s (flat_map (cell_springs phid amass lat tau eps) (all_cells phid))
    /\ fst (sp_atoms s) = (-128)%Z.
Proof.
  intros He Hn H1 H2 H3.
  pose proof (selected_nonempty phid lat tau eps 128 0 0 0 0 He) as Hsel.
  destruct (selected phid lat tau eps 128 0 0 0 0) as [|R sel] eqn:E;
    [simpl in Hsel; lia|].
  exists {| sp_atoms := (int8 (Z.of_nat 128), int8 (Z.of_nat 0));
            sp_cell := int8_cell R;
            sp_const := coupling phid amass lat tau eps 128 0 0 0 0 |}.
  split; [|reflexivity].
  apply in_flat_map. exists (0, 0, 0)%nat. split.
  - apply in_all_cells. lia.
  - unfold cell_springs. apply in_flat_map. exists 128%nat.
    split; [apply in_seq; lia|].
    apply in_flat_map. exists 0%nat. split; [apply in_seq; lia|].
    unfold entry_springs. rewrite E. left. reflexivity.
Qed.

(** C5, where the code leaves the claim.  The atom indices of the springs
    are stored in 8-bit integers, so the atom 128 is saved as [-128].  With
    129 atoms or more, on a grid without an empty axis and with a positive
    tolerance, [asr] returns and the construction by a single worker
    returns its function; but the function returned by any construction
    that returns raises at every wavevector, the zero wavevector included:
    the slice [D[-128::nat]] has one row, not three.  There is no matrix at
    the zero wavevector, and so no zero eigenvalue. *)
Theorem C5_zero_mode_lost_beyond_128_atoms
  (phid : force_constants) (amass : nat -> R) (lat : mat3)
  (tau : nat -> vec3) (eps : R) (junk_atoms : Z * Z) (junk_cell : cell)
  (junk_const : mat3) (W : nat) :
  (1 <= W)%nat -> 0 < eps -> (129 <= fc_nat phid)%nat ->
  (1 <= fc_nr1 phid)%nat -> (1 <= fc_nr2 phid)%nat -> (1 <= fc_nr3 phid)%nat ->
  exists phid',
    asr phid = Some phid'
    /\ corrected_upto phid (fc_nat phid) phid'
    /\ (exists calculate,
          dynamical_matrix phid' amass lat tau eps junk_atoms junk_cell
                           junk_const 1 = Some calculate)
    /\ forall calculate,
         dynamical_matrix phid' amass lat tau eps junk_atoms junk_cell
                          junk_const W = Some calculate ->
         forall q1 q2 q3, calculate q1 q2 q3 = None.
Proof.
  intros HW He Hn H1 H2 H3.
  destruct (asr_returns phid H1 H2 H3) as [p [Easr Hc]].
  exists p. split; [exact Easr|]. split; [exact Hc|].
  pose proof Hc as (En & E1 & E2 & E3 & _).
  split.
  - unfold dynamical_matrix. rewrite spring_list_alone. cbn [obind].
    eexists. reflexivity.
  - intros calculate Hcalc q1 q2 q3. unfold dynamical_matrix in Hcalc.
    destruct (spring_list p amass lat tau eps junk_atoms junk_cell
                          junk_const W) as [springs|] eqn:Hrun;
      [|discriminate].
    cbn [obind] in Hcalc. injection Hcalc as <-.
    pose proof (spring_list_all_cells p amass lat tau eps junk_atoms
                  junk_cell junk_const W springs HW Hrun) as HP.
    destruct (spring_of_atom_128 p amass lat tau eps He) as [s [Hs Ha]];
      try lia.
    unfold calculate_dynamical_matrix.
    apply (for_each_raises springs _ s).
    + apply (Permutation_in _ (Permutation_sym HP)). exact Hs.
    + intros D. apply add_spring_short; [lia|]. left. right. lia.
Qed.

(** 129 atoms on a single cell, one worker. *)
Lemma C5_zero_mode_lost_beyond_128_atoms_witness :
  exists phid' calculate,
    asr crowded = Some phid'
    /\ dynamical_matrix phid' (fun _ => 1) unit_lattice at_origin 1e-7
                        (0, 0)%Z (0, 0, 0)%Z mzero 1 = Some calculate
    /\ calculate 0 0 0 = None.
Proof.
  destruct (C5_zero_mode_lost_beyond_128_atoms crowded (fun _ => 1)
              unit_lattice at_origin 1e-7 (0, 0)%Z (0, 0, 0)%Z mzero 1%nat)
    as [p [E [_ [[calculate Hc] Hnone]]]];
    try (unfold crowded; cbn [fc_nat fc_nr1 fc_nr2 fc_nr3]; lia); try lra.
  exists p, calculate. split; [exact E|]. split; [exact Hc|].
  apply (Hnone calculate Hc).
Defined.

(** ** Band order *)

(** Python's [max] with a key returns an item of the sequence whose key no
    other key exceeds; the items before it have smaller keys. *)
Lemma py_max_key_spec (l : list nat) (key : nat -> R) (m : nat) :
  py_max_key l key = Some m ->
  In m l /\ forall y, In y l -> key y <= key m.
Proof.
  destruct l as [|x l]; [discriminate|]. cbn [py_max_key].
  intros H; injection H as <-.
  assert (G : forall best,
            let r := fold_left (fun best y => if Rltb (key best) (key y)
                                              then y else best) l best in
            (r = best \/ In r l) /\ key best <= key r
            /\ forall y, In y l -> key y <= key r).
  { induction l as [|y l IH]; intros best; cbn [fold_left].
    - split; [left; reflexivity|]. split; [lra|]. intros y [].
    - destruct (Rltb (key best) (key y)) eqn:E.
      + apply Rltb_true in E. destruct (IH y) as [Hin [Hle Hall]].
        split; [|split].
        * right. destruct Hin as [->|Hin]; [left; reflexivity|right; exact Hin].
        * lra.
        * intros z [<-|Hz]; [exact Hle|apply Hall; exact Hz].
      + apply Rltb_false in E. destruct (IH best) as [Hin [Hle Hall]].
        split; [|split].
        * destruct Hin as [->|Hin]; [left; reflexivity|right; right; exact Hin].
        * exact Hle.
        * intros z [<-|Hz]; [lra|apply Hall; exact Hz]. }
  destruct (G x) as [Hin [Hle Hall]]. split.
  - destruct Hin as [->|Hin]; [left; reflexivity|right; exact Hin].
  - intros y [<-|Hy]; [exact Hle|apply Hall; exact Hy].
Qed.



Lemma py_max_key_some (l : list nat) (key : nat -> R) :
  l <> [] -> exists m, py_max_key l key = Some m.
Proof. destruct l; [congruence|]. intros _. eexists. reflexivity. Qed.

Section BandOrderProofs.

Variable N bands : nat.
Variable w : nat -> nat -> R.
Variable e : nat -> nat -> nat -> complex.
Variable junk_order : nat -> nat -> nat.

Local Abbreviation reference := (reference bands w).

Lemma reference_lt (n : nat) : (1 <= n)%nat -> (reference n < n)%nat.
Proof.
  induction n as [|n IH]; [lia|]. intros _. cbn [reference].
  destruct ((1 <=? n)%nat && no_degeneracy bands w n)%bool; [lia|].
  destruct n as [|n]; [cbn; lia|]. specialize (IH ltac:(lia)). lia.
Qed.

Lemma overlap_ext (order order' : nat -> nat -> nat) (n0 n nu mu : nat) :
  order n0 nu = order' n0 nu ->
  overlap bands e order n0 n nu mu = overlap bands e order' n0 n nu mu.
Proof. intros H. unfold overlap. rewrite H. reflexivity. Qed.

Local Abbreviation matched_below := (matched_below bands w e).

Lemma assign_slots (n0 n k : nat) (order : nat -> nat -> nat) :
  (n0 < n)%nat -> (k <= bands)%nat ->
  exists order',
    for_each (seq 0 k) (assign_slot bands e n0 n) order = Some order'
    /\ (forall n' nu, n' <> n -> order' n' nu = order n' nu)
    /\ (forall nu, (k <= nu)%nat -> order' n nu = order n nu)
    /\ forall nu, (nu < k)%nat ->
         py_max_key (range bands) (overlap bands e order n0 n nu)
         = Some (order' n nu).
Proof.
  intros Hn0. induction k as [|k IH]; intros Hk.
  - exists order. split; [reflexivity|]. repeat split; intros; try lia;
      reflexivity.
  - destruct (IH ltac:(lia)) as [o1 [E1 [Hrows [Hrest Hdone]]]].
    rewrite seq_S, for_each_app, E1. cbn [obind Nat.add for_each].
    unfold assign_slot.
    destruct (py_max_key_some (range bands) (overlap bands e o1 n0 n k))
      as [mu Emu].
    { unfold range. destruct bands; [lia|discriminate]. }
    rewrite Emu. cbn [obind]. eexists. split; [reflexivity|].
    unfold set_order. split; [|split].
    + intros n' nu Hne. destruct (Nat.eqb_spec n' n); [contradiction|].
      cbn [andb]. apply Hrows. assumption.
    + intros nu Hnu. rewrite Nat.eqb_refl.
      destruct (Nat.eqb_spec nu k); [lia|]. cbn [andb]. apply Hrest. lia.
    + intros nu Hnu. rewrite Nat.eqb_refl. cbn [andb].
      destruct (Nat.eqb_spec nu k) as [->|Hne].
      * rewrite <- Emu. unfold overlap.
        rewrite (Hrows n0 k) by lia. reflexivity.
      * rewrite <- (Hdone nu ltac:(lia)). reflexivity.
Qed.

Lemma track_points (k : nat) :
  exists order,
    for_each (seq 1 k) (track_point bands w e)
             (O, fun n nu => if (n =? 0)%nat then nu else junk_order n nu)
    = Some (reference (S k), order)
    /\ matched_below (S k) order.
Proof.
  induction k as [|k [ord [E [H0 Hm]]]].
  - eexists. split; [reflexivity|]. split; [reflexivity|]. intros; lia.
  - rewrite seq_S, for_each_app, E. cbn [obind Nat.add for_each].
    unfold track_point. cbn [fst snd].
    pose proof (reference_lt (S k) ltac:(lia)) as Hlt.
    destruct (assign_slots (reference (S k)) (S k) bands ord Hlt (le_n _))
      as [ord' [E' [Hrows [_ Hdone]]]].
    fold (range bands) in E'. rewrite E'. cbn [obind].
    exists ord'. split.
    + reflexivity.
    + split.
      * intros nu. rewrite Hrows by lia. apply H0.
      * intros n' nu Hn' Hnu.
        destruct (Nat.eq_dec n' (S k)) as [->|Hne].
        -- rewrite <- (Hdone nu Hnu). unfold overlap.
           rewrite (Hrows (reference (S k)) nu) by lia. reflexivity.
        -- rewrite (Hrows n' nu Hne). rewrite <- (Hm n' nu ltac:(lia) Hnu).
           pose proof (reference_lt n' ltac:(lia)).
           unfold overlap. rewrite (Hrows (reference n') nu) by lia.
           reflexivity.
Qed.

(** [band_order] returns on an array with at least one row, every row
    after the first being matched against its reference. *)
Lemma band_order_matched :
  (1 <= N)%nat ->
  exists order, band_order N bands w e junk_order = Some order
                /\ matched_below N order.
Proof.
  intros HN. unfold band_order.
  destruct (Nat.eqb_spec N 0); [lia|].
  destruct (track_points (N - 1)) as [order [E Hm]].
  rewrite E. cbn [obind snd]. exists order. split; [reflexivity|].
  replace N with (S (N - 1)) by lia. exact Hm.
Qed.

End BandOrderProofs.



(** *** Two slots matched to the same band *)

Lemma Cabs_of (z : complex) (x : R) :
  fst z = x -> snd z = 0 -> Cabs z = Rabs x.
Proof.
  intros H1 H2. unfold Cabs. rewrite H1, H2.
  replace (x * x + 0 * 0) with (Rsqr x) by (unfold Rsqr; ring).
  apply sqrt_Rsqr_abs.
Qed.

Lemma tilted_overlap (order : nat -> nat -> nat) (nu mu : nat) :
  order O nu = nu -> (nu < 3)%nat ->
  overlap 3 tilted_e order 0 1 nu mu = Rabs (rotation_entry nu mu).
Proof.
  intros H Hnu. unfold overlap. rewrite H. apply Cabs_of;
    destruct nu as [|[|[|nu]]]; try lia;
    destruct mu as [|[|[|mu]]];
    unfold range, Csum, Cmul, Cconj, tilted_e, rotation_entry; simpl; lra.
Qed.

Ltac settle_Rabs :=
  repeat match goal with
         | |- context [Rabs ?x] =>
             first [ rewrite (Rabs_pos_eq x) by lra
                   | rewrite (Rabs_left x) by lra ]
         end.

Ltac settle_Rltb :=
  repeat match goal with
         | |- context [Rltb ?a ?b] =>
             first [ rewrite (proj2 (Rltb_true a b)) by lra
                   | rewrite (proj2 (Rltb_false a b)) by lra ]
         end.

Ltac settle_max := repeat (progress (settle_Rabs; settle_Rltb; cbv iota beta)).

(** The displacement vectors of both mesh points are orthonormal. *)
Lemma tilted_orthonormal (n : nat) : orthonormal 3 (tilted_e n).
Proof.
  intros nu mu Hnu Hmu.
  destruct n as [|n];
    destruct nu as [|[|[|nu]]]; try lia;
    destruct mu as [|[|[|mu]]]; try lia;
    unfold range, Csum, Cmul, Cconj, Cadd, C0, tilted_e, rotation_entry;
    cbn [seq map fold_right fst snd Nat.eqb]; f_equal; lra.
Qed.

(** C7, where the code leaves the claim.  The band order of a point need
    not be a permutation of the bands: with two mesh points and three
    bands, the displacement vectors of either point orthonormal and the
    frequencies without degeneracy, [band_order] returns
    [order[1] = (0, 1, 1)].  The slots 1 and 2 are both given band 1 and
    band 2 is given to no slot. *)
Theorem C7_band_order_repeats_band :
  orthonormal 3 (tilted_e 0) /\ orthonormal 3 (tilted_e 1)
  /\ exists order,
       band_order 2 3 apart_w tilted_e (fun _ _ => O) = Some order
       /\ order_row 3 order 1 = [0; 1; 1]%nat
       /\ ~ NoDup (order_row 3 order 1)
       /\ ~ Permutation (order_row 3 order 1) (range 3).
Proof.
  split; [apply tilted_orthonormal|]. split; [apply tilted_orthonormal|].
  destruct (band_order_matched 2 3 apart_w tilted_e (fun _ _ => O)
              ltac:(lia)) as [order [E [H0 Hm]]].
  exists order. split; [exact E|].
  assert (Hrow : order_row 3 order 1 = [0; 1; 1]%nat).
  { unfold order_row, range. cbn [seq map].
    assert (Hslot : forall nu pick, (nu < 3)%nat ->
              py_max_key (range 3)
                (fun mu => Rabs (rotation_entry nu mu)) = Some pick ->
              order 1%nat nu = pick).
    { intros nu pick Hnu Hp.
      pose proof (Hm 1%nat nu ltac:(lia) Hnu) as Hk.
      change (reference 3 apart_w 1) with 0%nat in Hk.
      unfold py_max_key, range in Hk, Hp. cbn [seq fold_left] in Hk, Hp.
      rewrite !(tilted_overlap order nu) in Hk by (try apply H0; lia).
      congruence. }
    rewrite (Hslot 0%nat 0%nat), (Hslot 1%nat 1%nat), (Hslot 2%nat 1%nat);
      try lia; try reflexivity;
      unfold py_max_key, range; cbn [seq fold_left rotation_entry];
      settle_max; reflexivity. }
  split; [exact Hrow|]. rewrite Hrow. split.
  { intros Hnd. apply NoDup_cons_iff in Hnd. destruct Hnd as [_ Hnd].
    apply NoDup_cons_iff in Hnd. destruct Hnd as [Hx _].
    apply Hx. left. reflexivity. }
  intros HP.
  assert (Hin : In 2%nat [0; 1; 1]%nat).
  { apply (Permutation_in _ (Permutation_sym HP)). simpl. auto. }
  simpl in Hin. lia.
Qed.


(** ** The vote of the symmetry-consensus pass *)

Section TupleOrder.

Local Open Scope nat_scope.

Lemma tuple_eqb_eq (x y : list nat) : tuple_eqb x y = true <-> x = y.
Proof.
  revert y; induction x as [|a x IH]; intros [|b y]; simpl;
    try (split; [discriminate|congruence]); [tauto|].
  rewrite andb_true_iff, Nat.eqb_eq, IH. split.
  - intros [-> ->]. reflexivity.
  - intros H; injection H as -> ->. auto.
Qed.

Lemma tuple_ltb_irrefl (x : list nat) : tuple_ltb x x = false.
Proof.
  induction x as [|a x IH]; simpl; [reflexivity|].
  rewrite Nat.ltb_irrefl, Nat.eqb_refl, IH. reflexivity.
Qed.

Lemma tuple_ltb_trans (x y z : list nat) :
  tuple_ltb x y = true -> tuple_ltb y z = true -> tuple_ltb x z = true.
Proof.
  revert y z; induction x as [|a x IH]; intros [|b y] [|c z]; simpl;
    try discriminate; try reflexivity.
  rewrite !orb_true_iff, !andb_true_iff, !Nat.ltb_lt, !Nat.eqb_eq.
  intros [H1|[H1 H1']] [H2|[H2 H2']].
  - left. lia.
  - left. lia.
  - left. lia.
  - right. split; [lia|]. apply (IH y z); assumption.
Qed.

Lemma tuple_ltb_total (x y : list nat) :
  x = y \/ tuple_ltb x y = true \/ tuple_ltb y x = true.
Proof.
  revert y; induction x as [|a x IH]; intros [|b y]; simpl; auto.
  destruct (Nat.lt_trichotomy a b) as [H|[H|H]].
  - right. left. apply orb_true_iff. left. apply Nat.ltb_lt. assumption.
  - subst b. rewrite Nat.ltb_irrefl, Nat.eqb_refl. simpl.
    destruct (IH y) as [->|[H|H]]; auto.
  - right. right. apply orb_true_iff. left. apply Nat.ltb_lt. assumption.
Qed.

Lemma vote_ltb_irrefl (x : list nat * nat) : vote_ltb x x = false.
Proof.
  unfold vote_ltb. rewrite Nat.ltb_irrefl, Nat.eqb_refl, tuple_ltb_irrefl.
  reflexivity.
Qed.

Lemma vote_ltb_trans (x y z : list nat * nat) :
  vote_ltb x y = true -> vote_ltb y z = true -> vote_ltb x z = true.
Proof.
  unfold vote_ltb.
  rewrite !orb_true_iff, !andb_true_iff, !Nat.ltb_lt, !Nat.eqb_eq.
  intros [H1|[H1 H1']] [H2|[H2 H2']].
  - left. lia.
  - left. lia.
  - left. lia.
  - right. split; [lia|]. apply (tuple_ltb_trans _ (fst y)); assumption.
Qed.

Lemma vote_ltb_total (x y : list nat * nat) :
  x = y \/ vote_ltb x y = true \/ vote_ltb y x = true.
Proof.
  destruct x as [xt xk], y as [yt yk]. unfold vote_ltb. cbn [fst snd].
  destruct (Nat.lt_trichotomy xk yk) as [H|[H|H]].
  - right. right. apply orb_true_iff. left. apply Nat.ltb_lt. assumption.
  - subst yk. rewrite Nat.ltb_irrefl, Nat.eqb_refl. cbn [orb andb].
    destruct (tuple_ltb_total xt yt) as [->|[H|H]]; auto.
  - right. left. apply orb_true_iff. left. apply Nat.ltb_lt. assumption.
Qed.

(** Not beaten by, in a chain. *)
Lemma vote_not_beaten_trans (x y z : list nat * nat) :
  vote_ltb x y = false -> vote_ltb y z = false -> vote_ltb x z = false.
Proof.
  intros H1 H2. destruct (vote_ltb x z) eqn:E; [|reflexivity].
  destruct (vote_ltb_total y z) as [->|[H|H]]; try congruence.
  rewrite (vote_ltb_trans _ _ _ E H) in H1. discriminate.
Qed.

(** Python's [min] with the key of the vote returns a key of the dictionary
    that no other key beats. *)
Lemma py_min_vote_spec (counts : counts_dict) (t : list nat) :
  py_min_vote counts = Some t ->
  exists k, In (t, k) counts
            /\ forall y, In y counts -> vote_ltb y (t, k) = false.
Proof.
  destruct counts as [|x counts]; [discriminate|]. cbn [py_min_vote].
  intros H; injection H as <-.
  set (step := fun best y : list nat * nat =>
                 if vote_ltb y best then y else best).
  assert (G : forall best,
            (fold_left step counts best = best
             \/ In (fold_left step counts best) counts)
            /\ vote_ltb best (fold_left step counts best) = false
            /\ forall y, In y counts ->
                 vote_ltb y (fold_left step counts best) = false).
  { induction counts as [|y counts IH]; intros best; cbn [fold_left].
    - split; [left; reflexivity|]. split; [apply vote_ltb_irrefl|].
      intros y [].
    - unfold step at 2 4 6 8. destruct (vote_ltb y best) eqn:E.
      + destruct (IH y) as [Hin [Hle Hall]]. split; [|split].
        * right. destruct Hin as [->|Hin]; [left|right]; auto.
        * destruct (vote_ltb best (fold_left step counts y)) eqn:E';
            [|reflexivity].
          rewrite (vote_ltb_trans _ _ _ E E') in Hle. discriminate.
        * intros z [<-|Hz]; [exact Hle|apply Hall; exact Hz].
      + destruct (IH best) as [Hin [Hle Hall]]. split; [|split].
        * destruct Hin as [->|Hin]; [left|right; right]; auto.
        * exact Hle.
        * intros z [<-|Hz]; [|apply Hall; exact Hz].
          apply (vote_not_beaten_trans _ best); assumption. }
  destruct (G x) as [Hin [Hle Hall]].
  destruct (fold_left step counts x) as [rt rk] eqn:Er. cbn [fst].
  exists rk. split.
  - destruct Hin as [Hin|Hin]; [left; symmetry; exact Hin|right; exact Hin].
  - intros y [<-|Hy]; [exact Hle|apply Hall; exact Hy].
Qed.

End TupleOrder.

Section Tally.

Local Open Scope nat_scope.

Lemma keys_count_one (t : list nat) (c : counts_dict) :
  map fst (count_one t c) = map fst c
  \/ (~ In t (map fst c) /\ map fst (count_one t c) = map fst c ++ [t]).
Proof.
  induction c as [|[x k] c IH]; cbn [count_one map fst app].
  - right. split; [intros []|reflexivity].
  - destruct (tuple_eqb x t) eqn:E; cbn [map fst]; [left; reflexivity|].
    destruct IH as [IH|[Hn IH]]; rewrite IH; [left; reflexivity|].
    right. split; [|reflexivity]. intros [->|H]; [|contradiction].
    rewrite (proj2 (tuple_eqb_eq t t) eq_refl) in E. discriminate.
Qed.

Lemma NoDup_count_one (t : list nat) (c : counts_dict) :
  NoDup (map fst c) -> NoDup (map fst (count_one t c)).
Proof.
  intros H. destruct (keys_count_one t c) as [E|[Hn E]]; rewrite E.
  - exact H.
  - apply NoDup_app; [exact H|repeat constructor; intros []|].
    intros x Hx [<-|[]]. contradiction.
Qed.

Lemma in_count_one (t t' : list nat) (k' : nat) (c : counts_dict) :
  NoDup (map fst c) ->
  In (t', k') (count_one t c) <->
  (t' <> t /\ In (t', k') c)
  \/ (t' = t /\ ((exists k, In (t, k) c /\ k' = S k)
                 \/ ((forall k, ~ In (t, k) c) /\ k' = 1))).
Proof.
  induction c as [|[x k0] c IH]; intros Hnd; cbn [count_one].
  - simpl. split.
    + intros [H|[]]. injection H as <- <-. right. split; [reflexivity|].
      right. split; [intros k []|reflexivity].
    + intros [[_ []]|[-> [[k [[] _]]|[_ ->]]]]. left. reflexivity.
  - cbn [map fst] in Hnd. inversion Hnd as [|? ? Hnotin Hnd']; subst.
    specialize (IH Hnd').
    destruct (tuple_eqb x t) eqn:E.
    + apply tuple_eqb_eq in E. subst x.
      assert (Hno : forall k, ~ In (t, k) c).
      { intros k Hk. apply Hnotin. apply in_map_iff.
        exists (t, k). split; [reflexivity|exact Hk]. }
      simpl. split.
      * intros [H|H].
        -- injection H as <- <-. right. split; [reflexivity|].
           left. exists k0. split; [left; reflexivity|reflexivity].
        -- left. split; [|right; exact H]. intros ->. apply (Hno k' H).
      * intros [[Hne [H|H]]|[-> [[k [[H|H] ->]]|[Hall ->]]]].
        -- injection H as <- <-. contradiction.
        -- right. exact H.
        -- injection H as <-. left. reflexivity.
        -- exfalso. apply (Hno k H).
        -- exfalso. apply (Hall k0). left. reflexivity.
    + assert (Hne : x <> t).
      { intros ->. rewrite (proj2 (tuple_eqb_eq t t) eq_refl) in E.
        discriminate. }
      simpl. rewrite IH. split.
      * intros [H|[[Hne' H]|[-> [[k [H ->]]|[Hall ->]]]]].
        -- injection H as <- <-. left. split; [exact Hne|left; reflexivity].
        -- left. split; [exact Hne'|right; exact H].
        -- right. split; [reflexivity|]. left. exists k.
           split; [right; exact H|reflexivity].
        -- right. split; [reflexivity|]. right. split; [|reflexivity].
           intros k [H|H]; [injection H as -> _; contradiction|].
           apply (Hall k H).
      * intros [[Hne' [H|H]]|[-> [[k [[H|H] ->]]|[Hall ->]]]].
        -- left. exact H.
        -- right. left. split; assumption.
        -- injection H as -> _. contradiction.
        -- right. right. split; [reflexivity|]. left. exists k.
           split; [exact H|reflexivity].
        -- right. right. split; [reflexivity|]. right.
           split; [|reflexivity]. intros k H. apply (Hall k). right. exact H.
Qed.

Lemma occurrences_snoc (t t' : list nat) (ts : list (list nat)) :
  occurrences t' (ts ++ [t])
  = occurrences t' ts + (if list_eq_dec Nat.eq_dec t t' then 1 else 0).
Proof.
  unfold occurrences. rewrite count_occ_app. cbn [count_occ].
  destruct (list_eq_dec Nat.eq_dec t t'); reflexivity.
Qed.

Lemma dict_of_count_one (t : list nat) (c : counts_dict)
  (ts : list (list nat)) :
  dict_of c ts -> dict_of (count_one t c) (ts ++ [t]).
Proof.
  intros [Hnd Hc]. split; [apply NoDup_count_one; exact Hnd|].
  intros t' k'. rewrite (in_count_one t t' k' c Hnd), occurrences_snoc.
  destruct (list_eq_dec Nat.eq_dec t t') as [<-|Hne].
  - split.
    + intros [[Hne _]|[_ [[k [Hk ->]]|[Hall ->]]]]; [congruence| |].
      * apply Hc in Hk. lia.
      * destruct (occurrences t ts) as [|n] eqn:E; [lia|].
        exfalso. apply (Hall (S n)). apply Hc. lia.
    + intros [-> _]. right. split; [reflexivity|].
      destruct (occurrences t ts) as [|n] eqn:E.
      * right. split; [|reflexivity]. intros k Hk. apply Hc in Hk. lia.
      * left. exists (S n). split; [apply Hc; lia|lia].
  - rewrite Nat.add_0_r. split.
    + intros [[_ H]|[-> _]]; [apply Hc; exact H|congruence].
    + intros H. left. split; [congruence|apply Hc; exact H].
Qed.

Lemma tally_list_snoc (ts : list (list nat)) (t : list nat) :
  tally_list (ts ++ [t]) = count_one t (tally_list ts).
Proof. unfold tally_list. rewrite fold_left_app. reflexivity. Qed.

Lemma tally_list_dict (ts : list (list nat)) : dict_of (tally_list ts) ts.
Proof.
  induction ts as [|t ts IH] using rev_ind.
  - split; [constructor|]. intros t k. simpl. split; [intros []|lia].
  - rewrite tally_list_snoc. apply dict_of_count_one. exact IH.
Qed.

Lemma occurrences_pos (t : list nat) (ts : list (list nat)) :
  In t ts <-> 1 <= occurrences t ts.
Proof. unfold occurrences. apply count_occ_In. Qed.

(** The vote returns the winner. *)
Lemma vote_winner (ts : list (list nat)) (t : list nat) :
  vote ts = Some t -> is_winner t ts.
Proof.
  unfold vote. intros H. apply py_min_vote_spec in H.
  destruct H as [k [Hin Hmin]].
  destruct (tally_list_dict ts) as [_ Hc].
  apply Hc in Hin. destruct Hin as [-> Hk]. split.
  - apply occurrences_pos. exact Hk.
  - intros t' Ht'. apply occurrences_pos in Ht'.
    specialize (Hmin (t', occurrences t' ts)
                     (proj2 (Hc t' _) (conj eq_refl Ht'))).
    unfold vote_ltb in Hmin. cbn [fst snd] in Hmin.
    apply orb_false_iff in Hmin. destruct Hmin as [H1 H2].
    apply Nat.ltb_ge in H1. split; [exact H1|].
    intros E. rewrite E, Nat.eqb_refl in H2. cbn [andb] in H2.
    destruct (tuple_ltb_total t' t) as [->|[T|T]]; auto. congruence.
Qed.

Lemma vote_returns (ts : list (list nat)) :
  ts <> [] -> exists t, vote ts = Some t.
Proof.
  intros Hne. unfold vote.
  destruct (tally_list ts) as [|x c] eqn:E; [|eexists; reflexivity].
  exfalso. destruct ts as [|t ts]; [congruence|].
  destruct (tally_list_dict (t :: ts)) as [_ Hc]. rewrite E in Hc.
  assert (H1 : 1 <= occurrences t (t :: ts))
    by (apply occurrences_pos; left; reflexivity).
  apply (proj2 (Hc t _) (conj eq_refl H1)).
Qed.

Lemma winner_unique (ts : list (list nat)) (t t' : list nat) :
  is_winner t ts -> is_winner t' ts -> t = t'.
Proof.
  intros [Hin H] [Hin' H'].
  destruct (H t' Hin') as [L1 E1]. destruct (H' t Hin) as [L2 E2].
  destruct (E1 ltac:(lia)) as [->|T1]; [reflexivity|].
  destruct (E2 ltac:(lia)) as [->|T2]; [reflexivity|].
  pose proof (tuple_ltb_trans _ _ _ T1 T2) as T.
  rewrite tuple_ltb_irrefl in T. discriminate.
Qed.

Lemma winner_vote (ts : list (list nat)) (t : list nat) :
  is_winner t ts -> vote ts = Some t.
Proof.
  intros H. destruct (vote_returns ts) as [t' E].
  - destruct H as [Hin _]. intros ->. contradiction.
  - rewrite E. f_equal. apply (winner_unique ts); [|exact H].
    apply vote_winner. exact E.
Qed.

End Tally.

Section VoteStability.

Local Open Scope nat_scope.

Lemma occurrences_perm (t : list nat) (l l' : list (list nat)) :
  Permutation l l' -> occurrences t l = occurrences t l'.
Proof.
  intros H. unfold occurrences.
  apply (proj1 (Permutation_count_occ (list_eq_dec Nat.eq_dec) l l') H).
Qed.

Lemma winner_perm (t : list nat) (l l' : list (list nat)) :
  Permutation l l' -> is_winner t l -> is_winner t l'.
Proof.
  intros HP [Hin H]. split; [apply (Permutation_in _ HP Hin)|].
  intros t' Ht'. apply (Permutation_in _ (Permutation_sym HP)) in Ht'.
  rewrite <- !(occurrences_perm _ l l' HP). apply H. exact Ht'.
Qed.

(** Replacing votes by votes for the winner leaves the winner in place. *)
Lemma winner_reinforced (M : list nat) (l l' : list (list nat)) :
  Forall2 (fun a b => b = a \/ b = M) l l' ->
  is_winner M l -> is_winner M l'.
Proof.
  intros HF [Hin H].
  assert (Hup : occurrences M l <= occurrences M l'
                /\ (forall t, t <> M -> occurrences t l' <= occurrences t l)
                /\ (In M l -> In M l')
                /\ (forall t, t <> M -> In t l' -> In t l)).
  { clear Hin H. induction HF as [|a b l l' Hab _ IH].
    - repeat split; auto.
    - destruct IH as (I1 & I2 & I3 & I4). unfold occurrences in *.
      cbn [count_occ]. repeat split.
      + destruct Hab as [->| ->].
        * destruct (list_eq_dec Nat.eq_dec a M); lia.
        * destruct (list_eq_dec Nat.eq_dec M M); [|congruence].
          destruct (list_eq_dec Nat.eq_dec a M); lia.
      + intros t Hne. specialize (I2 t Hne).
        destruct Hab as [->| ->].
        * destruct (list_eq_dec Nat.eq_dec a t); lia.
        * destruct (list_eq_dec Nat.eq_dec M t); [congruence|].
          destruct (list_eq_dec Nat.eq_dec a t); lia.
      + intros [->|Hm].
        * left. destruct Hab as [->| ->]; reflexivity.
        * right. apply I3. exact Hm.
      + intros t Hne [<-|Ht].
        * left. destruct Hab as [->| ->]; [reflexivity|congruence].
        * right. apply (I4 t Hne Ht). }
  destruct Hup as (U1 & U2 & U3 & U4). split; [apply U3; exact Hin|].
  intros t' Ht'. destruct (list_eq_dec Nat.eq_dec t' M) as [->|Hne].
  - split; [lia|]. intros _. left. reflexivity.
  - specialize (U2 t' Hne). destruct (H t' (U4 t' Hne Ht')) as [L E].
    split; [lia|]. intros Eq. apply E. lia.
Qed.

Lemma occurrences_constant {A : Type} (f : A -> list nat) (p : list nat)
  (l : list A) :
  (forall y, In y l -> f y = p) -> occurrences p (map f l) = length l.
Proof.
  induction l as [|y l IH]; intros H; [reflexivity|].
  unfold occurrences in *. cbn [map count_occ length].
  rewrite (H y (or_introl eq_refl)).
  destruct (list_eq_dec Nat.eq_dec p p); [|congruence].
  rewrite IH; [reflexivity|]. intros z Hz. apply H. right. exact Hz.
Qed.

(** All votes but at most one go to [p]. *)
Lemma occurrences_all_but_one {A : Type}
  (A_dec : forall a b : A, {a = b} + {a <> b})
  (f : A -> list nat) (p : list nat) (x0 : A) (l : list A) :
  NoDup l -> (forall y, In y l -> y <> x0 -> f y = p) ->
  length l <= occurrences p (map f l) + 1.
Proof.
  induction l as [|y l IH]; intros Hnd H; [simpl; lia|].
  inversion Hnd as [|? ? Hnotin Hnd']; subst.
  unfold occurrences in *. cbn [map count_occ length].
  destruct (list_eq_dec Nat.eq_dec (f y) p) as [E|E].
  - specialize (IH Hnd' (fun z Hz => H z (or_intror Hz))). lia.
  - assert (y = x0).
    { destruct (A_dec y x0) as [Hy|Hy]; [exact Hy|].
      exfalso. apply E. apply H; [left; reflexivity|exact Hy]. }
    subst y.
    pose proof (occurrences_constant f p l) as Hc. unfold occurrences in Hc.
    rewrite Hc; [lia|]. intros z Hz. apply H; [right; exact Hz|].
    intros ->. contradiction.
Qed.

Lemma occurrences_two (t p : list nat) (l : list (list nat)) :
  t <> p -> occurrences t l + occurrences p l <= length l.
Proof.
  intros Hne. unfold occurrences.
  induction l as [|x l IH]; cbn [count_occ length]; [lia|].
  destruct (list_eq_dec Nat.eq_dec x t), (list_eq_dec Nat.eq_dec x p);
    try lia. congruence.
Qed.

End VoteStability.

(** ** The symmetry-consensus pass *)

Lemma in_mesh_points (nq n m : nat) :
  In (n, m) (mesh_points nq) <-> (n < nq /\ m < nq)%nat.
Proof.
  unfold mesh_points, range. rewrite in_flat_map. split.
  - intros [a [Ha H]]. apply in_map_iff in H. destruct H as [b [E Hb]].
    injection E as -> ->. apply in_seq in Ha, Hb. lia.
  - intros [Hn Hm]. exists n. split; [apply in_seq; lia|].
    apply in_map_iff. exists m. split; [reflexivity|apply in_seq; lia].
Qed.

Lemma map_base_seq (base a k : nat) :
  map (fun m => (base + m)%nat) (seq a k) = seq (base + a) k.
Proof.
  revert a; induction k as [|k IH]; intros a; cbn [seq map]; [reflexivity|].
  rewrite IH. do 2 f_equal. lia.
Qed.

Lemma NoDup_mesh_points (nq : nat) : NoDup (mesh_points nq).
Proof.
  apply (NoDup_map_inv (fun p => (fst p * nq + snd p)%nat)).
  unfold mesh_points, range. rewrite map_flat_map.
  rewrite (flat_map_ext_in _ (fun n => seq (0 + n * nq) nq)).
  - rewrite flat_map_seq_blocks. apply seq_NoDup.
  - intros n _. rewrite map_map. cbn [fst snd].
    rewrite (map_base_seq (n * nq) 0 nq). f_equal. lia.
Qed.

Section ConsensusProofs.

Variable images : nat -> nat -> nat -> list (nat * nat).
Variable nq : nat.

(** The orbit structure of the mesh: the images of a mesh point are mesh
    points, the point is among them, and the images of an image are the
    same points, in some order. *)
Hypothesis images_on_mesh :
  forall n m N M, (n < nq)%nat -> (m < nq)%nat ->
    In (N, M) (images n m nq) -> (N < nq /\ M < nq)%nat.
Hypothesis images_self :
  forall n m, (n < nq)%nat -> (m < nq)%nat -> In (n, m) (images n m nq).
Hypothesis images_orbit :
  forall n m N M, (n < nq)%nat -> (m < nq)%nat ->
    In (N, M) (images n m nq) ->
    Permutation (images N M nq) (images n m nq).

Local Abbreviation seen := (seen images nq).

Lemma tally_seen (order : nat -> nat -> list nat) (n m : nat) :
  (n < nq)%nat -> (m < nq)%nat ->
  tally images nq order n m = Some (tally_list (seen order n m)).
Proof.
  intros Hn Hm. unfold tally, seen, tally_list.
  assert (G : forall l c0,
            (forall N M, In (N, M) l -> (N < nq /\ M < nq)%nat) ->
            for_each l
              (fun NM counts =>
                 new <- get_order nq order (fst NM) (snd NM) ;;
                 Some (count_one new counts)) c0
            = Some (fold_left (fun counts t => count_one t counts)
                              (map (fun NM => order (fst NM) (snd NM)) l)
                              c0)).
  { induction l as [|[N M] l IH]; intros c0 Hl; [reflexivity|].
    cbn [for_each map fold_left fst snd]. unfold get_order.
    destruct (Hl N M (or_introl eq_refl)) as [HN HM].
    destruct (Nat.ltb_spec N nq); [|lia].
    destruct (Nat.ltb_spec M nq); [|lia]. cbn [andb obind].
    apply IH. intros N' M' H'. apply Hl. right. exact H'. }
  apply G. intros N M H. apply (images_on_mesh n m); assumption.
Qed.

Lemma fix_point_vote (order : nat -> nat -> list nat) (n m : nat)
  (t : list nat) :
  (n < nq)%nat -> (m < nq)%nat -> vote (seen order n m) = Some t ->
  fix_point images nq n m order = Some (set_mesh order n m t).
Proof.
  intros Hn Hm Hv. unfold fix_point. rewrite tally_seen by assumption.
  cbn [obind]. unfold vote in Hv. rewrite Hv. reflexivity.
Qed.

Lemma fix_order_points (order : nat -> nat -> list nat) :
  fix_order images nq order
  = for_each (mesh_points nq)
             (fun p => fix_point images nq (fst p) (snd p)) order.
Proof.
  unfold fix_order, mesh_points. rewrite for_each_flat_map.
  apply for_each_ext; intros n s _. rewrite for_each_map. reflexivity.
Qed.

Variable order0 : nat -> nat -> list nat.

Local Abbreviation settling := (settling images nq order0).

Lemma seen_nonempty (order : nat -> nat -> list nat) (n m : nat) :
  (n < nq)%nat -> (m < nq)%nat -> seen order n m <> [].
Proof.
  intros Hn Hm E. pose proof (images_self n m Hn Hm) as H.
  unfold seen in E. destruct (images n m nq); [contradiction|discriminate].
Qed.

Lemma fix_point_settles (cur : nat -> nat -> list nat) (n m : nat) :
  (n < nq)%nat -> (m < nq)%nat -> settling cur ->
  exists M, is_winner M (seen order0 n m)
            /\ fix_point images nq n m cur = Some (set_mesh cur n m M).
Proof.
  intros Hn Hm Hs.
  destruct (vote_returns (seen order0 n m) (seen_nonempty order0 n m Hn Hm))
    as [M EM].
  pose proof (vote_winner _ _ EM) as HM.
  exists M. split; [exact HM|]. apply fix_point_vote; try assumption.
  apply winner_vote. apply (winner_reinforced M (seen order0 n m)); [|exact HM].
  unfold seen.
  assert (G : forall l,
            (forall N' M', In (N', M') l -> In (N', M') (images n m nq)) ->
            Forall2 (fun a b => b = a \/ b = M)
              (map (fun NM => order0 (fst NM) (snd NM)) l)
              (map (fun NM => cur (fst NM) (snd NM)) l)).
  { induction l as [|[N' M'] l IH]; intros Hl; cbn [map fst snd];
      constructor.
    - pose proof (Hl N' M' (or_introl eq_refl)) as Hin.
      destruct (images_on_mesh n m N' M' Hn Hm Hin) as [HN' HM'].
      destruct (Hs N' M' HN' HM') as [E|Hw]; [left; exact E|].
      right. apply (winner_unique (seen order0 n m)); [|exact HM].
      apply (winner_perm _ (seen order0 N' M')); [|exact Hw].
      unfold seen. apply Permutation_map.
      apply (images_orbit n m); assumption.
    - apply IH. intros N2 M2 H2. apply Hl. right. exact H2. }
  apply G. auto.
Qed.

Lemma pass_settles (pts : list (nat * nat)) (cur : nat -> nat -> list nat) :
  NoDup pts ->
  (forall n m, In (n, m) pts -> (n < nq /\ m < nq)%nat) ->
  settling cur ->
  exists cur',
    for_each pts (fun p => fix_point images nq (fst p) (snd p)) cur
    = Some cur'
    /\ settling cur'
    /\ (forall n m, In (n, m) pts ->
          is_winner (cur' n m) (seen order0 n m))
    /\ (forall n m, ~ In (n, m) pts -> cur' n m = cur n m).
Proof.
  revert cur; induction pts as [|[n m] pts IH]; intros cur Hnd Hr Hs.
  - exists cur. split; [reflexivity|]. split; [exact Hs|].
    split; [intros n m []|reflexivity].
  - inversion Hnd as [|? ? Hnotin Hnd']; subst.
    destruct (Hr n m (or_introl eq_refl)) as [Hn Hm].
    destruct (fix_point_settles cur n m Hn Hm Hs) as [M [HM E]].
    assert (Hs1 : settling (set_mesh cur n m M)).
    { intros n' m' Hn' Hm'. unfold set_mesh.
      destruct (Nat.eqb_spec n' n) as [->|]; [|apply Hs; assumption].
      destruct (Nat.eqb_spec m' m) as [->|]; [|apply Hs; assumption].
      right. exact HM. }
    destruct (IH (set_mesh cur n m M) Hnd'
                 (fun n' m' H' => Hr n' m' (or_intror H')) Hs1)
      as [cur' [E' [Hs' [Hw Hout]]]].
    exists cur'. cbn [for_each fst snd]. rewrite E. cbn [obind].
    split; [exact E'|]. split; [exact Hs'|]. split.
    + intros n' m' [H|H]; [|apply Hw; exact H]. injection H as <- <-.
      rewrite (Hout n m Hnotin). unfold set_mesh. rewrite !Nat.eqb_refl.
      exact HM.
    + intros n' m' Hn'. rewrite Hout by (intros H; apply Hn'; right; exact H).
      unfold set_mesh.
      destruct (Nat.eqb_spec n' n) as [->|]; [|reflexivity].
      destruct (Nat.eqb_spec m' m) as [->|]; [|reflexivity].
      exfalso. apply Hn'. left. reflexivity.
Qed.

(** The pass returns, and gives every mesh point the winner of the vote
    among the tuples that the array held at its images before the pass. *)
Lemma fix_order_winners :
  exists order',
    fix_order images nq order0 = Some order'
    /\ forall n m, (n < nq)%nat -> (m < nq)%nat ->
         is_winner (order' n m) (seen order0 n m).
Proof.
  rewrite fix_order_points.
  destruct (pass_settles (mesh_points nq) order0 (NoDup_mesh_points nq))
    as [order' [E [_ [Hw _]]]].
  - intros n m H. apply in_mesh_points. exact H.
  - intros n m _ _. left. reflexivity.
  - exists order'. split; [exact E|]. intros n m Hn Hm. apply Hw.
    apply in_mesh_points. split; assumption.
Qed.

End ConsensusProofs.

(** C8.  Let the images of the mesh points form orbits (the images of a mesh
    point are mesh points, the point among them, and the images of an image
    are the same points).  Then the pass returns, and the tuple it gives to a
    mesh point is the winner of the vote among the tuples held at the images
    of the point before the pass: none of them occurs more often, and those
    occurring as often are larger in the lexicographic order of tuples, a
    strict total order.  Hence an array that holds one tuple per orbit is
    left as it is, and in an orbit of six points of which five hold the same
    tuple all six hold that tuple after the pass. *)
Theorem C8_symmetry_consensus
  (images : nat -> nat -> nat -> list (nat * nat)) (nq : nat)
  (order : nat -> nat -> list nat) :
  (forall n m N M, (n < nq)%nat -> (m < nq)%nat ->
     In (N, M) (images n m nq) -> (N < nq /\ M < nq)%nat) ->
  (forall n m, (n < nq)%nat -> (m < nq)%nat -> In (n, m) (images n m nq)) ->
  (forall n m N M, (n < nq)%nat -> (m < nq)%nat ->
     In (N, M) (images n m nq) ->
     Permutation (images N M nq) (images n m nq)) ->
  exists order',
    fix_order images nq order = Some order'
    /\ (forall n m, (n < nq)%nat -> (m < nq)%nat ->
          let votes := seen images nq order n m in
          In (order' n m) votes
          /\ forall t, In t votes ->
               (occurrences t votes <= occurrences (order' n m) votes)%nat
               /\ (occurrences t votes = occurrences (order' n m) votes ->
                   t = order' n m \/ tuple_ltb (order' n m) t = true))
    /\ ((forall x, tuple_ltb x x = false)
        /\ (forall x y z, tuple_ltb x y = true -> tuple_ltb y z = true ->
                          tuple_ltb x z = true)
        /\ (forall x y, x = y \/ tuple_ltb x y = true
                        \/ tuple_ltb y x = true))
    /\ ((forall n m N M, (n < nq)%nat -> (m < nq)%nat ->
           In (N, M) (images n m nq) -> order N M = order n m) ->
        forall n m, (n < nq)%nat -> (m < nq)%nat -> order' n m = order n m)
    /\ (forall n0 m0 p, (n0 < nq)%nat -> (m0 < nq)%nat ->
          NoDup (images n0 m0 nq) -> length (images n0 m0 nq) = 6%nat ->
          (forall N M, In (N, M) (images n0 m0 nq) -> (N, M) <> (n0, m0) ->
                       order N M = p) ->
          forall N M, In (N, M) (images n0 m0 nq) -> order' N M = p).
Proof.
  intros Hmesh Hself Horbit.
  destruct (fix_order_winners images nq Hmesh Hself Horbit order)
    as [order' [E Hw]].
  exists order'. split; [exact E|]. split; [exact Hw|].
  split; [exact (conj tuple_ltb_irrefl
                      (conj tuple_ltb_trans tuple_ltb_total))|].
  split.
  - intros Hsame n m Hn Hm. destruct (Hw n m Hn Hm) as [Hin _].
    unfold seen in Hin. apply in_map_iff in Hin.
    destruct Hin as [[N M] [<- Hin]]. cbn [fst snd].
    apply (Hsame n m N M Hn Hm Hin).
  - intros n0 m0 p Hn0 Hm0 Hnd Hlen Hfive N M Hin.
    destruct (Hmesh n0 m0 N M Hn0 Hm0 Hin) as [HN HM].
    pose proof (winner_perm _ _ _
                  (Permutation_map (fun NM => order (fst NM) (snd NM))
                     (Horbit n0 m0 N M Hn0 Hm0 Hin))
                  (Hw N M HN HM)) as Hwin.
    fold (seen images nq order n0 m0) in Hwin.
    set (votes := seen images nq order n0 m0) in *.
    assert (Hp : (5 <= occurrences p votes)%nat).
    { pose proof (occurrences_all_but_one
                    (fun a b : nat * nat =>
                       ltac:(decide equality; apply Nat.eq_dec))
                    (fun NM => order (fst NM) (snd NM)) p (n0, m0)
                    (images n0 m0 nq) Hnd) as Hc.
      rewrite Hlen in Hc.
      assert (Hall : forall y, In y (images n0 m0 nq) -> y <> (n0, m0) ->
                               order (fst y) (snd y) = p).
      { intros [N' M'] Hy Hne. apply Hfive; assumption. }
      specialize (Hc Hall). unfold votes, seen. lia. }
    destruct (list_eq_dec Nat.eq_dec (order' N M) p) as [Eq|Hne];
      [exact Eq|exfalso].
    pose proof (occurrences_two _ _ votes Hne) as H2.
    assert (Hl : length votes = 6%nat)
      by (unfold votes, seen; rewrite length_map; exact Hlen).
    destruct Hwin as [_ Hmax].
    destruct (Hmax p (proj2 (occurrences_pos p votes) ltac:(lia))) as [L _].
    lia.
Qed.

(** *** A mesh of 3 x 3 points with hexagonal orbits *)

Lemma C8_symmetry_consensus_witness :
  exists order',
    fix_order hex3_images 3 one_off = Some order'
    /\ order' 1%nat 0%nat = [0; 1; 2]%nat.
Proof.
  destruct (C8_symmetry_consensus hex3_images 3 one_off)
    as [order' [E [_ [_ [_ Hsix]]]]].
  - intros n m N M Hn Hm.
    destruct n as [|[|[|n]]], m as [|[|[|m]]]; try lia; simpl;
      intuition (try congruence);
      match goal with H : (_, _) = (_, _) |- _ => injection H as <- <- end;
      lia.
  - intros n m Hn Hm.
    destruct n as [|[|[|n]]], m as [|[|[|m]]]; try lia; simpl; tauto.
  - intros n m N M Hn Hm.
    destruct n as [|[|[|n]]], m as [|[|[|m]]]; try lia; simpl;
      intuition (try congruence);
      match goal with H : (_, _) = (_, _) |- _ => injection H as <- <- end;
      apply Permutation_refl.
  - exists order'. split; [exact E|].
    apply (Hsix 1%nat 0%nat [0; 1; 2]%nat); try lia.
    + simpl. repeat constructor; simpl; intuition congruence.
    + reflexivity.
    + intros N M Hin Hne. simpl in Hin.
      intuition (try congruence);
        match goal with H : (_, _) = (_, _) |- _ => injection H as <- <- end;
        try reflexivity; congruence.
    + simpl. auto.
Defined.

(** ** Unknown lattice codes *)

(** C10 fails as stated: for the lattice code 1 no exception is raised;
    [read_flfrc] prints a message and returns [None] to its caller. *)
Lemma C10_counterexample :
  read_flfrc decimal_int decimal_float mzero [cubic_header]
    = Some (Nothing "Bravais lattice unknown")
  /\ read_flfrc decimal_int decimal_float mzero [cubic_header] <> None.
Proof. split; [reflexivity|discriminate]. Qed.

(** C10, as the code has it.  When the header line of the file gives three
    integers and the cell dimensions, and the lattice code is neither 0 nor
    4, [read_flfrc] raises nothing: it prints [Bravais lattice unknown] and
    returns [None], whatever the rest of the file holds, none of which is
    read. *)
Theorem C10_unknown_lattice_returns_nothing
  (py_int : string -> option Z) (py_float : string -> option R)
  (junk_block : mat3) (header : list string) (rest : list (list string))
  (ntyp nat_ ibrav : Z) (celldim : list R) :
  map_opt py_int (firstn 3 header) = Some [ntyp; nat_; ibrav] ->
  map_opt py_float (skipn 3 header) = Some celldim ->
  ibrav <> 0%Z -> ibrav <> 4%Z ->
  read_flfrc py_int py_float junk_block (header :: rest)
  = Some (Nothing "Bravais lattice unknown").
Proof.
  intros Hints Hdim H0 H4. unfold read_flfrc. cbn [cells].
  rewrite Hints. cbn [obind]. rewrite Hdim. cbn [obind].
  destruct (Z.eqb_spec ibrav 0); [contradiction|].
  destruct (Z.eqb_spec ibrav 4); [contradiction|].
  reflexivity.
Qed.

Lemma C10_unknown_lattice_returns_nothing_witness :
  read_flfrc decimal_int decimal_float mzero [cubic_header; ["junk"%string]]
  = Some (Nothing "Bravais lattice unknown").
Proof.
  apply (C10_unknown_lattice_returns_nothing decimal_int decimal_float mzero
           cubic_header [["junk"%string]] 1 1 1
           [IZR 10; IZR 0; IZR 0; IZR 0; IZR 0; IZR 0]);
    [reflexivity|reflexivity|discriminate|discriminate].
Defined.

(** ** The acoustic sum rule on the tensor itself *)

Lemma asr_no_atoms (phid : force_constants) :
  fc_nat phid = 0%nat -> asr phid = Some phid.
Proof. intros E. unfold asr. rewrite E. reflexivity. Qed.

Lemma asr_empty_axis (phid : force_constants) :
  (1 <= fc_nat phid)%nat ->
  (fc_nr1 phid = 0 \/ fc_nr2 phid = 0 \/ fc_nr3 phid = 0)%nat ->
  asr phid = None.
Proof.
  intros Hn He. unfold asr.
  destruct (fc_nat phid) as [|k]; [lia|].
  unfold range. cbn [seq for_each].
  replace ((0 <? fc_nr1 phid) && (0 <? fc_nr2 phid) && (0 <? fc_nr3 phid))%nat
    with false; [reflexivity|].
  symmetry. destruct He as [E|[E|E]]; rewrite E; cbn;
    rewrite ?andb_false_r; reflexivity.
Qed.

Lemma mat3_ext (K L : mat3) :
  (forall i j, (i < 3)%nat -> (j < 3)%nat -> mget K i j = mget L i j) ->
  K = L.
Proof.
  intros H.
  pose proof (H 0%nat 0%nat ltac:(lia) ltac:(lia)) as H00.
  pose proof (H 0%nat 1%nat ltac:(lia) ltac:(lia)) as H01.
  pose proof (H 0%nat 2%nat ltac:(lia) ltac:(lia)) as H02.
  pose proof (H 1%nat 0%nat ltac:(lia) ltac:(lia)) as H10.
  pose proof (H 1%nat 1%nat ltac:(lia) ltac:(lia)) as H11.
  pose proof (H 1%nat 2%nat ltac:(lia) ltac:(lia)) as H12.
  pose proof (H 2%nat 0%nat ltac:(lia) ltac:(lia)) as H20.
  pose proof (H 2%nat 1%nat ltac:(lia) ltac:(lia)) as H21.
  pose proof (H 2%nat 2%nat ltac:(lia) ltac:(lia)) as H22.
  clear H. mat_destruct. unfold mget in *. simpl in *. congruence.
Qed.

Lemma mget_msum (l : list mat3) (i j : nat) :
  mget (msum l) i j = Rsum (map (fun K => mget K i j) l).
Proof.
  induction l as [|K l IH]; unfold msum in *; cbn [fold_right map Rsum].
  - apply mget_mzero.
  - rewrite mget_madd, IH. reflexivity.
Qed.

Lemma mget_atom_blocks (p : force_constants) (a i j : nat) :
  mget (msum (atom_blocks p a)) i j
  = Rsum (map (fun b =>
      Rsum (map (fun m1 =>
        Rsum (map (fun m2 =>
          Rsum (map (fun m3 => mget (fc_phid p a b m1 m2 m3) i j)
                    (range (fc_nr3 p))))
          (range (fc_nr2 p))))
        (range (fc_nr1 p))))
      (range (fc_nat p))).
Proof.
  rewrite mget_msum. unfold atom_blocks.
  rewrite Rsum_flat_map. apply Rsum_ext. intros b _.
  rewrite Rsum_flat_map. apply Rsum_ext. intros m1 _.
  rewrite Rsum_flat_map. apply Rsum_ext. intros m2 _.
  rewrite map_map. reflexivity.
Qed.

Lemma asr_defined_shape (phid p : force_constants) :
  asr phid = Some p -> (1 <= fc_nat phid)%nat ->
  (1 <= fc_nr1 phid /\ 1 <= fc_nr2 phid /\ 1 <= fc_nr3 phid)%nat.
Proof.
  intros E Hn.
  destruct (Nat.eq_dec (fc_nr1 phid) 0) as [E1|E1];
    [rewrite asr_empty_axis in E by (auto; lia); discriminate|].
  destruct (Nat.eq_dec (fc_nr2 phid) 0) as [E2|E2];
    [rewrite asr_empty_axis in E by (auto; lia); discriminate|].
  destruct (Nat.eq_dec (fc_nr3 phid) 0) as [E3|E3];
    [rewrite asr_empty_axis in E by (auto; lia); discriminate|].
  lia.
Qed.

Lemma corrected_fixed (phid p p' : force_constants) :
  corrected_upto phid (fc_nat phid) p ->
  corrected_upto p (fc_nat p) p' ->
  same_tensor p' p.
Proof.
  intros (En & E1 & E2 & E3 & Hp) (En' & E1' & E2' & E3' & Hp').
  repeat split; try assumption.
  intros a b m1 m2 m3. rewrite Hp'.
  destruct ((a <? fc_nat p) && (b =? a) && (m1 =? 0) && (m2 =? 0)
            && (m3 =? 0))%nat eqn:Ec; [|reflexivity].
  apply andb_prop in Ec as [Ec Em3]. apply andb_prop in Ec as [Ec Em2].
  apply andb_prop in Ec as [Ec Em1]. apply andb_prop in Ec as [Ea Eb].
  apply Nat.eqb_eq in Eb, Em1, Em2, Em3. subst b m1 m2 m3.
  rewrite (Hp a a 0 0 0)%nat.
  rewrite En in Ea. rewrite Ea, !Nat.eqb_refl. cbn [andb].
  f_equal. f_equal. apply asr_terms_ext; try assumption.
  intros b m1 m2 m3. rewrite Hp.
  destruct ((a <? fc_nat phid) && (b =? a) && (m1 =? 0) && (m2 =? 0)
            && (m3 =? 0))%nat eqn:Ec; [right|left; reflexivity].
  apply andb_prop in Ec as [Ec Em3]. apply andb_prop in Ec as [Ec Em2].
  apply andb_prop in Ec as [Ec Em1]. apply andb_prop in Ec as [_ Eb].
  apply Nat.eqb_eq in Eb, Em1, Em2, Em3. auto.
Qed.

(** X1: [asr] raises exactly when there is an atom to correct and an axis
    of the grid is empty: the store into the cell [0, 0, 0] is then out of
    bounds.  Without atoms it returns at once, whatever the grid. *)
Theorem asr_raises_on_empty_grid (phid : force_constants) :
  asr phid = None
  <-> (1 <= fc_nat phid)%nat
      /\ (fc_nr1 phid = 0 \/ fc_nr2 phid = 0 \/ fc_nr3 phid = 0)%nat.
Proof.
  split.
  - intros E. destruct (Nat.eq_dec (fc_nat phid) 0) as [E0|E0].
    + rewrite asr_no_atoms in E by exact E0. discriminate.
    + split; [lia|].
      destruct (Nat.eq_dec (fc_nr1 phid) 0) as [E1|E1]; [auto|].
      destruct (Nat.eq_dec (fc_nr2 phid) 0) as [E2|E2]; [auto|].
      destruct (Nat.eq_dec (fc_nr3 phid) 0) as [E3|E3]; [auto|].
      destruct (asr_returns phid) as [p [Ep _]]; try lia. congruence.
  - intros [Hn He]. apply asr_empty_axis; assumption.
Qed.

(** X2: when [asr] returns, the blocks [phid[a, b, m1, m2, m3]] of every
    atom [a], over all atoms [b] and all cells, add up to zero, and [asr]
    applied to the result returns an array of the same shape and content. *)
Theorem asr_sum_rule_and_idempotence (phid p : force_constants) :
  asr phid = Some p ->
  (forall a, (a < fc_nat p)%nat -> msum (atom_blocks p a) = mzero)
  /\ exists p', asr p = Some p' /\ same_tensor p' p.
Proof.
  intros E. destruct (Nat.eq_dec (fc_nat phid) 0) as [E0|E0].
  - rewrite asr_no_atoms in E by exact E0. injection E as <-. split.
    + intros a Ha. lia.
    + exists phid. split; [apply asr_no_atoms; exact E0|].
      repeat split; reflexivity.
  - destruct (asr_defined_shape phid p E) as (H1 & H2 & H3); [lia|].
    destruct (asr_returns phid H1 H2 H3) as [p0 [Ep0 Hc]].
    assert (p0 = p) by congruence. subst p0.
    pose proof Hc as (En & E1 & E2 & E3 & Hp). split.
    + intros a Ha. apply mat3_ext. intros i j _ _.
      rewrite mget_atom_blocks, mget_mzero, En, E1, E2, E3.
      apply (asr_sum_rule phid H1 H2 H3 p); [exact Hc|lia].
    + destruct (asr_returns p) as [p' [Ep' Hc']]; try lia.
      exists p'. split; [exact Ep'|].
      apply (corrected_fixed phid); assumption.
Qed.

Lemma asr_sum_rule_and_idempotence_witness :
  exists p,
    asr (chain unit_lattice unit_lattice) = Some p
    /\ msum (atom_blocks p 0) = mzero.
Proof.
  destruct (asr_returns (chain unit_lattice unit_lattice)) as [p [E Hc]];
    simpl; try lia.
  exists p. split; [exact E|].
  apply (asr_sum_rule_and_idempotence _ p E).
  destruct Hc as [En _]. rewrite En. simpl. lia.
Defined.

Lemma asr_raises_on_empty_grid_witness :
  asr {| fc_nat := 2; fc_nr1 := 3; fc_nr2 := 0; fc_nr3 := 3;
         fc_phid := fun _ _ _ _ _ => mzero |} = None.
Proof. apply asr_raises_on_empty_grid. simpl. split; [lia|auto]. Defined.

(** ** A tolerance that selects nothing *)

Lemma selected_none (phid : force_constants) (lat : mat3) (tau : nat -> vec3)
  (eps : R) (na1 na2 m1 m2 m3 : nat) :
  eps <= 0 -> selected phid lat tau eps na1 na2 m1 m2 m3 = [].
Proof.
  intros He. rewrite selected_filter.
  rewrite (filter_constant _ _ false); [reflexivity|].
  intros c _. apply Rltb_false. intros H.
  pose proof (Rabs_pos (bond_length lat tau na1 na2 c
                        - shortest phid lat tau na1 na2 m1 m2 m3)). lra.
Qed.

Lemma cell_springs_none (phid : force_constants) (amass : nat -> R)
  (lat : mat3) (tau : nat -> vec3) (eps : R) (c : nat * nat * nat) :
  eps <= 0 -> cell_springs phid amass lat tau eps c = [].
Proof.
  intros He. destruct c as [[m1 m2] m3]. unfold cell_springs.
  apply flat_map_all_nil. intros na1 _.
  apply flat_map_all_nil. intros na2 _.
  unfold entry_springs. rewrite selected_none by exact He. reflexivity.
Qed.

(** X3: with a tolerance that is not positive no bond passes the test
    [abs(lengths - length) < eps]: no image is selected for any entry, the
    Spring List is empty for every number of workers, and the matrix is
    zero at every wavevector. *)
Theorem nonpositive_tolerance_selects_nothing
  (phid : force_constants) (amass : nat -> R) (lat : mat3)
  (tau : nat -> vec3) (eps : R) (junk_atoms : Z * Z) (junk_cell : cell)
  (junk_const : mat3) (W : nat) :
  eps <= 0 -> (1 <= W)%nat ->
  (forall na1 na2 m1 m2 m3,
     selected phid lat tau eps na1 na2 m1 m2 m3 = [])
  /\ spring_list phid amass lat tau eps junk_atoms junk_cell junk_const W
     = Some []
  /\ exists calculate,
       dynamical_matrix phid amass lat tau eps junk_atoms junk_cell
                        junk_const W = Some calculate
       /\ forall q1 q2 q3, calculate q1 q2 q3 = Some (fun _ _ => C0).
Proof.
  intros He HW.
  assert (Hws : forall r, worker_springs phid amass lat tau eps W r = []).
  { intros r. unfold worker_springs. apply flat_map_all_nil.
    intros c _. apply cell_springs_none. exact He. }
  assert (Hrun : spring_list phid amass lat tau eps junk_atoms junk_cell
                             junk_const W = Some []).
  { rewrite spring_list_spec.
    replace (forallb (fits phid amass lat tau eps W) (range W)) with true.
    - f_equal. apply flat_map_all_nil. intros r _. apply Hws.
    - symmetry. apply forallb_forall. intros r _. unfold fits.
      rewrite Hws. reflexivity. }
  split; [intros; apply selected_none; exact He|].
  split; [exact Hrun|].
  unfold dynamical_matrix. rewrite Hrun. cbn [obind].
  eexists. split; [reflexivity|]. intros q1 q2 q3. reflexivity.
Qed.

Lemma nonpositive_tolerance_selects_nothing_witness :
  spring_list (chain unit_lattice unit_lattice) (fun _ => 1) unit_lattice
              at_origin 0 (0, 0)%Z (0, 0, 0)%Z mzero 3 = Some [].
Proof.
  apply (nonpositive_tolerance_selects_nothing
           (chain unit_lattice unit_lattice) (fun _ => 1) unit_lattice
           at_origin 0 (0, 0)%Z (0, 0, 0)%Z mzero 3); [lra|lia].
Defined.

(** ** The size of the Spring List *)

Section SpringCount.

Local Open Scope nat_scope.

Lemma all_springs_length_le (phid : force_constants) (amass : nat -> R)
  (lat : mat3) (tau : nat -> vec3) (eps : R) :
  length (flat_map (cell_springs phid amass lat tau eps) (all_cells phid))
  <= 27 * (fc_nat phid ^ 2 * (fc_nr1 phid * fc_nr2 phid * fc_nr3 phid)).
Proof.
  eapply Nat.le_trans;
    [apply flat_map_length_le; intros c _; apply cell_springs_length_le|].
  rewrite length_all_cells, Nat.pow_2_r. nia.
Qed.

Lemma all_springs_length_ge (phid : force_constants) (amass : nat -> R)
  (lat : mat3) (tau : nat -> vec3) (eps : R) :
  (0 < eps)%R ->
  fc_nat phid ^ 2 * (fc_nr1 phid * fc_nr2 phid * fc_nr3 phid)
  <= length (flat_map (cell_springs phid amass lat tau eps) (all_cells phid)).
Proof.
  intros He.
  eapply Nat.le_trans;
    [|apply flat_map_length_ge; intros c _;
      apply cell_springs_length_ge; exact He].
  rewrite length_all_cells, Nat.pow_2_r. nia.
Qed.

(** X4: a run of a single worker always returns its Spring List; the list
    of any run that returns has at most 27 springs for each entry of the
    tensor and, with a positive tolerance, at least one. *)
Theorem spring_list_size
  (phid : force_constants) (amass : nat -> R) (lat : mat3)
  (tau : nat -> vec3) (eps : R) (junk_atoms : Z * Z) (junk_cell : cell)
  (junk_const : mat3) :
  (exists springs,
     spring_list phid amass lat tau eps junk_atoms junk_cell junk_const 1
     = Some springs)
  /\ forall W springs,
       1 <= W ->
       spring_list phid amass lat tau eps junk_atoms junk_cell junk_const W
       = Some springs ->
       length springs
       <= 27 * (fc_nat phid ^ 2 * (fc_nr1 phid * fc_nr2 phid * fc_nr3 phid))
       /\ ((0 < eps)%R ->
           fc_nat phid ^ 2 * (fc_nr1 phid * fc_nr2 phid * fc_nr3 phid)
           <= length springs).
Proof.
  split.
  - eexists. apply spring_list_alone.
  - intros W springs HW Hrun.
    pose proof (spring_list_all_cells phid amass lat tau eps junk_atoms
                  junk_cell junk_const W springs HW Hrun) as HP.
    rewrite (Permutation_length HP). split.
    + apply all_springs_length_le.
    + apply all_springs_length_ge.
Qed.

End SpringCount.

Lemma spring_list_size_witness :
  (length [ {| sp_atoms := (0, 0)%Z; sp_cell := (0, 0, 0)%Z;
               sp_const := mdiv mzero 1 |};
            {| sp_atoms := (0, 0)%Z; sp_cell := (-1, 0, 0)%Z;
               sp_const := mscale (/ 2) (mdiv unit_lattice 1) |};
            {| sp_atoms := (0, 0)%Z; sp_cell := (1, 0, 0)%Z;
               sp_const := mscale (/ 2) (mdiv unit_lattice 1) |} ]
   <= 27 * (1 ^ 2 * (2 * 1 * 1)))%nat.
Proof.
  refine (proj1 (proj2 (spring_list_size (chain mzero unit_lattice)
                          (fun _ => 1) unit_lattice at_origin 1e-7
                          (0, 0)%Z (0, 0, 0)%Z mzero) 1%nat _ _ _)); [lia|].
  rewrite spring_list_alone. f_equal. apply chain_springs. lra.
Defined.

(** ** Any number of workers gives the same matrix *)

(** X5: the matrix does not depend on the number of workers that built the
    Spring List: for at most 128 atoms, the functions returned by two runs
    that return give, at every wavevector, matrices with the same
    elements. *)
Theorem dynamical_matrix_any_workers
  (phid : force_constants) (amass : nat -> R) (lat : mat3)
  (tau : nat -> vec3) (eps : R) (junk_atoms : Z * Z) (junk_cell : cell)
  (junk_const : mat3) (W W' : nat)
  (calculate calculate' : R -> R -> R -> option cmatrix) :
  (1 <= W)%nat -> (1 <= W')%nat -> (fc_nat phid <= 128)%nat ->
  dynamical_matrix phid amass lat tau eps junk_atoms junk_cell junk_const W
  = Some calculate ->
  dynamical_matrix phid amass lat tau eps junk_atoms junk_cell junk_const W'
  = Some calculate' ->
  forall q1 q2 q3,
    exists D D',
      calculate q1 q2 q3 = Some D /\ calculate' q1 q2 q3 = Some D'
      /\ forall i j, D i j = D' i j.
Proof.
  intros HW HW' Hn Hc Hc' q1 q2 q3. unfold dynamical_matrix in Hc, Hc'.
  destruct (spring_list phid amass lat tau eps junk_atoms junk_cell
                        junk_const W) as [springs|] eqn:Hrun; [|discriminate].
  destruct (spring_list phid amass lat tau eps junk_atoms junk_cell
                        junk_const W') as [springs'|] eqn:Hrun';
    [|discriminate].
  cbn [obind] in Hc, Hc'. injection Hc as <-. injection Hc' as <-.
  pose proof (spring_list_all_cells phid amass lat tau eps junk_atoms
                junk_cell junk_const W springs HW Hrun) as HP.
  pose proof (spring_list_all_cells phid amass lat tau eps junk_atoms
                junk_cell junk_const W' springs' HW' Hrun') as HP'.
  assert (Hw : forall l,
             Permutation l (flat_map (cell_springs phid amass lat tau eps)
                                     (all_cells phid)) ->
             Forall (well_indexed (fc_nat phid)) l).
  { intros l Hl. apply Forall_forall. intros s Hs.
    apply (all_springs_well_indexed phid amass lat tau eps Hn).
    apply (Permutation_in _ Hl). exact Hs. }
  destruct (evaluator_sum (fc_nat phid) q1 q2 q3 springs (Hw _ HP))
    as [D [ED HD]].
  destruct (evaluator_sum (fc_nat phid) q1 q2 q3 springs' (Hw _ HP'))
    as [D' [ED' HD']].
  exists D, D'. split; [exact ED|]. split; [exact ED'|].
  intros i j. rewrite HD, HD'. apply Csum_perm. apply Permutation_map.
  apply (Permutation_trans HP). apply Permutation_sym. exact HP'.
Qed.

(** ** Worker counts that divide the number of cells *)

Section EvenShares.

Local Open Scope nat_scope.

Lemma filter_only {A : Type} (p : A -> bool) (l : list A) (x0 : A) :
  NoDup l -> In x0 l -> p x0 = true ->
  (forall x, In x l -> p x = true -> x = x0) ->
  filter p l = [x0].
Proof.
  induction l as [|x l IH]; intros Hnd Hin Hp Hu; [contradiction|].
  inversion Hnd as [|? ? Hnotin Hnd']; subst. cbn [filter].
  destruct Hin as [->|Hin].
  - rewrite Hp. f_equal.
    rewrite (filter_constant p l false); [reflexivity|].
    intros y Hy. destruct (p y) eqn:Ey; [|reflexivity].
    rewrite (Hu y (or_intror Hy) Ey) in Hy. contradiction.
  - destruct (p x) eqn:Ex.
    + rewrite (Hu x (or_introl eq_refl) Ex) in Hnotin. contradiction.
    + apply IH; auto. intros y Hy. apply Hu. right. exact Hy.
Qed.

(** Among [W] numbers in a row exactly one leaves the remainder [r]. *)
Lemma one_per_block (W r a : nat) :
  r < W ->
  length (filter (fun i => i mod W =? r) (seq a W)) = 1.
Proof.
  intros Hr. induction a as [|a IH].
  - rewrite (filter_only _ _ r); [reflexivity|apply seq_NoDup| | |].
    + apply in_seq. lia.
    + rewrite Nat.mod_small by lia. apply Nat.eqb_refl.
    + intros x Hx E. apply in_seq in Hx. rewrite Nat.mod_small in E by lia.
      apply Nat.eqb_eq in E. exact E.
  - pose proof (seq_S W a) as E1.
    assert (E2 : seq a (S W) = a :: seq (S a) W) by reflexivity.
    assert (E : length (filter (fun i => i mod W =? r) (seq a (S W)))
                = length (filter (fun i => i mod W =? r) (seq a (S W))))
      by reflexivity.
    rewrite E1 in E at 1. rewrite E2 in E.
    rewrite filter_app, length_app, IH in E. cbn [filter] in E.
    replace ((a + W) mod W) with (a mod W) in E
      by (rewrite <- (Nat.mul_1_l W) at 2; rewrite Nat.Div0.mod_add;
          reflexivity).
    destruct (a mod W =? r); cbn [length] in E; lia.
Qed.

Lemma residue_count (W r k a : nat) :
  r < W ->
  length (filter (fun i => i mod W =? r) (seq a (k * W))) = k.
Proof.
  intros Hr. revert a. induction k as [|k IH]; intros a; [reflexivity|].
  replace (S k * W) with (W + k * W) by lia.
  rewrite seq_app, filter_app, length_app, one_per_block, IH by exact Hr.
  reflexivity.
Qed.

Lemma filter_map_length {A B : Type} (f : A -> B) (p : B -> bool)
  (l : list A) :
  length (filter (fun x => p (f x)) l) = length (filter p (map f l)).
Proof.
  induction l as [|x l IH]; [reflexivity|]. cbn [map filter].
  destruct (p (f x)); cbn [length]; rewrite IH; reflexivity.
Qed.

(** With a number of workers that divides the number of cells every worker
    owns the same number of cells. *)
Lemma owned_cells_even (phid : force_constants) (W r : nat) :
  r < W -> (fc_nr1 phid * fc_nr2 phid * fc_nr3 phid) mod W = 0 ->
  length (owned_cells phid W r)
  = fc_nr1 phid * fc_nr2 phid * fc_nr3 phid / W.
Proof.
  intros Hr Hd. rewrite owned_cells_filter.
  rewrite (filter_map_length (counter phid) (fun i => i mod W =? r)).
  rewrite counter_all_cells.
  pose proof (Nat.div_mod_eq (fc_nr1 phid * fc_nr2 phid * fc_nr3 phid) W)
    as E.
  rewrite Hd, Nat.add_0_r, (Nat.mul_comm W) in E.
  set (k := fc_nr1 phid * fc_nr2 phid * fc_nr3 phid / W) in *.
  rewrite E. apply residue_count. exact Hr.
Qed.

Lemma even_shares_hold
  (phid : force_constants) (amass : nat -> R) (lat : mat3)
  (tau : nat -> vec3) (eps : R) (W r : nat) :
  r < W -> (fc_nr1 phid * fc_nr2 phid * fc_nr3 phid) mod W = 0 ->
  length (worker_springs phid amass lat tau eps W r) <= maxdim phid W.
Proof.
  intros Hr Hd. unfold worker_springs.
  eapply Nat.le_trans;
    [apply flat_map_length_le; intros c _; apply cell_springs_length_le|].
  rewrite owned_cells_even by assumption.
  unfold maxdim. change (length supercells ^ 3) with 27.
  pose proof (Nat.div_mod_eq (fc_nr1 phid * fc_nr2 phid * fc_nr3 phid) W)
    as E.
  rewrite Hd, Nat.add_0_r in E.
  set (k := fc_nr1 phid * fc_nr2 phid * fc_nr3 phid / W) in *.
  replace (fc_nat phid ^ 2 * fc_nr1 phid * fc_nr2 phid * fc_nr3 phid * 27)
    with (fc_nat phid ^ 2 * 27 * k * W)
    by (transitivity (fc_nat phid ^ 2 * 27
                      * (fc_nr1 phid * fc_nr2 phid * fc_nr3 phid));
        [rewrite E; ring|ring]).
  rewrite Nat.div_mul by lia. rewrite Nat.pow_2_r. nia.
Qed.

Lemma even_shares_return
  (phid : force_constants) (amass : nat -> R) (lat : mat3)
  (tau : nat -> vec3) (eps : R) (junk_atoms : Z * Z) (junk_cell : cell)
  (junk_const : mat3) (W : nat) :
  1 <= W -> (fc_nr1 phid * fc_nr2 phid * fc_nr3 phid) mod W = 0 ->
  exists springs,
    spring_list phid amass lat tau eps junk_atoms junk_cell junk_const W
    = Some springs.
Proof.
  intros HW Hd. rewrite spring_list_spec.
  replace (forallb (fits phid amass lat tau eps W) (range W)) with true.
  - eexists. reflexivity.
  - symmetry. apply forallb_forall. intros r Hr. apply in_seq in Hr.
    unfold fits. apply Nat.leb_le. apply even_shares_hold; [lia|exact Hd].
Qed.

(** X6: when the number of workers divides the number of cells of the
    grid, every worker owns the same number of cells, no worker saves more
    springs than [maxdim], and the run returns its Spring List. *)
Theorem even_shares_fit
  (phid : force_constants) (amass : nat -> R) (lat : mat3)
  (tau : nat -> vec3) (eps : R) (junk_atoms : Z * Z) (junk_cell : cell)
  (junk_const : mat3) (W : nat) :
  1 <= W -> (fc_nr1 phid * fc_nr2 phid * fc_nr3 phid) mod W = 0 ->
  (forall r, r < W ->
     length (owned_cells phid W r)
     = fc_nr1 phid * fc_nr2 phid * fc_nr3 phid / W
     /\ length (worker_springs phid amass lat tau eps W r) <= maxdim phid W)
  /\ exists springs,
       spring_list phid amass lat tau eps junk_atoms junk_cell junk_const W
       = Some springs.
Proof.
  intros HW Hd. split.
  - intros r Hr. split; [apply owned_cells_even; assumption|].
    apply even_shares_hold; assumption.
  - apply even_shares_return; assumption.
Qed.

End EvenShares.

Lemma even_shares_fit_witness :
  exists springs,
    spring_list (chain unit_lattice unit_lattice) (fun _ => 1) unit_lattice
                at_origin 1e-7 (0, 0)%Z (0, 0, 0)%Z mzero 2 = Some springs.
Proof.
  apply (even_shares_fit (chain unit_lattice unit_lattice) (fun _ => 1)
           unit_lattice at_origin 1e-7 (0, 0)%Z (0, 0, 0)%Z mzero 2);
    [lia|reflexivity].
Defined.

Lemma dynamical_matrix_any_workers_witness :
  exists calculate calculate' D D',
    dynamical_matrix (chain unit_lattice unit_lattice) (fun _ => 1)
                     unit_lattice at_origin 1e-7 (0, 0)%Z (0, 0, 0)%Z mzero 1
    = Some calculate
    /\ dynamical_matrix (chain unit_lattice unit_lattice) (fun _ => 1)
                        unit_lattice at_origin 1e-7 (0, 0)%Z (0, 0, 0)%Z
                        mzero 2
       = Some calculate'
    /\ calculate 1 0 0 = Some D /\ calculate' 1 0 0 = Some D'
    /\ forall i j, D i j = D' i j.
Proof.
  destruct (even_shares_return (chain unit_lattice unit_lattice)
              (fun _ => 1) unit_lattice at_origin 1e-7 (0, 0)%Z (0, 0, 0)%Z
              mzero 2 ltac:(lia) eq_refl) as [springs' E'].
  pose proof (spring_list_alone (chain unit_lattice unit_lattice)
                (fun _ => 1) unit_lattice at_origin 1e-7 (0, 0)%Z
                (0, 0, 0)%Z mzero) as E.
  assert (Hd : dynamical_matrix (chain unit_lattice unit_lattice)
                 (fun _ => 1) unit_lattice at_origin 1e-7 (0, 0)%Z
                 (0, 0, 0)%Z mzero 1 = Some _)
    by (unfold dynamical_matrix; rewrite E; reflexivity).
  assert (Hd' : dynamical_matrix (chain unit_lattice unit_lattice)
                  (fun _ => 1) unit_lattice at_origin 1e-7 (0, 0)%Z
                  (0, 0, 0)%Z mzero 2 = Some _)
    by (unfold dynamical_matrix; rewrite E'; reflexivity).
  destruct (dynamical_matrix_any_workers
              (chain unit_lattice unit_lattice) (fun _ => 1) unit_lattice
              at_origin 1e-7 (0, 0)%Z (0, 0, 0)%Z mzero 1 2 _ _
              (le_n 1) (le_S _ _ (le_n 1)) ltac:(simpl; lia) Hd Hd' 1 0 0)
    as (D & D' & H1 & H2 & H).
  eexists. eexists. exists D, D'.
  split; [exact Hd|]. split; [exact Hd'|]. auto.
Defined.

(** ** The matrix as a function of the wavevector *)

Lemma cos_period_Z (x : R) (k : Z) : cos (x + 2 * IZR k * PI) = cos x.
Proof.
  destruct (Z_le_gt_dec 0 k) as [Hk|Hk].
  - rewrite <- (Z2Nat.id k Hk), <- INR_IZR_INZ. apply cos_period.
  - rewrite <- (cos_period (x + 2 * IZR k * PI) (Z.to_nat (- k))).
    rewrite INR_IZR_INZ, Z2Nat.id by lia. rewrite opp_IZR. f_equal. ring.
Qed.

Lemma sin_period_Z (x : R) (k : Z) : sin (x + 2 * IZR k * PI) = sin x.
Proof.
  destruct (Z_le_gt_dec 0 k) as [Hk|Hk].
  - rewrite <- (Z2Nat.id k Hk), <- INR_IZR_INZ. apply sin_period.
  - rewrite <- (sin_period (x + 2 * IZR k * PI) (Z.to_nat (- k))).
    rewrite INR_IZR_INZ, Z2Nat.id by lia. rewrite opp_IZR. f_equal. ring.
Qed.

(** Two steps of the loop over the springs whose blocks are related by a map
    [phi] that respects sums either both raise or give related matrices. *)
Lemma add_spring_related (phi : complex -> complex) (nat_ : nat)
  (q1 q2 q3 q1' q2' q3' : R) (s : spring) (D0 D0' D1 : cmatrix) :
  (forall z w, phi (Cadd z w) = Cadd (phi z) (phi w)) ->
  (forall i j,
     spring_block s q1' q2' q3' i j = phi (spring_block s q1 q2 q3 i j)) ->
  (forall i j, D0' i j = phi (D0 i j)) ->
  add_spring nat_ q1 q2 q3 s D0 = Some D1 ->
  exists D1', add_spring nat_ q1' q2' q3' s D0' = Some D1'
              /\ forall i j, D1' i j = phi (D1 i j).
Proof.
  intros Hadd Hb H0. unfold add_spring, iadd_block.
  destruct (nat_ =? 0)%nat; [discriminate|].
  destruct ((length _ =? 3) && (length _ =? 3))%nat; [|discriminate].
  intros E. injection E as <-. eexists. split; [reflexivity|].
  intros i j. cbv beta.
  destruct (index_of i _); [destruct (index_of j _)|]; try apply H0.
  rewrite Hadd, H0, Hb. reflexivity.
Qed.

Lemma evaluator_related (phi : complex -> complex) (nat_ : nat)
  (q1 q2 q3 q1' q2' q3' : R) (springs : list spring) :
  (forall z w, phi (Cadd z w) = Cadd (phi z) (phi w)) ->
  (forall s i j,
     spring_block s q1' q2' q3' i j = phi (spring_block s q1 q2 q3 i j)) ->
  forall D D0 D0',
    (forall i j, D0' i j = phi (D0 i j)) ->
    for_each springs (add_spring nat_ q1 q2 q3) D0 = Some D ->
    exists D', for_each springs (add_spring nat_ q1' q2' q3') D0' = Some D'
               /\ forall i j, D' i j = phi (D i j).
Proof.
  intros Hadd Hb. induction springs as [|s springs IH]; intros D D0 D0' H0 E.
  - cbn [for_each] in *. injection E as <-. exists D0'. auto.
  - change (obind (add_spring nat_ q1 q2 q3 s D0)
                  (for_each springs (add_spring nat_ q1 q2 q3)) = Some D) in E.
    change (exists D',
              obind (add_spring nat_ q1' q2' q3' s D0')
                    (for_each springs (add_spring nat_ q1' q2' q3')) = Some D'
              /\ forall i j, D' i j = phi (D i j)).
    destruct (add_spring nat_ q1 q2 q3 s D0) as [D1|] eqn:E1;
      [|discriminate].
    destruct (add_spring_related phi nat_ q1 q2 q3 q1' q2' q3' s D0 D0' D1
                Hadd (Hb s) H0 E1) as [D1' [E1' H1]].
    rewrite E1'. unfold obind in E |- *. apply (IH D D1 D1' H1 E).
Qed.

Lemma spring_block_period (s : spring) (q1 q2 q3 : R) (k1 k2 k3 : Z)
  (i j : nat) :
  spring_block s (q1 + 2 * IZR k1 * PI) (q2 + 2 * IZR k2 * PI)
               (q3 + 2 * IZR k3 * PI) i j
  = spring_block s q1 q2 q3 i j.
Proof.
  unfold spring_block. rewrite !Cexp_i.
  destruct (sp_cell s) as [[c1 c2] c3]. unfold cell_dot_q.
  replace (IZR c1 * (q1 + 2 * IZR k1 * PI) + IZR c2 * (q2 + 2 * IZR k2 * PI)
           + IZR c3 * (q3 + 2 * IZR k3 * PI))
    with (IZR c1 * q1 + IZR c2 * q2 + IZR c3 * q3
          + 2 * IZR (c1 * k1 + c2 * k2 + c3 * k3) * PI)
    by (rewrite !plus_IZR, !mult_IZR; ring).
  rewrite cos_period_Z, sin_period_Z. reflexivity.
Qed.

Lemma spring_block_opp (s : spring) (q1 q2 q3 : R) (i j : nat) :
  spring_block s (- q1) (- q2) (- q3) i j
  = Cconj (spring_block s q1 q2 q3 i j).
Proof.
  unfold spring_block. rewrite !Cexp_i.
  destruct (sp_cell s) as [[c1 c2] c3]. unfold cell_dot_q.
  replace (IZR c1 * - q1 + IZR c2 * - q2 + IZR c3 * - q3)
    with (- (IZR c1 * q1 + IZR c2 * q2 + IZR c3 * q3)) by ring.
  rewrite cos_neg, sin_neg. complex_eq.
Qed.

(** X7: the matrix has the period [2 * pi] in each component of the
    wavevector: shifting the components by whole multiples of [2 * pi]
    changes neither whether the evaluation returns nor any element. *)
Theorem evaluator_periodic (nat_ : nat) (springs : list spring)
  (q1 q2 q3 : R) (k1 k2 k3 : Z) (D : cmatrix) :
  calculate_dynamical_matrix nat_ springs q1 q2 q3 = Some D ->
  exists D',
    calculate_dynamical_matrix nat_ springs (q1 + 2 * IZR k1 * PI)
      (q2 + 2 * IZR k2 * PI) (q3 + 2 * IZR k3 * PI) = Some D'
    /\ forall i j, D' i j = D i j.
Proof.
  intros E. unfold calculate_dynamical_matrix in *.
  apply (evaluator_related (fun z => z) nat_ q1 q2 q3 _ _ _ springs)
    with (D0 := fun _ _ => C0); auto.
  intros s i j. apply spring_block_period.
Qed.

(** X8: reversing the wavevector conjugates every element of the matrix;
    at the zero wavevector the matrix is real. *)
Theorem evaluator_reversed (nat_ : nat) (springs : list spring)
  (q1 q2 q3 : R) (D : cmatrix) :
  calculate_dynamical_matrix nat_ springs q1 q2 q3 = Some D ->
  (exists D',
     calculate_dynamical_matrix nat_ springs (- q1) (- q2) (- q3) = Some D'
     /\ forall i j, D' i j = Cconj (D i j))
  /\ (q1 = 0 -> q2 = 0 -> q3 = 0 -> forall i j, snd (D i j) = 0).
Proof.
  intros E.
  assert (G : exists D',
             calculate_dynamical_matrix nat_ springs (- q1) (- q2) (- q3)
             = Some D'
             /\ forall i j, D' i j = Cconj (D i j)).
  { unfold calculate_dynamical_matrix in *.
    apply (evaluator_related Cconj nat_ q1 q2 q3 _ _ _ springs)
      with (D0 := fun _ _ => C0); auto.
    - apply Cconj_add.
    - intros s i j. apply spring_block_opp.
    - intros i j. symmetry. apply Cconj_0. }
  split; [exact G|].
  intros -> -> -> i j. destruct G as [D' [E' H']].
  rewrite Ropp_0 in E'. rewrite E in E'. injection E' as <-.
  specialize (H' i j). destruct (D i j) as [x y]. unfold Cconj in H'.
  cbn [fst snd] in *. injection H' as H'. lra.
Qed.

(** ** The layout of the matrix *)

(** X9: the rows and columns of the matrix run over the atoms first and
    over the Cartesian directions second: when every atom index of the
    springs is at least 0 and below [nat], the element in row
    [k * nat + a] and column [l * nat + b] is the sum, over the springs of
    the atoms [a] and [b], of [C[k, l] * exp(1j * R.dot(q))].  A spring one
    of whose atom indices is [nat] or more, or negative and not below
    [-2 * nat], makes the evaluation raise: its slice has fewer than three
    rows. *)
Theorem evaluator_layout (nat_ : nat) (springs : list spring)
  (q1 q2 q3 : R) :
  (Forall (well_indexed nat_) springs ->
   exists D,
     calculate_dynamical_matrix nat_ springs q1 q2 q3 = Some D
     /\ forall k l a b,
          (k < 3)%nat -> (l < 3)%nat -> (a < nat_)%nat -> (b < nat_)%nat ->
          D (k * nat_ + a)%nat (l * nat_ + b)%nat
          = Csum (map (fun s =>
                    if ((fst (sp_atoms s) =? Z.of_nat a)
                        && (snd (sp_atoms s) =? Z.of_nat b))%Z
                    then Cmul (RtoC (mget (sp_const s) k l))
                              (cos (cell_dot_q (sp_cell s) q1 q2 q3),
                               sin (cell_dot_q (sp_cell s) q1 q2 q3))
                    else C0) springs))
  /\ ((1 <= nat_)%nat ->
      (exists s a, In s springs
                   /\ (a = fst (sp_atoms s) \/ a = snd (sp_atoms s))
                   /\ (Z.of_nat nat_ <= a
                       \/ - 2 * Z.of_nat nat_ <= a < 0)%Z) ->
      calculate_dynamical_matrix nat_ springs q1 q2 q3 = None).
Proof.
  split.
  - intros Hw. destruct (evaluator_sum nat_ q1 q2 q3 springs Hw)
      as [D [E H]].
    exists D. split; [exact E|]. intros k l a b Hk Hl Ha Hb. rewrite H.
    f_equal. apply map_ext_in. intros s Hs.
    rewrite Forall_forall in Hw.
    destruct (well_indexed_atoms nat_ s (Hw s Hs))
      as (a' & b' & Ha' & Hb' & Es).
    unfold spring_term. rewrite Es. cbn [fst snd].
    rewrite !slice_indices_atom by assumption.
    rewrite !index_of_row by assumption.
    destruct (Nat.eqb_spec a a') as [->|Hne].
    + rewrite Z.eqb_refl. cbn [andb].
      destruct (Nat.eqb_spec b b') as [->|Hne'].
      * rewrite Z.eqb_refl. unfold spring_block. rewrite Cexp_i.
        reflexivity.
      * replace (Z.of_nat b' =? Z.of_nat b)%Z with false
          by (symmetry; apply Z.eqb_neq; lia).
        reflexivity.
    + replace (Z.of_nat a' =? Z.of_nat a)%Z with false
        by (symmetry; apply Z.eqb_neq; lia).
      reflexivity.
  - intros Hn [s [a [Hs [Ea Ha]]]]. unfold calculate_dynamical_matrix.
    apply (for_each_raises _ _ s); [exact Hs|].
    intros D. apply add_spring_short; [exact Hn|].
    destruct Ea as [->| ->]; [left|right]; exact Ha.
Qed.

(** ** Uninitialised arrays *)

Lemma py_max_key_ext (l : list nat) (key key' : nat -> R) :
  (forall x, In x l -> key x = key' x) ->
  py_max_key l key = py_max_key l key'.
Proof.
  destruct l as [|x l]; [reflexivity|]. intros H. cbn [py_max_key]. f_equal.
  assert (G : forall l' best,
            key best = key' best -> (forall y, In y l' -> key y = key' y) ->
            fold_left (fun best y => if Rltb (key best) (key y) then y
                                     else best) l' best
            = fold_left (fun best y => if Rltb (key' best) (key' y) then y
                                       else best) l' best).
  { induction l' as [|y l' IH]; intros best Hb Hl; [reflexivity|].
    cbn [fold_left]. rewrite Hb, (Hl y (or_introl eq_refl)).
    destruct (Rltb (key' best) (key' y)); apply IH;
      try (intros z Hz; apply Hl; right; exact Hz);
      [apply Hl; left; reflexivity|exact Hb]. }
  apply G; [apply H; left; reflexivity|].
  intros y Hy. apply H. right. exact Hy.
Qed.

Lemma matched_same (N bands : nat) (w : nat -> nat -> R)
  (e : nat -> nat -> nat -> complex) (order order' : nat -> nat -> nat) :
  matched_below bands w e N order -> matched_below bands w e N order' ->
  forall n nu, (n < N)%nat -> (nu < bands)%nat -> order n nu = order' n nu.
Proof.
  intros [H0 Hm] [H0' Hm'] n.
  induction n as [n IH] using lt_wf_ind. intros nu Hn Hnu.
  destruct (Nat.eq_dec n 0) as [->|Hne]; [rewrite H0, H0'; reflexivity|].
  pose proof (reference_lt bands w n ltac:(lia)) as Hr.
  pose proof (Hm n nu ltac:(lia) Hnu) as E.
  pose proof (Hm' n nu ltac:(lia) Hnu) as E'.
  rewrite (py_max_key_ext _ _
             (overlap bands e order' (reference bands w n) n nu)) in E.
  - congruence.
  - intros mu _. apply overlap_ext. apply IH; [exact Hr|lia|exact Hnu].
Qed.

(** X10: the content of the fresh arrays never reaches a result: the
    Spring List does not depend on what [np.empty] left in the buffers, and
    whether [band_order] returns and the band order of the points of the
    path do not depend on what it left in [order]. *)
Theorem fresh_arrays_do_not_leak :
  (forall (phid : force_constants) (amass : nat -> R) (lat : mat3)
          (tau : nat -> vec3) (eps : R) (W : nat)
          (junk_atoms junk_atoms' : Z * Z) (junk_cell junk_cell' : cell)
          (junk_const junk_const' : mat3),
     spring_list phid amass lat tau eps junk_atoms junk_cell junk_const W
     = spring_list phid amass lat tau eps junk_atoms' junk_cell' junk_const'
                   W)
  /\ (forall (N bands : nat) (w : nat -> nat -> R)
             (e : nat -> nat -> nat -> complex)
             (junk_order junk_order' : nat -> nat -> nat),
        (band_order N bands w e junk_order = None
         <-> band_order N bands w e junk_order' = None)
        /\ forall order order',
             band_order N bands w e junk_order = Some order ->
             band_order N bands w e junk_order' = Some order' ->
             forall n nu, (n < N)%nat -> (nu < bands)%nat ->
               order n nu = order' n nu).
Proof.
  split.
  - intros. rewrite !spring_list_spec. reflexivity.
  - intros N bands w e junk junk'. destruct (Nat.eq_dec N 0) as [->|HN].
    + split; [split; reflexivity|]. intros order order' _ _ n nu Hn. lia.
    + destruct (band_order_matched N bands w e junk ltac:(lia))
        as [o [E Hm]].
      destruct (band_order_matched N bands w e junk' ltac:(lia))
        as [o' [E' Hm']].
      split; [rewrite E, E'; split; discriminate|].
      intros order order' H H'. rewrite E in H. rewrite E' in H'.
      injection H as <-. injection H' as <-.
      apply (matched_same N bands w e); assumption.
Qed.

(** ** Witnesses for the evaluator *)

Lemma evaluator_periodic_witness :
  exists D D',
    calculate_dynamical_matrix 1
      [ {| sp_atoms := (0, 0)%Z; sp_cell := (1, 0, 0)%Z;
           sp_const := unit_lattice |} ] 1 0 0 = Some D
    /\ calculate_dynamical_matrix 1
         [ {| sp_atoms := (0, 0)%Z; sp_cell := (1, 0, 0)%Z;
              sp_const := unit_lattice |} ]
         (1 + 2 * IZR 1 * PI) (0 + 2 * IZR (-2) * PI) (0 + 2 * IZR 0 * PI)
       = Some D'
    /\ forall i j, D' i j = D i j.
Proof.
  destruct (evaluator_sum 1 1 0 0
              [ {| sp_atoms := (0, 0)%Z; sp_cell := (1, 0, 0)%Z;
                   sp_const := unit_lattice |} ]) as [D [E _]].
  { repeat constructor; simpl; lia. }
  destruct (evaluator_periodic 1 _ 1 0 0 1 (-2) 0 D E) as [D' [E' H]].
  exists D, D'. auto.
Defined.

Lemma evaluator_reversed_witness :
  exists D D',
    calculate_dynamical_matrix 1
      [ {| sp_atoms := (0, 0)%Z; sp_cell := (1, 0, 0)%Z;
           sp_const := unit_lattice |} ] 1 0 0 = Some D
    /\ calculate_dynamical_matrix 1
         [ {| sp_atoms := (0, 0)%Z; sp_cell := (1, 0, 0)%Z;
              sp_const := unit_lattice |} ] (- 1) (- 0) (- 0) = Some D'
    /\ forall i j, D' i j = Cconj (D i j).
Proof.
  destruct (evaluator_sum 1 1 0 0
              [ {| sp_atoms := (0, 0)%Z; sp_cell := (1, 0, 0)%Z;
                   sp_const := unit_lattice |} ]) as [D [E _]].
  { repeat constructor; simpl; lia. }
  destruct (proj1 (evaluator_reversed 1 _ 1 0 0 D E)) as [D' [E' H]].
  exists D, D'. auto.
Defined.

Lemma evaluator_layout_witness :
  calculate_dynamical_matrix 2
    [ {| sp_atoms := (-1, 0)%Z; sp_cell := (0, 0, 0)%Z;
         sp_const := unit_lattice |} ] 0 0 0 = None.
Proof.
  apply (evaluator_layout 2 _ 0 0 0); [lia|].
  eexists. exists (-1)%Z. split; [left; reflexivity|].
  split; [left; reflexivity|]. right. lia.
Defined.

Lemma fresh_arrays_do_not_leak_witness :
  spring_list (chain unit_lattice unit_lattice) (fun _ => 1) unit_lattice
              at_origin 1e-7 (0, 0)%Z (0, 0, 0)%Z mzero 2
  = spring_list (chain unit_lattice unit_lattice) (fun _ => 1) unit_lattice
                at_origin 1e-7 (7, 7)%Z (7, 7, 7)%Z unit_lattice 2.
Proof. apply fresh_arrays_do_not_leak. Defined.

(** ** The order of the frequencies *)

Lemma signed_frequency_nonneg (w2 : R) : 0 <= w2 -> 0 <= signed_frequency w2.
Proof.
  intros [H|<-].
  - rewrite signed_frequency_pos by exact H. apply sqrt_pos.
  - rewrite signed_frequency_zero. lra.
Qed.

Lemma signed_frequency_increasing (x y : R) :
  x < y -> signed_frequency x < signed_frequency y.
Proof.
  intros H. destruct (Rlt_dec x 0) as [Hx|Hx].
  - rewrite (signed_frequency_neg x Hx).
    destruct (Rlt_dec y 0) as [Hy|Hy].
    + rewrite (signed_frequency_neg y Hy).
      apply Ropp_lt_contravar. apply sqrt_lt_1; lra.
    + pose proof (signed_frequency_nonneg y ltac:(lra)).
      pose proof (sqrt_lt_R0 (- x) ltac:(lra)). lra.
  - destruct (Req_dec x 0) as [->|Hx0].
    + rewrite signed_frequency_zero, signed_frequency_pos by exact H.
      apply sqrt_lt_R0. exact H.
    + rewrite !signed_frequency_pos by lra. apply sqrt_lt_1; lra.
Qed.

Lemma signed_frequency_monotone (x y : R) :
  x <= y -> signed_frequency x <= signed_frequency y.
Proof.
  intros [H| ->]; [left; apply signed_frequency_increasing; exact H|lra].
Qed.

Lemma signed_frequency_order (w2 : list R) :
  length (map signed_frequency w2) = length w2
  /\ (forall i j, (i < length w2)%nat -> (j < length w2)%nat ->
        (nth i w2 0 < nth j w2 0
         <-> nth i (map signed_frequency w2) 0
             < nth j (map signed_frequency w2) 0)
        /\ (nth i w2 0 < 0 <-> nth i (map signed_frequency w2) 0 < 0))
  /\ (ascending w2 -> ascending (map signed_frequency w2)).
Proof.
  assert (Hn : forall i, (i < length w2)%nat ->
            nth i (map signed_frequency w2) 0
            = signed_frequency (nth i w2 0)).
  { intros i Hi. rewrite <- signed_frequency_zero at 1. apply map_nth. }
  assert (Hlt : forall x y,
            x < y <-> signed_frequency x < signed_frequency y).
  { intros x y. split; [apply signed_frequency_increasing|].
    intros H. destruct (Rlt_dec x y) as [|Hn']; [assumption|].
    pose proof (signed_frequency_monotone y x ltac:(lra)). lra. }
  split; [apply length_map|]. split.
  - intros i j Hi Hj. rewrite !Hn by assumption. split; [apply Hlt|].
    pose proof (Hlt (nth i w2 0) 0) as H0.
    rewrite signed_frequency_zero in H0. exact H0.
  - intros Ha i j Hij. rewrite length_map in Hij.
    rewrite !Hn by lia. apply signed_frequency_monotone. apply Ha. exact Hij.
Qed.

(** X11: the frequencies keep the order of the eigenvalues, with and
    without displacements: there is one frequency for each eigenvalue,
    a smaller eigenvalue gives a smaller frequency, the negative
    frequencies are those of the negative eigenvalues, and ascending
    eigenvalues give ascending frequencies. *)
Theorem frequencies_keep_order
  (eigvalsh : nat -> cmatrix -> list R)
  (eigh : nat -> cmatrix -> list R * cmatrix) (side : nat) (D : cmatrix) :
  (length (frequencies eigvalsh side D) = length (eigvalsh side D)
   /\ (forall i j, (i < length (eigvalsh side D))%nat ->
         (j < length (eigvalsh side D))%nat ->
         (nth i (eigvalsh side D) 0 < nth j (eigvalsh side D) 0
          <-> nth i (frequencies eigvalsh side D) 0
              < nth j (frequencies eigvalsh side D) 0)
         /\ (nth i (eigvalsh side D) 0 < 0
             <-> nth i (frequencies eigvalsh side D) 0 < 0))
   /\ (ascending (eigvalsh side D)
       -> ascending (frequencies eigvalsh side D)))
  /\ (length (fst (frequencies_and_displacements eigh side D))
      = length (fst (eigh side D))
      /\ (forall i j, (i < length (fst (eigh side D)))%nat ->
            (j < length (fst (eigh side D)))%nat ->
            (nth i (fst (eigh side D)) 0 < nth j (fst (eigh side D)) 0
             <-> nth i (fst (frequencies_and_displacements eigh side D)) 0
                 < nth j (fst (frequencies_and_displacements eigh side D)) 0)
            /\ (nth i (fst (eigh side D)) 0 < 0
                <-> nth i (fst (frequencies_and_displacements eigh side D)) 0
                    < 0))
      /\ (ascending (fst (eigh side D))
          -> ascending (fst (frequencies_and_displacements eigh side D)))).
Proof.
  split.
  - unfold frequencies. cbv zeta. apply signed_frequency_order.
  - unfold frequencies_and_displacements.
    destruct (eigh side D) as [w2 e]. cbn [fst].
    apply signed_frequency_order.
Qed.

Lemma frequencies_keep_order_witness :
  ascending (frequencies (fun _ _ => [-4; 0; 9]) 3 (fun _ _ => C0)).
Proof.
  apply (frequencies_keep_order (fun _ _ => [-4; 0; 9])
           (fun _ _ => ([], fun _ _ => C0)) 3 (fun _ _ => C0)).
  intros i j Hij. cbn [length] in Hij.
  destruct i as [|[|[|i]]], j as [|[|[|j]]]; cbn [nth]; try lia; lra.
Defined.

(** ** Bands that keep their displacement patterns *)

Lemma Cabs_mul (z w : complex) : Cabs (Cmul z w) = Cabs z * Cabs w.
Proof.
  destruct z as [a b], w as [c d]. unfold Cabs, Cmul. cbn [fst snd].
  rewrite <- sqrt_mult by nra. f_equal. ring.
Qed.

Lemma Cabs_conj (z : complex) : Cabs (Cconj z) = Cabs z.
Proof.
  destruct z as [a b]. unfold Cabs, Cconj. cbn [fst snd]. f_equal. ring.
Qed.

Lemma Cabs_one : Cabs (1, 0) = 1.
Proof.
  unfold Cabs. cbn [fst snd].
  replace (1 * 1 + 0 * 0) with 1 by ring. apply sqrt_1.
Qed.

Lemma Cabs_zero : Cabs (0, 0) = 0.
Proof.
  unfold Cabs. cbn [fst snd].
  replace (0 * 0 + 0 * 0) with 0 by ring. apply sqrt_0.
Qed.

Lemma Csum_phases {A : Type} (a b : complex) (f g : A -> complex)
  (l : list A) :
  Csum (map (fun k => Cmul (Cmul a (f k)) (Cconj (Cmul b (g k)))) l)
  = Cmul (Cmul a (Cconj b)) (Csum (map (fun k => Cmul (f k) (Cconj (g k))) l)).
Proof.
  induction l as [|x l IH]; unfold Csum in *; cbn [map fold_right].
  - destruct a, b. complex_eq.
  - rewrite IH. destruct a, b, (f x), (g x).
    destruct (fold_right Cadd C0 _). complex_eq.
Qed.

Section Tracking.

Variable N bands : nat.
Variable w : nat -> nat -> R.
Variable e : nat -> nat -> nat -> complex.
Variable junk_order : nat -> nat -> nat.

(** The displacement patterns [u[:, nu]], the phase with which band [mu]
    of point [n] carries its pattern, and the two directions of the
    assignment of patterns to bands. *)
Variable u : nat -> nat -> complex.
Variable phase : nat -> nat -> complex.
Variable band_of mode_of : nat -> nat -> nat.

Hypothesis u_orthonormal : orthonormal bands u.
Hypothesis phase_unit :
  forall n mu, (n < N)%nat -> (mu < bands)%nat -> Cabs (phase n mu) = 1.
Hypothesis mode_of_band :
  forall n nu, (n < N)%nat -> (nu < bands)%nat ->
    (band_of n nu < bands)%nat /\ mode_of n (band_of n nu) = nu.
Hypothesis band_of_mode :
  forall n mu, (n < N)%nat -> (mu < bands)%nat ->
    (mode_of n mu < bands)%nat /\ band_of n (mode_of n mu) = mu.
Hypothesis first_point :
  forall nu, (nu < bands)%nat -> band_of 0%nat nu = nu.
Hypothesis e_patterns :
  forall n k mu, (n < N)%nat -> (k < bands)%nat -> (mu < bands)%nat ->
    e n k mu = Cmul (phase n mu) (u k (mode_of n mu)).

Lemma overlap_patterns (order : nat -> nat -> nat) (n0 n nu mu : nat) :
  (n0 < N)%nat -> (n < N)%nat -> (nu < bands)%nat -> (mu < bands)%nat ->
  order n0 nu = band_of n0 nu ->
  overlap bands e order n0 n nu mu
  = if (nu =? mode_of n mu)%nat then 1 else 0.
Proof.
  intros Hn0 Hn Hnu Hmu Ho. unfold overlap. rewrite Ho.
  destruct (mode_of_band n0 nu Hn0 Hnu) as [Hb Em].
  destruct (band_of_mode n mu Hn Hmu) as [Hm _].
  rewrite (map_ext_in _
             (fun k => Cmul (Cmul (phase n0 (band_of n0 nu)) (u k nu))
                            (Cconj (Cmul (phase n mu) (u k (mode_of n mu)))))).
  2:{ intros k Hk. apply in_seq in Hk.
      rewrite !e_patterns by (assumption || lia). rewrite Em. reflexivity. }
  rewrite Csum_phases, u_orthonormal by assumption.
  rewrite !Cabs_mul, Cabs_conj, !phase_unit by assumption.
  destruct (nu =? mode_of n mu)%nat; [rewrite Cabs_one|rewrite Cabs_zero];
    ring.
Qed.

Lemma matched_patterns (order : nat -> nat -> nat) :
  matched_below bands w e N order ->
  forall n nu, (n < N)%nat -> (nu < bands)%nat -> order n nu = band_of n nu.
Proof.
  intros [H0 Hm] n. induction n as [n IH] using lt_wf_ind. intros nu Hn Hnu.
  destruct (Nat.eq_dec n 0) as [->|Hne].
  - rewrite H0, first_point by exact Hnu. reflexivity.
  - pose proof (reference_lt bands w n ltac:(lia)) as Hr.
    specialize (Hm n nu ltac:(lia) Hnu).
    destruct (py_max_key_spec _ _ _ Hm) as [Hin Hmax].
    apply in_seq in Hin.
    destruct (mode_of_band n nu Hn Hnu) as [Hb Em].
    specialize (Hmax (band_of n nu) ltac:(apply in_seq; lia)).
    rewrite !overlap_patterns in Hmax
      by (try lia; try assumption; apply IH; lia || assumption).
    rewrite Em, Nat.eqb_refl in Hmax.
    destruct (Nat.eqb_spec nu (mode_of n (order n nu))) as [E|_]; [|lra].
    rewrite E at 2. symmetry. apply band_of_mode; lia.
Qed.

End Tracking.

(** X12: when the bands of every point carry the same orthonormal
    displacement patterns, in any arrangement and with any phases, every
    slot follows its pattern: [order[n, nu]] is the band that carries at
    point [n] the pattern of band [nu] of the first point, and no band is
    picked twice. *)
Theorem band_order_follows_patterns (N bands : nat) (w : nat -> nat -> R)
  (e : nat -> nat -> nat -> complex) (junk_order : nat -> nat -> nat)
  (u : nat -> nat -> complex) (phase : nat -> nat -> complex)
  (band_of mode_of : nat -> nat -> nat) :
  (1 <= N)%nat ->
  orthonormal bands u ->
  (forall n mu, (n < N)%nat -> (mu < bands)%nat -> Cabs (phase n mu) = 1) ->
  (forall n nu, (n < N)%nat -> (nu < bands)%nat ->
     (band_of n nu < bands)%nat /\ mode_of n (band_of n nu) = nu) ->
  (forall n mu, (n < N)%nat -> (mu < bands)%nat ->
     (mode_of n mu < bands)%nat /\ band_of n (mode_of n mu) = mu) ->
  (forall nu, (nu < bands)%nat -> band_of 0%nat nu = nu) ->
  (forall n k mu, (n < N)%nat -> (k < bands)%nat -> (mu < bands)%nat ->
     e n k mu = Cmul (phase n mu) (u k (mode_of n mu))) ->
  exists order,
    band_order N bands w e junk_order = Some order
    /\ (forall n nu, (n < N)%nat -> (nu < bands)%nat ->
          order n nu = band_of n nu)
    /\ forall n, (n < N)%nat -> NoDup (order_row bands order n).
Proof.
  intros HN Hu Hp Hmb Hbm H0 He.
  destruct (band_order_matched N bands w e junk_order HN) as [order [E Hm]].
  exists order. split; [exact E|].
  assert (Ho : forall n nu, (n < N)%nat -> (nu < bands)%nat ->
            order n nu = band_of n nu).
  { apply (matched_patterns N bands w e u phase band_of mode_of); assumption. }
  split; [exact Ho|].
  intros n Hn. unfold order_row.
  apply (NoDup_map_inv (mode_of n)). rewrite map_map.
  rewrite (map_ext_in _ (fun nu => nu)).
  - rewrite map_id. apply seq_NoDup.
  - intros nu Hnu. apply in_seq in Hnu. rewrite Ho by lia.
    apply Hmb; lia.
Qed.

Lemma band_order_follows_patterns_witness :
  exists order,
    band_order 2 2 (fun _ _ => 0) swapped_e (fun _ _ => O) = Some order
    /\ order 1%nat 0%nat = 1%nat /\ order 1%nat 1%nat = 0%nat.
Proof.
  destruct (band_order_follows_patterns 2 2 (fun _ _ => 0) swapped_e
              (fun _ _ => O)
              (fun k nu => if (k =? nu)%nat then (1, 0) else (0, 0))
              (fun _ _ => (1, 0))
              (fun n nu => match n with O => nu | _ => (1 - nu)%nat end)
              (fun n mu => match n with O => mu | _ => (1 - mu)%nat end))
    as [order [E [Ho _]]].
  - lia.
  - intros nu mu Hnu Hmu.
    destruct nu as [|[|nu]], mu as [|[|mu]]; try lia; cbn; complex_eq.
  - intros. apply Cabs_one.
  - intros n nu Hn Hnu. destruct n as [|n]; [split; [lia|reflexivity]|].
    split; lia.
  - intros n mu Hn Hmu. destruct n as [|n]; [split; [lia|reflexivity]|].
    split; lia.
  - reflexivity.
  - intros n k mu Hn Hk Hmu. unfold swapped_e.
    destruct n as [|n]; destruct (k =? _)%nat; complex_eq.
  - exists order. split; [exact E|]. split; apply Ho; lia.
Defined.

(** ** Lists of results that can raise *)

Lemma map_opt_app {A B : Type} (g : A -> option B) (l1 l2 : list A) :
  map_opt g (l1 ++ l2)
  = (ys1 <- map_opt g l1 ;; ys2 <- map_opt g l2 ;; Some (ys1 ++ ys2)).
Proof.
  induction l1 as [|x l1 IH]; cbn [app map_opt].
  - destruct (map_opt g l2); reflexivity.
  - destruct (g x) as [y|]; [|reflexivity]. cbn [obind]. rewrite IH.
    destruct (map_opt g l1); [|reflexivity]. cbn [obind].
    destruct (map_opt g l2); reflexivity.
Qed.

Lemma map_opt_flat_map {A B C : Type} (g : B -> option C) (f : A -> list B)
  (l : list A) :
  (parts <- map_opt (fun x => map_opt g (f x)) l ;; Some (concat parts))
  = map_opt g (flat_map f l).
Proof.
  induction l as [|x l IH]; [reflexivity|].
  cbn [map_opt flat_map]. rewrite map_opt_app, <- IH.
  destruct (map_opt g (f x)) as [ys|]; [|reflexivity]. cbn [obind].
  destruct (map_opt (fun x => map_opt g (f x)) l); reflexivity.
Qed.

Lemma map_opt_nth {A B : Type} (g : A -> option B) (l : list A)
  (ys : list B) :
  map_opt g l = Some ys ->
  length ys = length l
  /\ forall i x, nth_error l i = Some x ->
       exists y, g x = Some y /\ nth_error ys i = Some y.
Proof.
  revert ys. induction l as [|x l IH]; intros ys E; cbn [map_opt] in E.
  - injection E as <-. split; [reflexivity|]. intros [|i] z H; discriminate.
  - destruct (g x) as [y|] eqn:Ey; [|discriminate]. cbn [obind] in E.
    destruct (map_opt g l) as [ys'|]; [|discriminate]. cbn [obind] in E.
    injection E as <-. destruct (IH ys' eq_refl) as [Hl Hn].
    split; [cbn [length]; rewrite Hl; reflexivity|].
    intros [|i] z H; cbn [nth_error] in *.
    + injection H as <-. exists y. auto.
    + apply Hn. exact H.
Qed.

Lemma map_opt_defined {A B : Type} (g : A -> option B) (l : list A) :
  (forall x, In x l -> exists y, g x = Some y) ->
  exists ys, map_opt g l = Some ys.
Proof.
  induction l as [|x l IH]; intros H; [exists []; reflexivity|].
  destruct (H x (or_introl eq_refl)) as [y Ey].
  destruct (IH (fun z Hz => H z (or_intror Hz))) as [ys Eys].
  exists (y :: ys). cbn [map_opt]. rewrite Ey, Eys. reflexivity.
Qed.

(** Scattering a list over the workers, working on the parts and gathering
    the results is working on the list. *)
Lemma gather_scatter {A B : Type} (g : A -> option B) (buf : list A)
  (size : nat) :
  (1 <= size)%nat ->
  gather size (fun rank =>
                 map_opt g (scatterv buf (sizes (length buf) size) rank))
  = map_opt g buf.
Proof.
  intros Hs. unfold gather.
  rewrite (map_opt_flat_map g
             (scatterv buf (sizes (length buf) size)) (range size)).
  rewrite <- (sizes_length (length buf) size Hs) at 2.
  rewrite scatterv_concat, sizes_sum, firstn_all by exact Hs. reflexivity.
Qed.

Lemma gather_scatter_all {A B : Type} (g : A -> option B) (buf : list A)
  (N size : nat) :
  (1 <= size)%nat -> length buf = N ->
  gather size (fun rank => map_opt g (scatterv buf (sizes N size) rank))
  = map_opt g buf.
Proof. intros Hs <-. apply gather_scatter. exact Hs. Qed.

(** ** Blocks of equal length *)

Lemma nth_error_blocks {A B : Type} (f : A -> list B) (l : list A)
  (k i j : nat) (x : A) :
  (forall y, In y l -> length (f y) = k) ->
  nth_error l i = Some x -> (j < k)%nat ->
  nth_error (flat_map f l) (i * k + j) = nth_error (f x) j.
Proof.
  revert i. induction l as [|y l IH]; intros i Hk Hi Hj.
  - destruct i; discriminate.
  - cbn [flat_map]. destruct i as [|i]; cbn [nth_error] in Hi.
    + injection Hi as ->. rewrite nth_error_app1; [reflexivity|].
      rewrite (Hk x (or_introl eq_refl)). lia.
    + rewrite nth_error_app2 by (rewrite (Hk y (or_introl eq_refl)); lia).
      rewrite (Hk y (or_introl eq_refl)).
      replace (S i * k + j - k)%nat with (i * k + j)%nat by lia.
      apply IH; auto. intros z Hz. apply Hk. right. exact Hz.
Qed.

Lemma length_blocks {A B : Type} (f : A -> list B) (l : list A) (k : nat) :
  (forall y, In y l -> length (f y) = k) ->
  length (flat_map f l) = (length l * k)%nat.
Proof.
  induction l as [|y l IH]; intros Hk; [reflexivity|].
  cbn [flat_map length]. rewrite length_app, (Hk y (or_introl eq_refl)).
  rewrite IH by (intros z Hz; apply Hk; right; exact Hz). lia.
Qed.

(** ** The wavevectors of the mesh *)

Lemma mesh_pairs_nth (q : list R) (n m : nat) (a b : R) :
  nth_error q n = Some a -> nth_error q m = Some b ->
  nth_error (mesh_pairs q) (n * length q + m) = Some (a, b).
Proof.
  intros Ha Hb. unfold mesh_pairs.
  rewrite (nth_error_blocks (fun a => map (fun b => (a, b)) q) q
             (length q) n m a).
  - rewrite nth_error_map, Hb. reflexivity.
  - intros y _. apply length_map.
  - exact Ha.
  - apply nth_error_Some. congruence.
Qed.

Lemma mesh_pairs_length (q : list R) :
  length (mesh_pairs q) = (length q * length q)%nat.
Proof.
  unfold mesh_pairs. apply length_blocks. intros y _. apply length_map.
Qed.

Lemma wavevectors_eq (nq : nat) :
  (1 <= nq)%nat ->
  wavevectors nq = Some (mesh_pairs (map (mesh_q nq) (range nq))).
Proof.
  intros Hq. unfold wavevectors, centred, linspace.
  rewrite nth_error_map. unfold range at 1.
  rewrite (nth_error_nth' (seq 0 nq) O)
    by (rewrite length_seq; apply Nat.Div0.div_lt_upper_bound; nia).
  rewrite seq_nth by (apply Nat.Div0.div_lt_upper_bound; nia).
  cbn [option_map obind]. rewrite map_map. reflexivity.
Qed.

Lemma mesh_q_bounds (nq i : nat) :
  (i < nq)%nat ->
  - PI <= mesh_q nq i < PI /\ (mesh_q nq i = 0 <-> i = (nq / 2)%nat).
Proof.
  intros Hi. pose proof PI_RGT_0 as Hpi.
  assert (Hq : 0 < INR nq) by (apply lt_0_INR; lia).
  pose proof (Nat.div_mod_eq nq 2) as E.
  pose proof (Nat.mod_upper_bound nq 2 ltac:(lia)) as Hm.
  set (h := (nq / 2)%nat) in *.
  assert (H1 : 2 * INR h <= INR nq).
  { rewrite <- (INR_IZR_INZ 2) || idtac.
    replace 2 with (INR 2) by (simpl; ring). rewrite <- mult_INR.
    apply le_INR. lia. }
  assert (H2 : 2 * INR i + 1 <= INR nq + 2 * INR h).
  { replace 2 with (INR 2) by (simpl; ring).
    replace 1 with (INR 1) by reflexivity.
    rewrite <- !mult_INR, <- !plus_INR. apply le_INR. lia. }
  assert (Et : mesh_q nq i = PI * (2 * (INR i - INR h) / INR nq)).
  { unfold mesh_q. fold h. field. lra. }
  assert (Hlo : -1 <= 2 * (INR i - INR h) / INR nq).
  { apply Rmult_le_reg_r with (INR nq); [exact Hq|].
    unfold Rdiv. rewrite Rmult_assoc, Rinv_l by lra.
    pose proof (pos_INR i). lra. }
  assert (Hhi : 2 * (INR i - INR h) / INR nq < 1).
  { apply Rmult_lt_reg_r with (INR nq); [exact Hq|].
    unfold Rdiv. rewrite Rmult_assoc, Rinv_l by lra. lra. }
  split; [rewrite Et; split; nra|].
  split.
  - intros E0. rewrite Et in E0.
    apply Rmult_integral in E0. destruct E0 as [E0|E0]; [lra|].
    apply INR_eq.
    assert (E1 : 2 * (INR i - INR h) / INR nq * INR nq = 0 * INR nq)
      by (rewrite E0; reflexivity).
    unfold Rdiv in E1. rewrite Rmult_assoc, Rinv_l in E1 by lra. lra.
  - intros ->. unfold mesh_q. fold h. ring.
Qed.

(** X13: the wavevectors of the mesh.  An empty mesh raises at
    [q[nq // 2]]; otherwise there are [nq ** 2] wavevectors, the one at
    [n * nq + m] being [(q[n], q[m])] with
    [q[i] = 2 * pi * (i - nq // 2) / nq].  Every component lies in
    [[-pi, pi)] and is zero at the index [nq // 2] only, so the zero
    wavevector is the point in the middle of the mesh. *)
Theorem wavevectors_of_mesh :
  wavevectors 0 = None
  /\ forall nq, (1 <= nq)%nat ->
       exists qs,
         wavevectors nq = Some qs
         /\ length qs = (nq ^ 2)%nat
         /\ (forall n m, (n < nq)%nat -> (m < nq)%nat ->
               nth_error qs (n * nq + m) = Some (mesh_q nq n, mesh_q nq m))
         /\ (forall i, (i < nq)%nat ->
               - PI <= mesh_q nq i < PI
               /\ (mesh_q nq i = 0 <-> i = (nq / 2)%nat))
         /\ nth_error qs (nq / 2 * nq + nq / 2) = Some (0, 0).
Proof.
  split; [reflexivity|]. intros nq Hq.
  exists (mesh_pairs (map (mesh_q nq) (range nq))).
  assert (Hl : length (map (mesh_q nq) (range nq)) = nq)
    by (rewrite length_map; apply length_seq).
  assert (Hn : forall n m, (n < nq)%nat -> (m < nq)%nat ->
            nth_error (mesh_pairs (map (mesh_q nq) (range nq))) (n * nq + m)
            = Some (mesh_q nq n, mesh_q nq m)).
  { intros n m Hn Hm.
    pose proof (mesh_pairs_nth (map (mesh_q nq) (range nq)) n m
                  (mesh_q nq n) (mesh_q nq m)) as H.
    rewrite Hl in H.
    apply H; rewrite nth_error_map; unfold range;
      rewrite (nth_error_nth' (seq 0 nq) O) by (rewrite length_seq; lia);
      rewrite seq_nth by lia; reflexivity. }
  split; [apply wavevectors_eq; exact Hq|].
  split; [rewrite mesh_pairs_length, Hl; cbn; lia|].
  split; [exact Hn|]. split; [apply mesh_q_bounds|].
  assert (Hh : (nq / 2 < nq)%nat) by (apply Nat.Div0.div_lt_upper_bound; nia).
  rewrite Hn by exact Hh.
  rewrite (proj2 (proj2 (mesh_q_bounds nq (nq / 2) Hh)) eq_refl).
  reflexivity.
Qed.

(** ** The winding path *)

Lemma wind_rows {A : Type} (nq k : nat) (a : nat -> nat -> A) (n m : nat) :
  fold_left (reverse_row nq) (map (fun k => (2 * k)%nat) (seq 0 k)) a n m
  = if (Nat.even n && (n <? 2 * k))%nat then a n (nq - 1 - m)%nat
    else a n m.
Proof.
  revert n m. induction k as [|k IH]; intros n m.
  - cbn [seq map fold_left]. rewrite andb_false_r. reflexivity.
  - rewrite seq_S, map_app, fold_left_app. cbn [map fold_left Nat.add].
    unfold reverse_row at 1.
    destruct (Nat.eqb_spec n (2 * k)) as [->|Hne].
    + rewrite IH.
      replace (Nat.even (2 * k)) with true
        by (symmetry; apply Nat.even_spec; exists k; reflexivity).
      replace (2 * k <? 2 * k)%nat with false
        by (symmetry; apply Nat.ltb_ge; lia).
      replace (2 * k <? 2 * S k)%nat with true
        by (symmetry; apply Nat.ltb_lt; lia).
      reflexivity.
    + rewrite IH. destruct (Nat.even n) eqn:Ev; [|reflexivity].
      cbn [andb]. apply Nat.even_spec in Ev. destruct Ev as [j ->].
      destruct (Nat.ltb_spec (2 * j) (2 * k)),
               (Nat.ltb_spec (2 * j) (2 * S k)); try reflexivity; lia.
Qed.

Lemma wind_eq {A : Type} (nq : nat) (a : nat -> nat -> A) (n m : nat) :
  wind nq a n m
  = if (Nat.even n && (n <? nq))%nat then a n (nq - 1 - m)%nat else a n m.
Proof.
  unfold wind, even_rows, range. rewrite wind_rows.
  destruct (Nat.even n) eqn:Ev; [|reflexivity]. cbn [andb].
  apply Nat.even_spec in Ev. destruct Ev as [j ->].
  pose proof (Nat.div_mod_eq (nq + 1) 2) as E.
  pose proof (Nat.mod_upper_bound (nq + 1) 2 ltac:(lia)) as Hm.
  destruct (Nat.ltb_spec (2 * j) (2 * ((nq + 1) / 2))),
           (Nat.ltb_spec (2 * j) nq); try reflexivity; lia.
Qed.

Lemma flat_index (nq n m : nat) :
  (m < nq)%nat ->
  ((n * nq + m) / nq = n /\ (n * nq + m) mod nq = m)%nat.
Proof.
  intros Hm. split.
  - rewrite Nat.div_add_l by lia. rewrite Nat.div_small by exact Hm. lia.
  - rewrite Nat.add_comm, Nat.Div0.mod_add. apply Nat.mod_small. exact Hm.
Qed.

Lemma flat_lt (nq n m : nat) :
  (n < nq)%nat -> (m < nq)%nat -> (n * nq + m < nq ^ 2)%nat.
Proof. intros Hn Hm. cbn. nia. Qed.

Lemma flat_split (nq i : nat) :
  (i < nq ^ 2)%nat ->
  (i = i / nq * nq + i mod nq /\ i / nq < nq /\ i mod nq < nq)%nat.
Proof.
  intros Hi. assert (Hq : (1 <= nq)%nat) by (destruct nq; cbn in Hi; lia).
  pose proof (Nat.div_mod_eq i nq).
  split; [lia|]. split.
  - apply Nat.Div0.div_lt_upper_bound. cbn in Hi. lia.
  - apply Nat.mod_upper_bound. lia.
Qed.

Lemma wind_wind {A : Type} (nq : nat) (a : nat -> nat -> A) (n m : nat) :
  (m < nq)%nat -> wind nq (wind nq a) n m = a n m.
Proof.
  intros Hm. rewrite !wind_eq.
  destruct (Nat.even n && (n <? nq))%nat; [|reflexivity].
  f_equal. lia.
Qed.

(** X14: the path along which the bands are followed.  After every other
    row has been reversed, the flattened array holds at the index [i] the
    data of the mesh point [path nq i]; two points that follow each other
    on the path are one step apart on the mesh, every mesh point is on the
    path, and reversing the rows a second time restores the array. *)
Theorem winding_path_visits_neighbours :
  forall (A : Type) (nq : nat) (a : nat -> nat -> A),
    (forall i, (i < nq ^ 2)%nat ->
       flatten nq (wind nq a) i = a (fst (path nq i)) (snd (path nq i)))
    /\ (forall i, (S i < nq ^ 2)%nat ->
          neighbours (path nq i) (path nq (S i)))
    /\ (forall n m, (n < nq)%nat -> (m < nq)%nat ->
          exists i, (i < nq ^ 2)%nat /\ path nq i = (n, m))
    /\ (forall n m, (m < nq)%nat -> wind nq (wind nq a) n m = a n m).
Proof.
  intros A nq a. split; [|split; [|split]].
  - intros i Hi. destruct (flat_split nq i Hi) as (_ & Hn & _).
    unfold flatten, path. cbv zeta. cbn [fst snd]. rewrite wind_eq.
    replace (i / nq <? nq)%nat with true
      by (symmetry; apply Nat.ltb_lt; exact Hn).
    rewrite andb_true_r. destruct (Nat.even (i / nq)); reflexivity.
  - intros i Hi.
    destruct (flat_split nq i ltac:(lia)) as (Ei & Hn & Hm).
    set (n := (i / nq)%nat) in *. set (m := (i mod nq)%nat) in *.
    unfold neighbours, path. cbv zeta. cbn [fst snd]. fold n m.
    destruct (Nat.eq_dec (S m) nq) as [Em|Em].
    + assert (E1 : S i = (S n * nq + 0)%nat) by lia.
      destruct (flat_index nq (S n) 0 ltac:(lia)) as [Ed Er].
      rewrite E1, Ed, Er. right. split; [reflexivity|].
      rewrite Nat.even_succ, <- Nat.negb_even.
      destruct (Nat.even n); cbn [negb]; lia.
    + assert (E1 : S i = (n * nq + S m)%nat) by lia.
      destruct (flat_index nq n (S m) ltac:(lia)) as [Ed Er].
      rewrite E1, Ed, Er. left. split; [reflexivity|].
      destruct (Nat.even n); lia.
  - intros n m Hn Hm.
    exists (n * nq + (if Nat.even n then nq - 1 - m else m))%nat.
    assert (Hc : ((if Nat.even n then nq - 1 - m else m) < nq)%nat)
      by (destruct (Nat.even n); lia).
    destruct (flat_index nq n _ Hc) as [Ed Er].
    split; [cbn; destruct (Nat.even n); nia|].
    unfold path. cbv zeta. rewrite Ed, Er.
    destruct (Nat.even n); f_equal; lia.
  - intros n m Hm. apply wind_wind. exact Hm.
Qed.

(** ** The sampler *)

Lemma mesh_loops {S : Type} (nq : nat) (body : nat -> nat -> S -> option S)
  (s : S) :
  for_each (range nq) (fun n => for_each (range nq) (fun m => body n m)) s
  = for_each (mesh_points nq) (fun p => body (fst p) (snd p)) s.
Proof.
  unfold mesh_points. rewrite for_each_flat_map.
  apply for_each_ext; intros n s' _. rewrite for_each_map. reflexivity.
Qed.

(** The loop that reorders the frequencies reads every row before it
    writes it. *)
Lemma reorder_rows (order : nat -> nat -> list nat) (pts : list (nat * nat))
  (w w' : nat -> nat -> list R) :
  NoDup pts ->
  for_each pts (fun p => reorder_point order (fst p) (snd p)) w = Some w' ->
  (forall n m, In (n, m) pts ->
     map_opt (nth_error (w n m)) (order n m) = Some (w' n m))
  /\ (forall n m, ~ In (n, m) pts -> w' n m = w n m).
Proof.
  revert w. induction pts as [|[n0 m0] pts IH]; intros w Hnd E.
  - cbn [for_each] in E. injection E as <-. split; [intros n m []|auto].
  - inversion Hnd as [|? ? Hnotin Hnd']; subst.
    cbn [for_each fst snd] in E. unfold reorder_point at 1 in E.
    destruct (map_opt (nth_error (w n0 m0)) (order n0 m0)) as [row|] eqn:Er;
      [|discriminate].
    cbn [obind] in E. destruct (IH _ Hnd' E) as [Hin Hout]. split.
    + intros n m [H|H].
      * injection H as <- <-. rewrite (Hout n0 m0 Hnotin).
        unfold set_point. rewrite !Nat.eqb_refl. exact Er.
      * rewrite <- (Hin n m H). unfold set_point.
        destruct (Nat.eqb_spec n n0) as [->|]; [|reflexivity].
        destruct (Nat.eqb_spec m m0) as [->|]; [|reflexivity].
        contradiction.
    + intros n m Hn. rewrite Hout by (intros H; apply Hn; right; exact H).
      unfold set_point.
      destruct (Nat.eqb_spec n n0) as [->|]; [|reflexivity].
      destruct (Nat.eqb_spec m m0) as [->|]; [|reflexivity].
      exfalso. apply Hn. left. reflexivity.
Qed.

Lemma reorder_returns (order : nat -> nat -> list nat)
  (pts : list (nat * nat)) (w : nat -> nat -> list R) :
  NoDup pts ->
  (forall n m, In (n, m) pts ->
     exists row, map_opt (nth_error (w n m)) (order n m) = Some row) ->
  exists w',
    for_each pts (fun p => reorder_point order (fst p) (snd p)) w = Some w'.
Proof.
  revert w. induction pts as [|[n0 m0] pts IH]; intros w Hnd Hr.
  - exists w. reflexivity.
  - inversion Hnd as [|? ? Hnotin Hnd']; subst.
    destruct (Hr n0 m0 (or_introl eq_refl)) as [row Er].
    cbn [for_each fst snd]. unfold reorder_point at 1. rewrite Er.
    cbn [obind]. apply IH; [exact Hnd'|].
    intros n m H. unfold set_point.
    destruct (Nat.eqb_spec n n0) as [->|]; [|apply Hr; right; exact H].
    destruct (Nat.eqb_spec m m0) as [->|]; [|apply Hr; right; exact H].
    contradiction.
Qed.

Lemma roll_index_lt (nq i : nat) :
  (i < nq)%nat -> (roll_index nq (nq / 2) i < nq)%nat.
Proof.
  intros Hi. unfold roll_index. cbv zeta.
  assert (Hh : (nq / 2 < nq)%nat) by (apply Nat.Div0.div_lt_upper_bound; nia).
  rewrite (Nat.mod_small (nq / 2) nq) by exact Hh.
  destruct (Nat.ltb_spec i (nq / 2)); lia.
Qed.

Lemma roll_index_half (nq i : nat) :
  (i < nq)%nat ->
  roll_index nq (nq / 2) i = ((i + nq - nq / 2) mod nq)%nat
  /\ (roll_index nq (nq / 2) i = (nq / 2)%nat
      <-> i = ((nq - nq mod 2) mod nq)%nat)
  /\ mesh_q nq (roll_index nq (nq / 2) i)
     = INR (i + nq mod 2) * (2 * PI / INR nq)
       - (if (i <? nq / 2)%nat then 0 else 2 * PI).
Proof.
  intros Hi. unfold roll_index. cbv zeta.
  assert (Hh : (nq / 2 < nq)%nat) by (apply Nat.Div0.div_lt_upper_bound; nia).
  pose proof (Nat.div_mod_eq nq 2) as E.
  pose proof (Nat.mod_upper_bound nq 2 ltac:(lia)) as Hm.
  rewrite (Nat.mod_small (nq / 2) nq) by exact Hh.
  set (h := (nq / 2)%nat) in *. set (r := (nq mod 2)%nat) in *.
  assert (Hq : 0 < INR nq) by (apply lt_0_INR; lia).
  assert (En : INR nq = 2 * INR h + INR r).
  { rewrite E at 1. rewrite plus_INR, mult_INR. simpl. ring. }
  split; [|split].
  - destruct (Nat.ltb_spec i h).
    + symmetry. apply Nat.mod_small. lia.
    + replace (i + nq - h)%nat with (i - h + 1 * nq)%nat by lia.
      rewrite Nat.Div0.mod_add. symmetry. apply Nat.mod_small. lia.
  - assert (Ez : ((nq - r) mod nq = if (r =? 0)%nat then 0 else nq - 1)%nat).
    { destruct (Nat.eqb_spec r 0) as [E0|E0].
      - rewrite E0, Nat.sub_0_r. apply Nat.Div0.mod_same.
      - replace r with 1%nat by lia. apply Nat.mod_small. lia. }
    rewrite Ez.
    destruct (Nat.ltb_spec i h), (Nat.eqb_spec r 0); lia.
  - unfold mesh_q. fold h. rewrite plus_INR.
    destruct (Nat.ltb_spec i h) as [Hlt|Hge].
    + rewrite minus_INR, plus_INR by lia. rewrite En. field. lra.
    + rewrite minus_INR by lia. field_simplify; [|lra|lra].
      rewrite En. field. lra.
Qed.

Section DispersionProofs.

Variable calculate : R -> R -> R -> option cmatrix.
Variable bands : nat.
Variable eigvalsh : nat -> cmatrix -> list R.
Variable eigh : nat -> cmatrix -> list R * cmatrix.
Variable u1 u2 : R * R.
Variable rotate : complex * complex -> R -> complex * complex.
Variable arctan2 : R -> R -> R.
Variable images : nat -> nat -> nat -> list (nat * nat).
Variable junk_w : list R.
Variable junk_e : cmatrix.
Variable junk_order : nat -> nat -> nat.

Local Abbreviation dispersion :=
  (dispersion calculate bands eigvalsh eigh u1 u2 rotate arctan2 images
              junk_w junk_e junk_order).
Local Abbreviation sample := (sample calculate bands eigvalsh).
Local Abbreviation sample_displacements :=
  (sample_displacements calculate bands eigh u1 u2 rotate arctan2).

Lemma mesh_length (nq : nat) :
  length (mesh_pairs (map (mesh_q nq) (range nq))) = (nq ^ 2)%nat.
Proof.
  rewrite mesh_pairs_length, length_map. unfold range. rewrite length_seq.
  cbn. lia.
Qed.

Lemma mesh_nth (nq n m : nat) :
  (n < nq)%nat -> (m < nq)%nat ->
  nth_error (mesh_pairs (map (mesh_q nq) (range nq))) (n * nq + m)
  = Some (mesh_q nq n, mesh_q nq m).
Proof.
  intros Hn Hm.
  pose proof (mesh_pairs_nth (map (mesh_q nq) (range nq)) n m
                (mesh_q nq n) (mesh_q nq m)) as H.
  replace (length (map (mesh_q nq) (range nq))) with nq in H
    by (rewrite length_map; unfold range; rewrite length_seq; reflexivity).
  apply H; rewrite nth_error_map; unfold range;
    rewrite (nth_error_nth' (seq 0 nq) O) by (rewrite length_seq; lia);
    rewrite seq_nth by lia; reflexivity.
Qed.

(** The run of [size] workers computes what a single worker computes. *)
Lemma dispersion_serial (size nq : nat) (order fix_ : bool) :
  (1 <= size)%nat ->
  dispersion size nq order fix_ = dispersion 1 nq order fix_.
Proof.
  intros Hs. unfold dispersion.
  destruct (calculate 0 0 0); [|reflexivity]. cbn [obind].
  destruct (Nat.eq_dec nq 0) as [->|Hq]; [reflexivity|].
  rewrite wavevectors_eq by lia. cbn [obind]. cbv zeta.
  rewrite !gather_scatter_all by (lia || apply mesh_length). reflexivity.
Qed.

Lemma in_mesh (nq : nat) (q : R * R) :
  In q (mesh_pairs (map (mesh_q nq) (range nq))) ->
  exists n m, (n < nq)%nat /\ (m < nq)%nat /\ q = (mesh_q nq n, mesh_q nq m).
Proof.
  unfold mesh_pairs. intros H. apply in_flat_map in H.
  destruct H as [a [Ha H]]. apply in_map_iff in H.
  destruct H as [b [<- Hb]]. apply in_map_iff in Ha, Hb.
  destruct Ha as [n [<- Hn]], Hb as [m [<- Hm]]. apply in_seq in Hn, Hm.
  exists n, m. repeat split; lia.
Qed.

Lemma sample_frequencies (a b : R) (D : cmatrix) :
  calculate a b 0 = Some D -> length (eigvalsh bands D) = bands ->
  sample (a, b) = Some (frequencies eigvalsh bands D).
Proof.
  intros E Hl. unfold sample. cbn [fst snd]. rewrite E. cbn [obind].
  unfold assign_row, frequencies. cbv zeta.
  rewrite length_map, Hl, Nat.eqb_refl. reflexivity.
Qed.

(** X15: without ordering, when the matrix can be evaluated at the zero
    wavevector and at every mesh point and the solver returns [bands]
    eigenvalues, [dispersion] returns, for any number of workers, the array
    that holds for every mesh point the frequencies of the matrix at the
    wavevector of that point; the zero wavevector is the point in the
    middle. *)
Theorem dispersion_unordered (size nq : nat) (fix_ : bool) :
  (1 <= size)%nat -> (1 <= nq)%nat -> calculate 0 0 0 <> None ->
  (forall n m, (n < nq)%nat -> (m < nq)%nat ->
     exists D, calculate (mesh_q nq n) (mesh_q nq m) 0 = Some D
               /\ length (eigvalsh bands D) = bands) ->
  exists w,
    dispersion size nq false fix_ = Some (w, None)
    /\ (forall n m, (n < nq)%nat -> (m < nq)%nat ->
          exists D, calculate (mesh_q nq n) (mesh_q nq m) 0 = Some D
                    /\ w n m = frequencies eigvalsh bands D)
    /\ mesh_q nq (nq / 2) = 0.
Proof.
  intros Hs Hq H0 Hc. unfold dispersion.
  destruct (calculate 0 0 0) as [D0|]; [|contradiction]. cbn [obind].
  rewrite wavevectors_eq by exact Hq. cbn [obind negb]. cbv zeta.
  rewrite gather_scatter_all by (exact Hs || apply mesh_length).
  destruct (map_opt_defined sample
              (mesh_pairs (map (mesh_q nq) (range nq)))) as [rows Er].
  { intros q Hin. destruct (in_mesh nq q Hin) as (n & m & Hn & Hm & ->).
    destruct (Hc n m Hn Hm) as [D [ED Hl]].
    eexists. apply (sample_frequencies _ _ D ED Hl). }
  rewrite Er. cbn [obind]. eexists. split; [reflexivity|]. split.
  - intros n m Hn Hm. destruct (Hc n m Hn Hm) as [D [ED Hl]].
    exists D. split; [exact ED|].
    destruct (map_opt_nth _ _ _ Er) as [_ Hnth].
    destruct (Hnth _ _ (mesh_nth nq n m Hn Hm)) as [y [Ey Hy]].
    rewrite (sample_frequencies _ _ D ED Hl) in Ey. injection Ey as <-.
    unfold unflatten. apply nth_error_nth. exact Hy.
  - apply (mesh_q_bounds nq (nq / 2)); [|reflexivity].
    apply Nat.Div0.div_lt_upper_bound. nia.
Qed.

Lemma sample_displacements_row (q : R * R) (y : list R * cmatrix) :
  sample_displacements q = Some y ->
  exists D, calculate (fst q) (snd q) 0 = Some D
            /\ assign_row bands
                 (fst (frequencies_and_displacements eigh bands D))
               = Some (fst y).
Proof.
  unfold sample_displacements.
  destruct (calculate (fst q) (snd q) 0) as [D|]; [|discriminate].
  cbn [obind]. destruct (frequencies_and_displacements eigh bands D)
    as [fr E] eqn:Ef.
  destruct (assign_row bands fr) as [row|] eqn:Er; [|discriminate].
  cbn [obind]. intros H. injection H as <-. exists D.
  split; [reflexivity|]. rewrite Ef. exact Er.
Qed.

Lemma sample_displacements_returns (a b : R) (D : cmatrix) :
  calculate a b 0 = Some D -> length (fst (eigh bands D)) = bands ->
  exists E,
    sample_displacements (a, b)
    = Some (fst (frequencies_and_displacements eigh bands D), E).
Proof.
  intros ED Hl. unfold sample_displacements. cbn [fst snd]. rewrite ED.
  cbn [obind]. unfold frequencies_and_displacements.
  destruct (eigh bands D) as [w2 E] eqn:Ee. cbn [fst] in *.
  unfold assign_row. rewrite length_map, Hl, Nat.eqb_refl. cbn [obind].
  eexists. reflexivity.
Qed.

Lemma map_nth_range {A : Type} (l : list A) (d : A) :
  map (fun k => nth k l d) (range (length l)) = l.
Proof.
  apply (nth_ext _ _ d d).
  - rewrite length_map. apply length_seq.
  - intros i Hi. rewrite length_map in Hi. unfold range in *.
    rewrite length_seq in Hi.
    rewrite (nth_indep _ d (nth 0 l d))
      by (rewrite length_map, length_seq; exact Hi).
    rewrite (map_nth (fun k => nth k l d) (seq 0 (length l)) O).
    rewrite seq_nth by exact Hi. reflexivity.
Qed.

Lemma map_opt_nth_error {A : Type} (l : list A) (ks : list nat)
  (ys : list A) (d : A) :
  map_opt (nth_error l) ks = Some ys ->
  ys = map (fun k => nth k l d) ks
  /\ Forall (fun k => (k < length l)%nat) ks.
Proof.
  revert ys. induction ks as [|k ks IH]; intros ys E; cbn [map_opt] in E.
  - injection E as <-. split; [reflexivity|constructor].
  - destruct (nth_error l k) as [y|] eqn:Ey; [|discriminate].
    cbn [obind] in E.
    destruct (map_opt (nth_error l) ks) as [ys'|]; [|discriminate].
    cbn [obind] in E. injection E as <-.
    destruct (IH ys' eq_refl) as [-> HF]. split.
    + cbn [map]. f_equal. symmetry. apply nth_error_nth. exact Ey.
    + constructor; [|exact HF]. apply nth_error_Some. congruence.
Qed.

Section Sampled.

Variable nq : nat.
Variable pts : list (list R * cmatrix).

Hypothesis evaluated :
  forall n m, (n < nq)%nat -> (m < nq)%nat ->
    exists D, calculate (mesh_q nq n) (mesh_q nq m) 0 = Some D
              /\ length (fst (eigh bands D)) = bands.
Hypothesis sampled :
  map_opt sample_displacements (mesh_pairs (map (mesh_q nq) (range nq)))
  = Some pts.

(** The rows of the gathered array [w]. *)
Lemma gathered_rows (n m : nat) :
  (n < nq)%nat -> (m < nq)%nat ->
  exists D,
    calculate (mesh_q nq n) (mesh_q nq m) 0 = Some D
    /\ length (fst (frequencies_and_displacements eigh bands D)) = bands
    /\ unflatten nq (fun i => fst (nth i pts (junk_w, junk_e))) n m
       = fst (frequencies_and_displacements eigh bands D).
Proof.
  intros Hn Hm. destruct (evaluated n m Hn Hm) as [D [ED Hl]].
  exists D. split; [exact ED|]. split.
  - unfold frequencies_and_displacements.
    destruct (eigh bands D) as [w2 E]. cbn [fst] in *.
    rewrite length_map. exact Hl.
  - destruct (map_opt_nth _ _ _ sampled) as [_ Hnth].
    destruct (Hnth _ _ (mesh_nth nq n m Hn Hm)) as [y [Ey Hy]].
    destruct (sample_displacements_returns _ _ D ED Hl) as [E EE].
    rewrite EE in Ey. injection Ey as <-.
    unfold unflatten. rewrite (nth_error_nth _ _ _ Hy). reflexivity.
Qed.

(** The rows of [w] after the two windings and the two rolls. *)
Lemma rolled_rows (n m : nat) :
  (n < nq)%nat -> (m < nq)%nat ->
  exists D,
    calculate (mesh_q nq (roll_index nq (nq / 2) n))
              (mesh_q nq (roll_index nq (nq / 2) m)) 0 = Some D
    /\ length (fst (frequencies_and_displacements eigh bands D)) = bands
    /\ roll nq (nq / 2) 1
         (roll nq (nq / 2) 0
            (wind nq (wind nq
               (unflatten nq (fun i => fst (nth i pts (junk_w, junk_e)))))))
         n m
       = fst (frequencies_and_displacements eigh bands D).
Proof.
  intros Hn Hm. pose proof (roll_index_lt nq n Hn) as Hn'.
  pose proof (roll_index_lt nq m Hm) as Hm'.
  destruct (gathered_rows _ _ Hn' Hm') as [D [ED [Hl Hw]]].
  exists D. split; [exact ED|]. split; [exact Hl|].
  cbn [roll]. rewrite wind_wind by exact Hm'. exact Hw.
Qed.

End Sampled.

Lemma matched_valid (N : nat) (w : nat -> nat -> R)
  (e : nat -> nat -> nat -> complex) (order : nat -> nat -> nat) :
  matched_below bands w e N order ->
  forall i nu, (i < N)%nat -> (nu < bands)%nat -> (order i nu < bands)%nat.
Proof.
  intros [H0 Hm] i nu Hi Hnu. destruct (Nat.eq_dec i 0) as [->|Hne].
  - rewrite H0. exact Hnu.
  - destruct (py_max_key_spec _ _ _ (Hm i nu ltac:(lia) Hnu)) as [Hin _].
    apply in_seq in Hin. lia.
Qed.

(** X16: with ordering, under the same conditions, the run without the
    symmetry pass returns; and whenever a run returns, with the pass or
    without, the entry [(n, m)] of the result belongs to the wavevector
    whose mesh indices are [n] and [m] rolled back by [nq // 2]: its
    frequencies are those of the matrix at that wavevector, picked as the
    tuple [order[n, m]] says, and they are a rearrangement of them when the
    tuple is a permutation of the bands.  The component of that wavevector
    is [2 * pi * (i + nq % 2) / nq] up to a period, so the zero wavevector
    stands at the index 0 for an even [nq] and at the index [nq - 1] for an
    odd one. *)
Theorem dispersion_ordered (size nq : nat) :
  (1 <= size)%nat -> (1 <= nq)%nat -> calculate 0 0 0 <> None ->
  (forall n m, (n < nq)%nat -> (m < nq)%nat ->
     exists D, calculate (mesh_q nq n) (mesh_q nq m) 0 = Some D
               /\ length (fst (eigh bands D)) = bands) ->
  (exists w order, dispersion size nq true false = Some (w, Some order))
  /\ (forall fix_ w order,
        dispersion size nq true fix_ = Some (w, order) ->
        exists tuples_,
          order = Some tuples_
          /\ forall n m, (n < nq)%nat -> (m < nq)%nat ->
               exists D,
                 calculate (mesh_q nq (roll_index nq (nq / 2) n))
                           (mesh_q nq (roll_index nq (nq / 2) m)) 0 = Some D
                 /\ Forall (fun k => (k < bands)%nat) (tuples_ n m)
                 /\ w n m
                    = map (fun k =>
                             nth k (fst (frequencies_and_displacements
                                           eigh bands D)) 0)
                          (tuples_ n m)
                 /\ (Permutation (tuples_ n m) (range bands) ->
                     Permutation (w n m)
                       (fst (frequencies_and_displacements eigh bands D))))
  /\ (forall i, (i < nq)%nat ->
        (roll_index nq (nq / 2) i < nq)%nat
        /\ (roll_index nq (nq / 2) i = (nq / 2)%nat
            <-> i = ((nq - nq mod 2) mod nq)%nat)
        /\ mesh_q nq (roll_index nq (nq / 2) i)
           = INR (i + nq mod 2) * (2 * PI / INR nq)
             - (if (i <? nq / 2)%nat then 0 else 2 * PI)).
Proof.
  intros Hs Hq H0 Hc.
  destruct (map_opt_defined sample_displacements
              (mesh_pairs (map (mesh_q nq) (range nq)))) as [pts Ep].
  { intros q Hin. destruct (in_mesh nq q Hin) as (n & m & Hn & Hm & ->).
    destruct (Hc n m Hn Hm) as [D [ED Hl]].
    destruct (sample_displacements_returns _ _ D ED Hl) as [E EE].
    eexists. exact EE. }
  assert (HN : (1 <= nq ^ 2)%nat) by (cbn; nia).
  split; [|split].
  - unfold dispersion.
    destruct (calculate 0 0 0) as [D0|]; [|contradiction]. cbn [obind].
    rewrite wavevectors_eq by exact Hq. cbn [obind negb]. cbv zeta.
    rewrite gather_scatter_all by (exact Hs || apply mesh_length).
    rewrite Ep. cbn [obind].
    match goal with
    | |- context [band_order ?N ?b ?w ?e ?j] =>
        destruct (band_order_matched N b w e j HN) as [ord [Eo Hmatch]];
        pose proof (matched_valid _ _ _ _ Hmatch) as Hv
    end.
    rewrite Eo. cbn [obind]. rewrite mesh_loops.
    match goal with
    | |- context [for_each _ (fun p => reorder_point ?o (fst p) (snd p)) ?w0]
      => destruct (reorder_returns o (mesh_points nq) w0) as [w' Ew]
    end.
    + apply NoDup_mesh_points.
    + intros n m Hin. apply in_mesh_points in Hin. destruct Hin as [Hn Hm].
      destruct (rolled_rows nq pts Hc Ep n m Hn Hm) as [D [_ [Hl ->]]].
      apply map_opt_defined. intros k Hk. unfold tuples in Hk.
      apply in_map_iff in Hk. destruct Hk as [nu [<- Hnu]].
      apply in_seq in Hnu.
      assert (Hk : (roll nq (nq / 2) 1
                      (roll nq (nq / 2) 0 (wind nq (unflatten nq ord)))
                      n m nu < bands)%nat).
      { cbn [roll]. rewrite wind_eq.
        pose proof (roll_index_lt nq n Hn) as Hn'.
        pose proof (roll_index_lt nq m Hm) as Hm'.
        destruct (Nat.even _ && _)%nat; unfold unflatten; apply Hv;
          try (apply flat_lt; lia); lia. }
      destruct (nth_error (fst (frequencies_and_displacements eigh bands D))
                          _) eqn:En; [eexists; reflexivity|].
      apply nth_error_None in En. lia.
    + rewrite Ew. cbn [obind]. eexists. eexists. reflexivity.
  - intros fix_ w order Hrun. unfold dispersion in Hrun.
    destruct (calculate 0 0 0) as [D0|]; [|contradiction].
    cbn [obind] in Hrun.
    rewrite wavevectors_eq in Hrun by exact Hq.
    cbn [obind negb] in Hrun. cbv zeta in Hrun.
    rewrite gather_scatter_all in Hrun by (exact Hs || apply mesh_length).
    rewrite Ep in Hrun. cbn [obind] in Hrun.
    destruct (band_order _ _ _ _ _) as [ord|]; [|discriminate].
    cbn [obind] in Hrun.
    match type of Hrun with
    | obind ?c _ = _ => destruct c as [tuples_|]; [|discriminate]
    end.
    cbn [obind] in Hrun. rewrite mesh_loops in Hrun.
    match type of Hrun with
    | obind ?c _ = _ => destruct c as [w'|] eqn:Ew; [|discriminate]
    end.
    cbn [obind] in Hrun. injection Hrun as <- <-.
    exists tuples_. split; [reflexivity|]. intros n m Hn Hm.
    destruct (reorder_rows _ _ _ _ (NoDup_mesh_points nq) Ew) as [Hin _].
    specialize (Hin n m ltac:(apply in_mesh_points; lia)).
    destruct (rolled_rows nq pts Hc Ep n m Hn Hm) as [D [ED [Hl Hw]]].
    rewrite Hw in Hin. exists D. split; [exact ED|].
    destruct (map_opt_nth_error _ _ _ 0 Hin) as [E HF].
    rewrite Hl in HF. split; [exact HF|]. split; [exact E|].
    intros HP. rewrite E.
    pose proof (map_nth_range
                  (fst (frequencies_and_displacements eigh bands D)) 0) as X.
    rewrite Hl in X.
    apply (Permutation_trans
             (Permutation_map
                (fun k => nth k (fst (frequencies_and_displacements
                                        eigh bands D)) 0) HP)).
    rewrite X. apply Permutation_refl.
  - intros i Hi. split; [apply roll_index_lt; exact Hi|].
    apply roll_index_half. exact Hi.
Qed.

(** X17: the result of [dispersion], an exception included, does not
    depend on the number of workers. *)
Theorem dispersion_any_workers (size size' nq : nat) (order fix_ : bool) :
  (1 <= size)%nat -> (1 <= size')%nat ->
  dispersion size nq order fix_ = dispersion size' nq order fix_.
Proof.
  intros Hs Hs'.
  rewrite (dispersion_serial size) by exact Hs.
  rewrite (dispersion_serial size') by exact Hs'. reflexivity.
Qed.

End DispersionProofs.

Lemma dispersion_any_workers_witness :
  dispersion free_crystal 3 zero_eigvalsh zero_eigh (1, 0) (0, 1) no_rotation
             (fun _ _ => 0) own_image [] (fun _ _ => C0) (fun _ _ => O)
             2 3 true true
  = dispersion free_crystal 3 zero_eigvalsh zero_eigh (1, 0) (0, 1)
               no_rotation (fun _ _ => 0) own_image [] (fun _ _ => C0)
               (fun _ _ => O) 5 3 true true.
Proof. apply dispersion_any_workers; lia. Defined.

Lemma dispersion_unordered_witness :
  exists w,
    dispersion free_crystal 3 zero_eigvalsh zero_eigh (1, 0) (0, 1)
               no_rotation (fun _ _ => 0) own_image [] (fun _ _ => C0)
               (fun _ _ => O) 2 3 false true = Some (w, None)
    /\ w 1%nat 1%nat = frequencies zero_eigvalsh 3 (fun _ _ => C0).
Proof.
  destruct (dispersion_unordered free_crystal 3 zero_eigvalsh zero_eigh
              (1, 0) (0, 1) no_rotation (fun _ _ => 0) own_image []
              (fun _ _ => C0) (fun _ _ => O) 2 3 true)
    as [w [E [Hw _]]]; try lia.
  - discriminate.
  - intros n m _ _. eexists. split; reflexivity.
  - exists w. split; [exact E|].
    destruct (Hw 1%nat 1%nat ltac:(lia) ltac:(lia)) as [D [ED ->]].
    injection ED as <-. reflexivity.
Defined.

Lemma dispersion_ordered_witness :
  exists w order,
    dispersion free_crystal 3 zero_eigvalsh zero_eigh (1, 0) (0, 1)
               no_rotation (fun _ _ => 0) own_image [] (fun _ _ => C0)
               (fun _ _ => O) 2 3 true false = Some (w, Some order).
Proof.
  apply (dispersion_ordered free_crystal 3 zero_eigvalsh zero_eigh
           (1, 0) (0, 1) no_rotation (fun _ _ => 0) own_image []
           (fun _ _ => C0) (fun _ _ => O) 2 3); try lia.
  - discriminate.
  - intros n m _ _. eexists. split; reflexivity.
Defined.

Lemma wavevectors_of_mesh_witness :
  exists qs, wavevectors 2 = Some qs /\ nth_error qs 3 = Some (0, 0).
Proof.
  destruct (proj2 wavevectors_of_mesh 2%nat (le_S _ _ (le_n 1)))
    as [qs (E & _ & _ & _ & H)].
  exists qs. split; [exact E|exact H].
Defined.

Lemma winding_path_visits_neighbours_witness :
  neighbours (path 3 2) (path 3 3).
Proof.
  apply (proj1 (proj2 (winding_path_visits_neighbours nat 3 (fun _ _ => O)))).
  cbn. lia.
Defined.

(** ** Reading the lines of the file *)

Lemma for_each_range_inv {St : Type} (n : nat) (body : nat -> St -> option St)
  (P : nat -> St -> Prop) (s s' : St) :
  P O s ->
  (forall i s s', (i < n)%nat -> P i s -> body i s = Some s' -> P (S i) s') ->
  for_each (range n) body s = Some s' -> P n s'.
Proof.
  intros H0 Hstep. unfold range.
  assert (G : forall k a s s',
            (a + k <= n)%nat -> P a s ->
            for_each (seq a k) body s = Some s' -> P (a + k)%nat s').
  { induction k as [|k IH]; intros a t t' Hle Ha E.
    - cbn [seq for_each] in E. injection E as <-.
      rewrite Nat.add_0_r. exact Ha.
    - cbn [seq for_each] in E.
      destruct (body a t) as [t1|] eqn:E1; [|discriminate].
      cbn [obind] in E. replace (a + S k)%nat with (S a + k)%nat by lia.
      apply (IH (S a) t1 t'); [lia| |exact E].
      apply (Hstep a t t1); [lia|exact Ha|exact E1]. }
  intros E. apply (G n O s s'); [lia|exact H0|exact E].
Qed.

Lemma for_each_range_defined {St : Type} (n : nat)
  (body : nat -> St -> option St) (P : nat -> St -> Prop) (s : St) :
  P O s ->
  (forall i s, (i < n)%nat -> P i s ->
     exists s', body i s = Some s' /\ P (S i) s') ->
  exists s', for_each (range n) body s = Some s' /\ P n s'.
Proof.
  intros H0 Hstep. unfold range.
  assert (G : forall k a s,
            (a + k <= n)%nat -> P a s ->
            exists s', for_each (seq a k) body s = Some s'
                       /\ P (a + k)%nat s').
  { induction k as [|k IH]; intros a t Hle Ha.
    - exists t. rewrite Nat.add_0_r. auto.
    - destruct (Hstep a t ltac:(lia) Ha) as [t1 [E1 H1]].
      destruct (IH (S a) t1 ltac:(lia) H1) as [t' [E' H']].
      exists t'. cbn [seq for_each]. rewrite E1. cbn [obind].
      replace (a + S k)%nat with (S a + k)%nat by lia. auto. }
  apply (G n O s); [lia|exact H0].
Qed.

Lemma cells_skipn (f : file) (i : nat) :
  cells (skipn i f) = (nth i f [], skipn (S i) f).
Proof.
  revert i. induction f as [|l f IH]; intros [|i]; try reflexivity.
  cbn [skipn nth]. apply IH.
Qed.

Lemma nth_nonempty (f : file) (i : nat) :
  nth i f [] <> [] -> nth_error f i = Some (nth i f []).
Proof.
  intros H. apply nth_error_nth'. destruct (Nat.lt_ge_cases i (length f));
    [assumption|]. rewrite nth_overflow in H by assumption. contradiction.
Qed.

Lemma skipn_skipn' {A : Type} (a b : nat) (l : list A) :
  skipn a (skipn b l) = skipn (b + a) l.
Proof.
  revert l. induction b as [|b IH]; intros l; [reflexivity|].
  destruct l as [|x l]; [rewrite !skipn_nil; reflexivity|].
  cbn [skipn Nat.add]. apply IH.
Qed.

Lemma nth_skipn {A : Type} (a i : nat) (l : list A) (d : A) :
  nth i (skipn a l) d = nth (a + i) l d.
Proof.
  revert l. induction a as [|a IH]; intros l; [reflexivity|].
  destruct l as [|x l]; [destruct i; reflexivity|].
  cbn [skipn Nat.add nth]. apply IH.
Qed.

Lemma mget_mset_same (K : mat3) (j1 j2 : nat) (v : R) :
  mget (mset K j1 j2 v) j1 j2 = v.
Proof.
  mat_destruct. destruct j1 as [|[|j1]], j2 as [|[|j2]]; reflexivity.
Qed.

Lemma mget_mset_other (K : mat3) (j1 j2 i1 i2 : nat) (v : R) :
  (j1 < 3)%nat -> (j2 < 3)%nat -> (i1 < 3)%nat -> (i2 < 3)%nat ->
  (j1, j2) <> (i1, i2) ->
  mget (mset K j1 j2 v) i1 i2 = mget K i1 i2.
Proof.
  intros H1 H2 H3 H4 Hne. mat_destruct.
  destruct j1 as [|[|[|j1]]], j2 as [|[|[|j2]]], i1 as [|[|[|i1]]],
           i2 as [|[|[|i2]]]; try lia; try reflexivity;
    exfalso; apply Hne; reflexivity.
Qed.

Section ReadProofs.

Variable py_int : string -> option Z.
Variable py_float : string -> option R.
Variable junk_block : mat3.


(** [table(rows)] reads the next [rows] lines, all words of each. *)
Lemma table_lines (rows : nat) (f f' : file) (t : list (list R)) :
  table py_float rows f = Some (t, f') ->
  f' = skipn rows f /\ length t = rows
  /\ forall i, (i < rows)%nat ->
       map_opt py_float (nth i f []) = Some (nth i t []).
Proof.
  revert f t. induction rows as [|rows IH]; intros f t E.
  - cbn in E. injection E as <- <-.
    split; [reflexivity|]. split; [reflexivity|]. intros i Hi. lia.
  - cbn [table] in E.
    change f with (skipn 0 f) in E at 1. rewrite cells_skipn in E.
    destruct (map_opt py_float (nth 0 f [])) as [row|] eqn:Er;
      [|discriminate].
    cbn [obind] in E.
    destruct (table py_float rows (skipn 1 f)) as [[t1 f2]|] eqn:Et;
      [|discriminate].
    cbn [obind] in E. injection E as <- <-.
    destruct (IH _ _ Et) as (-> & Hl & Hn).
    split; [apply skipn_skipn'|]. split; [cbn [length]; lia|].
    intros [|i] Hi; [exact Er|]. cbn [nth].
    rewrite <- (Hn i ltac:(lia)). rewrite nth_skipn. reflexivity.
Qed.

(** The loop over the species reads one line for each: the line has at
    least two words, and the last word is the mass. *)
Lemma species_lines (ntyp : nat) (f f' : file) (amass : list R) :
  read_species py_float ntyp f = Some (amass, f') ->
  f' = skipn ntyp f /\ length amass = ntyp
  /\ forall nt, (nt < ntyp)%nat ->
       exists tmp,
         nth_error f nt = Some tmp /\ (2 <= length tmp)%nat
         /\ py_float (last tmp EmptyString) = Some (nth nt amass 0).
Proof.
  intros E. unfold read_species in E.
  apply (for_each_range_inv ntyp _
           (fun i (s : list R * file) =>
              snd s = skipn i f /\ length (fst s) = i
              /\ forall nt, (nt < i)%nat ->
                   exists tmp,
                     nth_error f nt = Some tmp /\ (2 <= length tmp)%nat
                     /\ py_float (last tmp EmptyString)
                        = Some (nth nt (fst s) 0)) _ _) in E.
  - exact E.
  - cbn [fst snd]. split; [reflexivity|]. split; [reflexivity|].
    intros nt Hnt. lia.
  - clear E. intros i [am g] s' Hi (Hf & Hl & Hn) Eb. cbn [fst snd] in *.
    subst g. rewrite cells_skipn in Eb.
    destruct (nth_error (nth i f []) 1) as [w1|] eqn:E1; [|discriminate].
    cbn [obind] in Eb.
    destruct (py_float (last (nth i f []) EmptyString)) as [m|] eqn:Em;
      [|discriminate].
    cbn [obind] in Eb. injection Eb as <-. cbn [fst snd].
    split; [reflexivity|]. split; [rewrite length_app; cbn; lia|].
    intros nt Hnt. destruct (Nat.eq_dec nt i) as [->|Hne].
    + exists (nth i f []).
      assert (Hlen : (2 <= length (nth i f []))%nat).
      { assert (H : (1 < length (nth i f []))%nat)
          by (apply nth_error_Some; congruence). lia. }
      split; [apply nth_nonempty; intros H0; rewrite H0 in Hlen;
              cbn in Hlen; lia|].
      split; [exact Hlen|].
      rewrite app_nth2, Hl, Nat.sub_diag by lia. exact Em.
    + destruct (Hn nt ltac:(lia)) as [tmp (H1 & H2 & H3)].
      exists tmp. rewrite app_nth1 by lia. auto.
Qed.

(** The loop over the atoms reads one line for each: the second word is
    the number of the species, the next words are the position. *)
Lemma atoms_lines (nat_ : nat) (f f' : file) (ityp : list Z)
  (tau : list (list R)) :
  read_atoms py_int py_float nat_ f = Some (ityp, tau, f') ->
  f' = skipn nat_ f /\ length ityp = nat_ /\ length tau = nat_
  /\ forall na, (na < nat_)%nat ->
       exists tmp word t xs,
         nth_error f na = Some tmp /\ nth_error tmp 1 = Some word
         /\ py_int word = Some t /\ nth na ityp 0%Z = (t - 1)%Z
         /\ map_opt py_float (firstn 3 (skipn 2 tmp)) = Some xs
         /\ broadcast3 xs = Some (nth na tau []).
Proof.
  intros E. unfold read_atoms in E.
  apply (for_each_range_inv nat_ _
           (fun i (s : list Z * list (list R) * file) =>
              snd s = skipn i f /\ length (fst (fst s)) = i
              /\ length (snd (fst s)) = i
              /\ forall na, (na < i)%nat ->
                   exists tmp word t xs,
                     nth_error f na = Some tmp
                     /\ nth_error tmp 1 = Some word
                     /\ py_int word = Some t
                     /\ nth na (fst (fst s)) 0%Z = (t - 1)%Z
                     /\ map_opt py_float (firstn 3 (skipn 2 tmp)) = Some xs
                     /\ broadcast3 xs = Some (nth na (snd (fst s)) [])) _ _)
    in E.
  - exact E.
  - cbn [fst snd]. repeat (split; [reflexivity|]). intros na Hna. lia.
  - clear E. intros i [[it ta] g] s' Hi (Hf & Hl1 & Hl2 & Hn) Eb.
    cbn [fst snd] in *. subst g. rewrite cells_skipn in Eb.
    destruct (nth_error (nth i f []) 1) as [w1|] eqn:E1; [|discriminate].
    cbn [obind] in Eb.
    destruct (py_int w1) as [t|] eqn:Et; [|discriminate].
    cbn [obind] in Eb.
    destruct (map_opt py_float (firstn 3 (skipn 2 (nth i f []))))
      as [xs|] eqn:Ex; [|discriminate].
    cbn [obind] in Eb.
    destruct (broadcast3 xs) as [row|] eqn:Eb3; [|discriminate].
    cbn [obind] in Eb. injection Eb as <-. cbn [fst snd].
    split; [reflexivity|].
    split; [rewrite length_app; cbn; lia|].
    split; [rewrite length_app; cbn; lia|].
    intros na Hna. destruct (Nat.eq_dec na i) as [->|Hne].
    + exists (nth i f []), w1, t, xs.
      split; [apply nth_nonempty; intros H0; rewrite H0 in E1;
              discriminate|].
      rewrite !app_nth2, Hl1, Hl2, Nat.sub_diag by lia. cbn [nth]. auto.
    + destruct (Hn na ltac:(lia)) as (tmp & w & t' & xs' & H).
      exists tmp, w, t', xs'. rewrite !app_nth1 by lia. exact H.
Qed.

(** The dielectric function and the effective charges take three lines and
    three lines for each atom. *)
Lemma rigid_lines (nat_ : nat) (f f' : file) :
  read_rigid py_float nat_ f = Some f' -> f' = skipn (3 + 3 * nat_) f.
Proof.
  unfold read_rigid.
  destruct (table py_float 3 f) as [[t f1]|] eqn:Et; [|discriminate].
  cbn [obind]. destruct (table_lines _ _ _ _ Et) as (-> & _ & _).
  intros E.
  apply (for_each_range_inv nat_ _
           (fun i (g : file) => g = skipn (3 + 3 * i) f) _ _) in E.
  - exact E.
  - reflexivity.
  - clear E. intros i g g' Hi -> Eb.
    destruct (table py_float 3 (skipn (3 + 3 * i) f)) as [[t' f2]|] eqn:Et';
      [|discriminate].
    cbn [obind] in Eb. destruct (fits33 t'); [|discriminate].
    injection Eb as <-. destruct (table_lines _ _ _ _ Et') as (-> & _ & _).
    rewrite skipn_skipn'. f_equal. lia.
Qed.

(** The seven loops over the force constants read the lines of the block
    one after the other. *)
Lemma read_phid_lines (nat_ nr1 nr2 nr3 : nat) (f : file) :
  read_phid py_float junk_block nat_ nr1 nr2 nr3 f
  = for_each (phid_lines nat_ nr1 nr2 nr3) (read_line py_float)
      ({| fc_nat := nat_; fc_nr1 := nr1; fc_nr2 := nr2; fc_nr3 := nr3;
          fc_phid := fun _ _ _ _ _ => junk_block |}, f).
Proof.
  unfold read_phid, phid_lines.
  rewrite for_each_flat_map. apply for_each_ext; intros j1 s _.
  rewrite for_each_flat_map. apply for_each_ext; intros j2 s2 _.
  rewrite for_each_flat_map. apply for_each_ext; intros na1 s3 _.
  rewrite for_each_flat_map. apply for_each_ext; intros na2 s4 _.
  cbn [for_each read_line obind].
  destruct (cells (snd s4)) as [tmp f1]. cbn [snd]. unfold entry_lines.
  rewrite for_each_flat_map. apply for_each_ext; intros m3 s5 _.
  rewrite for_each_flat_map. apply for_each_ext; intros m2 s6 _.
  rewrite for_each_map. reflexivity.
Qed.

Lemma nth_error_range (n i x : nat) :
  nth_error (range n) i = Some x -> x = i /\ (i < n)%nat.
Proof.
  intros H. assert (Hi : (i < n)%nat).
  { rewrite <- (length_seq n 0). apply nth_error_Some. unfold range in H.
    congruence. }
  unfold range in H. rewrite (nth_error_nth' _ O) in H
    by (rewrite length_seq; exact Hi).
  rewrite seq_nth in H by exact Hi. injection H as <-. auto.
Qed.

Lemma nth_error_range_lt (n i : nat) :
  (i < n)%nat -> nth_error (range n) i = Some i.
Proof.
  intros Hi. unfold range.
  rewrite (nth_error_nth' _ O) by (rewrite length_seq; exact Hi).
  rewrite seq_nth by exact Hi. reflexivity.
Qed.

Lemma nth_error_blocks_inv {A B : Type} (f : A -> list B) (l : list A)
  (k n : nat) (y : B) :
  (forall x, In x l -> length (f x) = k) ->
  nth_error (flat_map f l) n = Some y ->
  exists i x j,
    nth_error l i = Some x /\ (j < k)%nat /\ n = (i * k + j)%nat
    /\ nth_error (f x) j = Some y.
Proof.
  revert n. induction l as [|x l IH]; intros n Hk H.
  - destruct n; discriminate.
  - cbn [flat_map] in H.
    pose proof (Hk x (or_introl eq_refl)) as Hx.
    destruct (Nat.lt_ge_cases n k) as [Hlt|Hge].
    + rewrite nth_error_app1 in H by lia.
      exists O, x, n. repeat split; [exact Hlt|exact H].
    + rewrite nth_error_app2, Hx in H by lia.
      destruct (IH (n - k)%nat (fun z Hz => Hk z (or_intror Hz)) H)
        as (i & z & j & Hi & Hj & En & Hy).
      exists (S i), z, j. repeat split; [exact Hi|exact Hj|lia|exact Hy].
Qed.

Section BlockLines.

Variables nat_ nr1 nr2 nr3 : nat.

Local Open Scope nat_scope.

Lemma length_range (n : nat) : length (range n) = n.
Proof. apply length_seq. Qed.

Lemma length_entry_lines (j1 j2 na1 na2 : nat) :
  length (entry_lines nr1 nr2 nr3 j1 j2 na1 na2) = nr3 * (nr2 * nr1).
Proof.
  unfold entry_lines.
  rewrite (length_blocks _ _ (nr2 * nr1)), length_range; [reflexivity|].
  intros m3 _. rewrite (length_blocks _ _ nr1), length_range; [reflexivity|].
  intros m2 _. rewrite length_map. apply length_range.
Qed.

Lemma length_atom_lines (j1 j2 na1 : nat) :
  length (flat_map (fun na2 =>
            None :: entry_lines nr1 nr2 nr3 j1 j2 na1 na2) (range nat_))
  = nat_ * (1 + nr3 * (nr2 * nr1)).
Proof.
  rewrite (length_blocks _ _ (1 + nr3 * (nr2 * nr1))), length_range;
    [reflexivity|].
  intros na2 _. cbn [length]. rewrite length_entry_lines. reflexivity.
Qed.

Lemma length_pair_lines (j1 j2 : nat) :
  length (flat_map (fun na1 =>
            flat_map (fun na2 =>
              None :: entry_lines nr1 nr2 nr3 j1 j2 na1 na2) (range nat_))
            (range nat_))
  = nat_ * (nat_ * (1 + nr3 * (nr2 * nr1))).
Proof.
  rewrite (length_blocks _ _ (nat_ * (1 + nr3 * (nr2 * nr1)))), length_range;
    [reflexivity|].
  intros na1 _. apply length_atom_lines.
Qed.

Lemma length_row_lines (j1 : nat) :
  length (flat_map (fun j2 =>
            flat_map (fun na1 =>
              flat_map (fun na2 =>
                None :: entry_lines nr1 nr2 nr3 j1 j2 na1 na2) (range nat_))
              (range nat_)) (range 3))
  = 3 * (nat_ * (nat_ * (1 + nr3 * (nr2 * nr1)))).
Proof.
  rewrite (length_blocks _ _ (nat_ * (nat_ * (1 + nr3 * (nr2 * nr1))))),
    length_range; [reflexivity|].
  intros j2 _. apply length_pair_lines.
Qed.

Lemma length_phid_lines :
  length (phid_lines nat_ nr1 nr2 nr3)
  = 9 * (nat_ * (nat_ * (1 + nr3 * (nr2 * nr1)))).
Proof.
  unfold phid_lines.
  rewrite (length_blocks _ _ (3 * (nat_ * (nat_ * (1 + nr3 * (nr2 * nr1)))))),
    length_range; [lia|].
  intros j1 _. apply length_row_lines.
Qed.

(** Where an entry stands in the block. *)
Lemma entry_placed (k : nat) (e : entry) :
  nth_error (phid_lines nat_ nr1 nr2 nr3) k = Some (Some e) ->
  valid_entry nat_ nr1 nr2 nr3 e /\ line_of nat_ nr1 nr2 nr3 e = k.
Proof.
  unfold phid_lines. intros H.
  apply (nth_error_blocks_inv _ _ _ _ _
           (fun j1 _ => length_row_lines j1)) in H.
  destruct H as (i1 & j1 & r1 & H1 & _ & -> & H).
  apply nth_error_range in H1. destruct H1 as [-> Hj1].
  apply (nth_error_blocks_inv _ _ _ _ _
           (fun j2 _ => length_pair_lines i1 j2)) in H.
  destruct H as (i2 & j2 & r2 & H2 & _ & -> & H).
  apply nth_error_range in H2. destruct H2 as [-> Hj2].
  apply (nth_error_blocks_inv _ _ _ _ _
           (fun na1 _ => length_atom_lines i1 i2 na1)) in H.
  destruct H as (i3 & na1 & r3 & H3 & _ & -> & H).
  apply nth_error_range in H3. destruct H3 as [-> Hna1].
  apply (nth_error_blocks_inv _ _ (1 + nr3 * (nr2 * nr1))) in H.
  2:{ intros na2 _. cbn [length]. rewrite length_entry_lines. reflexivity. }
  destruct H as (i4 & na2 & r4 & H4 & _ & -> & H).
  apply nth_error_range in H4. destruct H4 as [-> Hna2].
  destruct r4 as [|r5]; [discriminate|]. cbn [nth_error] in H.
  unfold entry_lines in H.
  apply (nth_error_blocks_inv _ _ (nr2 * nr1)) in H.
  2:{ intros m3 _. rewrite (length_blocks _ _ nr1), length_range;
        [reflexivity|].
      intros m2 _. rewrite length_map. apply length_range. }
  destruct H as (i5 & m3 & r6 & H5 & _ & -> & H).
  apply nth_error_range in H5. destruct H5 as [-> Hm3].
  apply (nth_error_blocks_inv _ _ nr1) in H.
  2:{ intros m2 _. rewrite length_map. apply length_range. }
  destruct H as (i6 & m2 & r7 & H6 & _ & -> & H).
  apply nth_error_range in H6. destruct H6 as [-> Hm2].
  rewrite nth_error_map in H.
  destruct (nth_error (range nr1) r7) as [m1|] eqn:H7; [|discriminate].
  apply nth_error_range in H7. destruct H7 as [-> Hm1].
  cbn [option_map] in H. injection H as <-.
  split; [cbn; lia|]. unfold line_of. ring.
Qed.

Lemma entry_found (e : entry) :
  valid_entry nat_ nr1 nr2 nr3 e ->
  nth_error (phid_lines nat_ nr1 nr2 nr3) (line_of nat_ nr1 nr2 nr3 e)
  = Some (Some e).
Proof.
  destruct e as [[[[[[j1 j2] na1] na2] m1] m2] m3].
  intros (Hj1 & Hj2 & Hna1 & Hna2 & Hm1 & Hm2 & Hm3).
  unfold line_of, phid_lines.
  set (B := 1 + nr3 * (nr2 * nr1)).
  replace ((((j1 * 3 + j2) * nat_ + na1) * nat_ + na2) * B + 1
           + ((m3 * nr2 + m2) * nr1 + m1))
    with (j1 * (3 * (nat_ * (nat_ * B)))
          + (j2 * (nat_ * (nat_ * B))
             + (na1 * (nat_ * B)
                + (na2 * B + S (m3 * (nr2 * nr1) + (m2 * nr1 + m1))))))
    by ring.
  assert (H7 : m2 * nr1 + m1 < nr2 * nr1) by nia.
  assert (H5 : S (m3 * (nr2 * nr1) + (m2 * nr1 + m1)) < B)
    by (unfold B; nia).
  assert (H4 : na2 * B + S (m3 * (nr2 * nr1) + (m2 * nr1 + m1)) < nat_ * B)
    by nia.
  assert (H3 : na1 * (nat_ * B)
               + (na2 * B + S (m3 * (nr2 * nr1) + (m2 * nr1 + m1)))
               < nat_ * (nat_ * B)) by nia.
  assert (H2 : j2 * (nat_ * (nat_ * B))
               + (na1 * (nat_ * B)
                  + (na2 * B + S (m3 * (nr2 * nr1) + (m2 * nr1 + m1))))
               < 3 * (nat_ * (nat_ * B))) by nia.
  rewrite (nth_error_blocks _ _ (3 * (nat_ * (nat_ * B))) j1 _ j1
             (fun j _ => length_row_lines j)
             (nth_error_range_lt 3 j1 Hj1) H2).
  rewrite (nth_error_blocks _ _ (nat_ * (nat_ * B)) j2 _ j2
             (fun j _ => length_pair_lines j1 j)
             (nth_error_range_lt 3 j2 Hj2) H3).
  rewrite (nth_error_blocks _ _ (nat_ * B) na1 _ na1
             (fun a _ => length_atom_lines j1 j2 a)
             (nth_error_range_lt nat_ na1 Hna1) H4).
  rewrite (nth_error_blocks _ _ B na2 _ na2).
  2:{ intros a _. cbn [length]. rewrite length_entry_lines. reflexivity. }
  2:{ apply nth_error_range_lt. exact Hna2. }
  2:{ exact H5. }
  cbn [nth_error]. unfold entry_lines.
  rewrite (nth_error_blocks _ _ (nr2 * nr1) m3 _ m3).
  2:{ intros m _. rewrite (length_blocks _ _ nr1), length_range;
        [reflexivity|].
      intros m' _. rewrite length_map. apply length_range. }
  2:{ apply nth_error_range_lt. exact Hm3. }
  2:{ exact H7. }
  rewrite (nth_error_blocks _ _ nr1 m2 _ m2).
  2:{ intros m _. rewrite length_map. apply length_range. }
  2:{ apply nth_error_range_lt. exact Hm2. }
  2:{ exact Hm1. }
  rewrite nth_error_map, nth_error_range_lt by exact Hm1. reflexivity.
Qed.

End BlockLines.

Lemma for_each_nth_inv {A St : Type} (l : list A)
  (body : A -> St -> option St) (P : nat -> St -> Prop) (s s' : St) :
  P O s ->
  (forall i x s s', nth_error l i = Some x -> P i s -> body x s = Some s' ->
     P (S i) s') ->
  for_each l body s = Some s' -> P (length l) s'.
Proof.
  intros H0 Hstep.
  assert (G : forall l2 l1 s s',
            l = l1 ++ l2 -> P (length l1) s ->
            for_each l2 body s = Some s' -> P (length l) s').
  { induction l2 as [|x l2 IH]; intros l1 t t' El Ha E.
    - cbn [for_each] in E. injection E as <-.
      rewrite El, app_nil_r. exact Ha.
    - cbn [for_each] in E.
      destruct (body x t) as [t1|] eqn:E1; [|discriminate].
      cbn [obind] in E.
      apply (IH (l1 ++ [x]) t1 t').
      + rewrite <- app_assoc. exact El.
      + rewrite length_app, Nat.add_comm. cbn [length Nat.add].
        apply (Hstep (length l1) x t t1); [|exact Ha|exact E1].
        rewrite El, nth_error_app2, Nat.sub_diag by lia. reflexivity.
      + exact E. }
  intros E. apply (G l [] s s'); [reflexivity|exact H0|exact E].
Qed.

(** One line of the block changes the element of its entry only. *)
Lemma read_line_element (e : entry) (p p' : force_constants) (g g' : file) :
  (let '(j1, j2, _, _, _, _, _) := e in (j1 < 3 /\ j2 < 3)%nat) ->
  read_line py_float (Some e) (p, g) = Some (p', g') ->
  g' = skipn 1 g
  /\ fc_nat p' = fc_nat p /\ fc_nr1 p' = fc_nr1 p /\ fc_nr2 p' = fc_nr2 p
  /\ fc_nr3 p' = fc_nr3 p
  /\ (exists v, nth 0 g [] <> []
                /\ py_float (last (nth 0 g []) EmptyString) = Some v
                /\ element p' e = v)
  /\ forall e', (let '(j1, j2, _, _, _, _, _) := e' in (j1 < 3 /\ j2 < 3)%nat) ->
       e' <> e -> element p' e' = element p e'.
Proof.
  destruct e as [[[[[[j1 j2] na1] na2] m1] m2] m3]. intros [Hj1 Hj2].
  cbn [read_line fst snd]. change g with (skipn 0 g) at 1.
  rewrite cells_skipn.
  destruct (nth_error (nth 0 g []) 0) as [w0|] eqn:E0; [|discriminate].
  cbn [obind].
  destruct (py_float (last (nth 0 g []) EmptyString)) as [v|] eqn:Ev;
    [|discriminate].
  cbn [obind]. intros E. injection E as <- <-.
  split; [reflexivity|]. cbn [fc_nat fc_nr1 fc_nr2 fc_nr3 set_block].
  repeat (split; [reflexivity|]). split.
  - exists v. split; [intros H; rewrite H in E0; discriminate|].
    split; [reflexivity|]. unfold element, set_block. cbn [fc_phid].
    rewrite !Nat.eqb_refl. cbn [andb]. apply mget_mset_same.
  - intros [[[[[[i1 i2] a1] a2] n1] n2] n3] [Hi1 Hi2] Hne.
    unfold element, set_block. cbn [fc_phid].
    destruct ((a1 =? na1) && (a2 =? na2) && (n1 =? m1) && (n2 =? m2)
              && (n3 =? m3))%nat eqn:Ec; [|reflexivity].
    apply andb_prop in Ec as [Ec E5]. apply andb_prop in Ec as [Ec E4].
    apply andb_prop in Ec as [Ec E3]. apply andb_prop in Ec as [E1 E2].
    apply Nat.eqb_eq in E1, E2, E3, E4, E5. subst.
    apply mget_mset_other; try assumption.
    intros H. injection H as -> ->. apply Hne. reflexivity.
Qed.

(** The block of force constants: every element of the array comes from
    the last word of its line. *)
Lemma phid_block (nat_ nr1 nr2 nr3 : nat) (f f' : file)
  (p : force_constants) :
  read_phid py_float junk_block nat_ nr1 nr2 nr3 f = Some (p, f') ->
  f' = skipn (9 * (nat_ * (nat_ * (1 + nr3 * (nr2 * nr1))))) f
  /\ fc_nat p = nat_ /\ fc_nr1 p = nr1 /\ fc_nr2 p = nr2 /\ fc_nr3 p = nr3
  /\ forall e, valid_entry nat_ nr1 nr2 nr3 e ->
       exists tmp v,
         nth_error f (line_of nat_ nr1 nr2 nr3 e) = Some tmp
         /\ tmp <> [] /\ py_float (last tmp EmptyString) = Some v
         /\ element p e = v.
Proof.
  rewrite read_phid_lines. intros E.
  apply (for_each_nth_inv _ _
           (fun i (s : force_constants * file) =>
              snd s = skipn i f
              /\ fc_nat (fst s) = nat_ /\ fc_nr1 (fst s) = nr1
              /\ fc_nr2 (fst s) = nr2 /\ fc_nr3 (fst s) = nr3
              /\ forall k e, (k < i)%nat ->
                   nth_error (phid_lines nat_ nr1 nr2 nr3) k = Some (Some e) ->
                   exists tmp v,
                     nth_error f k = Some tmp /\ tmp <> []
                     /\ py_float (last tmp EmptyString) = Some v
                     /\ element (fst s) e = v) _ _) in E.
  - rewrite length_phid_lines in E. cbn [fst snd] in E.
    destruct E as (Hf & H1 & H2 & H3 & H4 & He).
    repeat (split; [assumption|]).
    intros e Hv. apply (He (line_of nat_ nr1 nr2 nr3 e) e).
    + rewrite <- (length_phid_lines nat_ nr1 nr2 nr3).
      apply nth_error_Some. rewrite entry_found by exact Hv. discriminate.
    + apply entry_found. exact Hv.
  - cbn [fst snd]. repeat (split; [reflexivity|]). intros k e Hk. lia.
  - clear E. intros i l [q g] [q' g'] Hi (Hg & H1 & H2 & H3 & H4 & He) Eb.
    cbn [fst snd] in *. subst g. destruct l as [e|].
    + assert (Hj : let '(j1, j2, _, _, _, _, _) := e in (j1 < 3 /\ j2 < 3)%nat).
      { destruct (entry_placed _ _ _ _ _ _ Hi) as [Hv _].
        destruct e as [[[[[[j1 j2] ?] ?] ?] ?] ?]. cbn in Hv. lia. }
      destruct (read_line_element e q q' _ g' Hj Eb)
        as (-> & E1 & E2 & E3 & E4 & [v (Hne & Ev & Eel)] & Hother).
      split; [rewrite skipn_skipn'; f_equal; lia|].
      repeat (split; [congruence|]).
      intros k e' Hk Hk'. rewrite nth_skipn, Nat.add_0_r in Hne, Ev.
      destruct (Nat.eq_dec k i) as [->|Hki].
      * assert (e' = e) by congruence. subst e'.
        exists (nth i f []), v. split; [apply nth_nonempty; exact Hne|].
        auto.
      * destruct (He k e' ltac:(lia) Hk') as (tmp & v' & Hx).
        exists tmp, v'. rewrite Hother; [exact Hx| |].
        -- destruct (entry_placed _ _ _ _ _ _ Hk') as [Hv _].
           destruct e' as [[[[[[j1 j2] ?] ?] ?] ?] ?]. cbn in Hv. lia.
        -- intros ->. destruct (entry_placed _ _ _ _ _ _ Hk') as [_ L1].
           destruct (entry_placed _ _ _ _ _ _ Hi) as [_ L2]. lia.
    + cbn [read_line fst snd] in Eb. rewrite cells_skipn in Eb.
      cbn [snd] in Eb. injection Eb as <- <-.
      split; [reflexivity|]. repeat (split; [assumption|]).
      intros k e' Hk Hk'. destruct (Nat.eq_dec k i) as [->|Hki];
        [congruence|]. apply (He k e'); [lia|exact Hk'].
Qed.

Lemma np_size_nat (z : Z) (n : nat) :
  np_size z = Some n -> z = Z.of_nat n.
Proof.
  unfold np_size. destruct (Z.ltb_spec z 0); [discriminate|].
  intros E. injection E as <-. rewrite Z2Nat.id; [reflexivity|assumption].
Qed.

(** The parts of a file that [read_flfrc] loads, with the numbers of the
    lines at which they start. *)
Lemma read_flfrc_loaded (f : file) (d : flfrc) :
  read_flfrc py_int py_float junk_block f = Some (Loaded d) ->
  exists (ntyp nat_ : nat) (ibrav : Z) (celldim amass : list R)
         (ityp : list Z) (tau : list (list R)) (c0 : R) (flag : string)
         (nr1 nr2 nr3 : nat) (f1 f2 f3 : file),
    map_opt py_int (firstn 3 (nth 0 f []))
    = Some [Z.of_nat ntyp; Z.of_nat nat_; ibrav]
    /\ map_opt py_float (skipn 3 (nth 0 f [])) = Some celldim
    /\ ((ibrav = 0%Z
         /\ exists f', table py_float 3 (skipn 1 f) = Some (r_at d, f'))
        \/ (ibrav = 4%Z /\ hexagonal_at celldim = Some (r_at d)))
    /\ let o1 := (1 + (if (ibrav =? 0)%Z then 3 else 0))%nat in
       let o2 := (o1 + ntyp)%nat in
       let o3 := (o2 + nat_)%nat in
       let o4 := (o3 + 1 + (if String.eqb flag "T" then 3 + 3 * nat_
                            else 0))%nat in
       read_species py_float ntyp (skipn o1 f) = Some (amass, f1)
       /\ read_atoms py_int py_float nat_ (skipn o2 f) = Some (ityp, tau, f2)
       /\ nth_error celldim 0 = Some c0
       /\ nth_error (nth o3 f []) 0 = Some flag
       /\ map_opt py_int (nth o4 f [])
          = Some [Z.of_nat nr1; Z.of_nat nr2; Z.of_nat nr3]
       /\ read_phid py_float junk_block nat_ nr1 nr2 nr3 (skipn (S o4) f)
          = Some (r_phid d, f3)
       /\ map_opt (py_index amass) ityp = Some (r_amass d)
       /\ r_tau d = map (map (fun x => x * c0)) tau.
Proof.
  unfold read_flfrc. change f with (skipn 0 f) at 1. rewrite cells_skipn.
  destruct (map_opt py_int (firstn 3 (nth 0 f []))) as [ints|] eqn:Ei;
    [|discriminate].
  cbn [obind].
  destruct ints as [|ntypz [|natz [|ibrav [|? ints]]]]; try discriminate.
  destruct (map_opt py_float (skipn 3 (nth 0 f []))) as [celldim|] eqn:Ec;
    [|discriminate].
  cbn [obind].
  set (o1 := (1 + (if (ibrav =? 0)%Z then 3 else 0))%nat).
  assert (Hlat :
    forall (k : option (list (list R) * file) -> option returned),
      obind (if (ibrav =? 0)%Z
             then '(a, f') <- table py_float 3 (skipn 1 f) ;;
                  Some (Some (a, f'))
             else if (ibrav =? 4)%Z
                  then a <- hexagonal_at celldim ;; Some (Some (a, skipn 1 f))
                  else Some None) k = Some (Loaded d) ->
      exists lat,
        k (Some (lat, skipn o1 f)) = Some (Loaded d)
        /\ ((ibrav = 0%Z
             /\ exists f', table py_float 3 (skipn 1 f) = Some (lat, f'))
            \/ (ibrav = 4%Z /\ hexagonal_at celldim = Some lat))
        \/ k None = Some (Loaded d)).
  { intros k. unfold o1. destruct (Z.eqb_spec ibrav 0) as [E0|E0].
    - destruct (table py_float 3 (skipn 1 f)) as [[a f']|] eqn:Et;
        [|discriminate].
      cbn [obind]. intros Hk. exists a. left.
      destruct (table_lines _ _ _ _ Et) as (-> & _).
      rewrite skipn_skipn' in Hk. split; [exact Hk|].
      left. split; [exact E0|]. eexists. reflexivity.
    - destruct (Z.eqb_spec ibrav 4) as [E4|E4].
      + destruct (hexagonal_at celldim) as [a|] eqn:Eh; [|discriminate].
        cbn [obind]. intros Hk. exists a. left. split; [exact Hk|].
        right. auto.
      + cbn [obind]. intros Hk. exists []. right. exact Hk. }
  intros H. apply Hlat in H. clear Hlat.
  destruct H as [lat [[H Hl]|H]]; [|discriminate].
  destruct (np_size ntypz) as [ntyp|] eqn:En1; [|discriminate].
  cbn [obind] in H. apply np_size_nat in En1. subst ntypz.
  destruct (read_species py_float ntyp (skipn o1 f)) as [[amass f1]|] eqn:Es;
    [|discriminate].
  cbn [obind] in H.
  destruct (np_size natz) as [nat_|] eqn:En2; [|discriminate].
  cbn [obind] in H. apply np_size_nat in En2. subst natz.
  destruct (species_lines _ _ _ _ Es) as (Ef1 & _).
  rewrite Ef1, skipn_skipn' in H.
  destruct (read_atoms py_int py_float nat_ (skipn (o1 + ntyp) f))
    as [[[ityp tau] f2]|] eqn:Ea; [|discriminate].
  cbn [obind] in H.
  destruct (nth_error celldim 0) as [c0|] eqn:Ec0; [|discriminate].
  cbn [obind] in H.
  destruct (atoms_lines _ _ _ _ _ Ea) as (Ef2 & _).
  rewrite Ef2, skipn_skipn', cells_skipn in H.
  set (o3 := (o1 + ntyp + nat_)%nat) in *.
  destruct (nth_error (nth o3 f []) 0) as [flag|] eqn:Efl; [|discriminate].
  cbn [obind] in H.
  set (o4 := (o3 + 1 + (if String.eqb flag "T" then 3 + 3 * nat_
                        else 0))%nat).
  assert (Hrig :
    forall (k : file -> option returned),
      obind (if String.eqb flag "T"
             then read_rigid py_float nat_ (skipn (S o3) f)
             else Some (skipn (S o3) f)) k = Some (Loaded d) ->
      k (skipn o4 f) = Some (Loaded d)).
  { intros k. unfold o4. destruct (String.eqb flag "T").
    - destruct (read_rigid py_float nat_ (skipn (S o3) f)) as [g|] eqn:Er;
        [|discriminate].
      apply rigid_lines in Er. subst g. rewrite skipn_skipn'. cbn [obind].
      replace (S o3 + (3 + 3 * nat_))%nat
        with (o3 + 1 + (3 + 3 * nat_))%nat by lia.
      auto.
    - cbn [obind]. replace (o3 + 1 + 0)%nat with (S o3) by lia. auto. }
  apply Hrig in H. clear Hrig. rewrite cells_skipn in H.
  destruct (map_opt py_int (nth o4 f [])) as [dims|] eqn:Ed; [|discriminate].
  cbn [obind] in H.
  destruct dims as [|nr1z [|nr2z [|nr3z [|? dims]]]]; try discriminate.
  destruct (np_size nr1z) as [nr1|] eqn:E1; [|discriminate].
  cbn [obind] in H. apply np_size_nat in E1. subst nr1z.
  destruct (np_size nr2z) as [nr2|] eqn:E2; [|discriminate].
  cbn [obind] in H. apply np_size_nat in E2. subst nr2z.
  destruct (np_size nr3z) as [nr3|] eqn:E3; [|discriminate].
  cbn [obind] in H. apply np_size_nat in E3. subst nr3z.
  destruct (read_phid py_float junk_block nat_ nr1 nr2 nr3 (skipn (S o4) f))
    as [[phid f3]|] eqn:Ep; [|discriminate].
  cbn [obind] in H.
  destruct (map_opt (py_index amass) ityp) as [masses|] eqn:Em;
    [|discriminate].
  cbn [obind] in H. injection H as <-. cbn [r_at r_phid r_amass r_tau].
  exists ntyp, nat_, ibrav, celldim, amass, ityp, tau, c0, flag, nr1, nr2,
         nr3, f1, f2, f3.
  split; [reflexivity|]. split; [reflexivity|]. split; [exact Hl|].
  cbv zeta. fold o1. fold o3. fold o4.
  repeat (split; [assumption || reflexivity|]). reflexivity.
Qed.

(** X18: the masses and positions that [read_flfrc] returns.  The line of
    atom [na] follows the header, the lattice vectors if they are given,
    and the lines of the species.  Its second word is the number [t] of the
    species; the mass of the atom is the last word of the line of species
    [t - 1], counted as Python indexes a list, so that the number 0 selects
    the last species.  Its position is the floats of the next three words,
    a single one being repeated, times [celldim[0]]. *)
Theorem read_flfrc_atoms (f : file) (d : flfrc) (ntyp nat_ : nat)
  (ibrav : Z) (celldim : list R) :
  read_flfrc py_int py_float junk_block f = Some (Loaded d) ->
  map_opt py_int (firstn 3 (nth 0 f []))
  = Some [Z.of_nat ntyp; Z.of_nat nat_; ibrav] ->
  map_opt py_float (skipn 3 (nth 0 f [])) = Some celldim ->
  let first := (1 + (if (ibrav =? 0)%Z then 3 else 0))%nat in
  length (r_amass d) = nat_ /\ length (r_tau d) = nat_
  /\ exists c0,
       nth_error celldim 0 = Some c0
       /\ forall na, (na < nat_)%nat ->
            exists line word t species mass xs row,
              nth_error f (first + ntyp + na) = Some line
              /\ nth_error line 1 = Some word /\ py_int word = Some t
              /\ (- Z.of_nat ntyp <= t - 1 < Z.of_nat ntyp)%Z
              /\ nth_error f (first
                              + Z.to_nat (if (t - 1 <? 0)%Z
                                          then t - 1 + Z.of_nat ntyp
                                          else t - 1)) = Some species
              /\ py_float (last species EmptyString) = Some mass
              /\ nth_error (r_amass d) na = Some mass
              /\ map_opt py_float (firstn 3 (skipn 2 line)) = Some xs
              /\ broadcast3 xs = Some row
              /\ nth_error (r_tau d) na = Some (map (fun x => x * c0) row).
Proof.
  intros Hload Hints Hdim. cbv zeta.
  destruct (read_flfrc_loaded f d Hload)
    as (ntyp' & nat' & ibrav' & celldim' & amass & ityp & tau & c0 & flag
        & nr1 & nr2 & nr3 & f1 & f2 & f3 & Ei & Ec & _ & H).
  rewrite Hints in Ei. injection Ei as E1 E2 <-.
  apply Nat2Z.inj in E1, E2. subst ntyp' nat'.
  rewrite Hdim in Ec. injection Ec as <-. cbv zeta in H.
  set (first := (1 + (if (ibrav =? 0)%Z then 3 else 0))%nat) in *.
  destruct H as (Es & Ea & Ec0 & _ & _ & _ & Em & Et).
  destruct (species_lines _ _ _ _ Es) as (_ & Hls & Hsp).
  destruct (atoms_lines _ _ _ _ _ Ea) as (_ & Hli & Hlt & Hat).
  destruct (map_opt_nth _ _ _ Em) as [Hlm Hm].
  split; [lia|]. split; [rewrite Et, length_map; exact Hlt|].
  exists c0. split; [exact Ec0|]. intros na Hna.
  destruct (Hat na Hna) as (line & word & t & xs & Hline & Hw & Ht & Hty
                            & Hxs & Hrow).
  rewrite nth_error_skipn in Hline.
  assert (Hi : nth_error ityp na = Some (t - 1)%Z).
  { rewrite <- Hty. apply nth_error_nth'. lia. }
  destruct (Hm _ _ Hi) as [mass [Hpy Hmass]].
  assert (Hidx : (- Z.of_nat ntyp <= t - 1 < Z.of_nat ntyp)%Z
                 /\ nth_error amass
                      (Z.to_nat (if (t - 1 <? 0)%Z
                                 then t - 1 + Z.of_nat ntyp else t - 1))
                    = Some mass).
  { unfold py_index in Hpy. rewrite Hls in Hpy.
    destruct (Z.ltb_spec (t - 1) 0) as [Hneg|Hpos].
    - destruct (Z.ltb_spec (t - 1 + Z.of_nat ntyp) 0); [discriminate|].
      split; [lia|exact Hpy].
    - split; [|exact Hpy].
      assert (Hlt' : (Z.to_nat (t - 1) < length amass)%nat)
        by (apply nth_error_Some; congruence).
      lia. }
  destruct Hidx as [Hrange Hsel].
  set (sp := Z.to_nat (if (t - 1 <? 0)%Z then t - 1 + Z.of_nat ntyp
                       else t - 1)) in *.
  assert (Hsp' : (sp < ntyp)%nat)
    by (rewrite <- Hls; apply nth_error_Some; congruence).
  destruct (Hsp sp Hsp') as (species & Hsl & _ & Hfl).
  rewrite nth_error_skipn in Hsl.
  rewrite (nth_error_nth _ _ 0 Hsel) in Hfl.
  exists line, word, t, species, mass, xs, (nth na tau []).
  repeat (split; [assumption|]).
  rewrite Et, nth_error_map.
  rewrite (nth_error_nth' tau []) by lia. reflexivity.
Qed.

(** X19: for the lattice code 4, [read_flfrc] raises when fewer than
    three cell dimensions are given; otherwise the lattice vectors are
    [(a, 0, 0)], [(-a / 2, sqrt(3) * a / 2, 0)] and [(0, 0, a * c)] with
    [a = celldim[0]] and [c = celldim[2]]: the first two have the same
    length and enclose 120 degrees, the third is at right angles to
    both. *)
Theorem read_flfrc_hexagonal (f : file) (ntyp nat_ : Z) (celldim : list R) :
  map_opt py_int (firstn 3 (nth 0 f [])) = Some [ntyp; nat_; 4%Z] ->
  map_opt py_float (skipn 3 (nth 0 f [])) = Some celldim ->
  ((length celldim < 3)%nat ->
   read_flfrc py_int py_float junk_block f = None)
  /\ forall d,
       read_flfrc py_int py_float junk_block f = Some (Loaded d) ->
       exists a c a1 a2 a3,
         nth_error celldim 0 = Some a /\ nth_error celldim 2 = Some c
         /\ r_at d = [a1; a2; a3]
         /\ row3 a1 = (a, 0, 0)
         /\ row3 a2 = (- a / 2, sqrt 3 * a / 2, 0)
         /\ row3 a3 = (0, 0, a * c)
         /\ vdot (row3 a1) (row3 a1) = a * a
         /\ vdot (row3 a2) (row3 a2) = a * a
         /\ vdot (row3 a1) (row3 a2) = - (a * a) / 2
         /\ vdot (row3 a1) (row3 a3) = 0
         /\ vdot (row3 a2) (row3 a3) = 0.
Proof.
  intros Hints Hdim. split.
  - intros Hlen. unfold read_flfrc. change f with (skipn 0 f) at 1.
    rewrite cells_skipn, Hints. cbn [obind]. rewrite Hdim. cbn [obind].
    change (4 =? 0)%Z with false. change (4 =? 4)%Z with true. cbv iota.
    unfold hexagonal_at.
    replace (nth_error celldim 2) with (@None R)
      by (symmetry; apply nth_error_None; lia).
    destruct (nth_error celldim 0); reflexivity.
  - intros d Hload.
    destruct (read_flfrc_loaded f d Hload)
      as (ntyp' & nat' & ibrav' & celldim' & amass & ityp & tau & c0 & flag
          & nr1 & nr2 & nr3 & f1 & f2 & f3 & Ei & Ec & Hl & _).
    rewrite Hints in Ei. injection Ei as _ _ <-.
    rewrite Hdim in Ec. injection Ec as <-.
    destruct Hl as [[E0 _]|[_ Hh]]; [discriminate|].
    unfold hexagonal_at in Hh.
    destruct (nth_error celldim 0) as [a|]; [|discriminate].
    destruct (nth_error celldim 2) as [c|]; [|discriminate].
    cbn [obind] in Hh. injection Hh as <-.
    assert (H3 : sqrt 3 * sqrt 3 = 3) by (apply sqrt_sqrt; lra).
    exists a, c. eexists. eexists. eexists.
    split; [reflexivity|]. split; [reflexivity|]. split; [reflexivity|].
    unfold row3, vdot. cbn [nth].
    repeat split; try (f_equal; [f_equal|]); try field; try nra.
Qed.

(** X20: the block of force constants of the file.  The line after the
    flag line, or after the [3 + 3 * nat] lines of dielectric data when the
    flag is [T], gives the grid.  Each of the [9 * nat ** 2] groups that
    follow, for [j1], [j2], [na1], [na2] in this order, has one line that
    is skipped and one line for each cell, [m1] running fastest; the
    element [phid[na1, na2, m1, m2, m3, j1, j2]] is the float of the last
    word of its line. *)
Theorem read_flfrc_force_constants (f : file) (d : flfrc) (ntyp nat_ : nat)
  (ibrav : Z) :
  read_flfrc py_int py_float junk_block f = Some (Loaded d) ->
  map_opt py_int (firstn 3 (nth 0 f []))
  = Some [Z.of_nat ntyp; Z.of_nat nat_; ibrav] ->
  exists flag nr1 nr2 nr3,
    let flag_line :=
      (1 + (if (ibrav =? 0)%Z then 3 else 0) + ntyp + nat_)%nat in
    let grid_line :=
      (flag_line + 1
       + (if String.eqb flag "T" then 3 + 3 * nat_ else 0))%nat in
    nth_error (nth flag_line f []) 0 = Some flag
    /\ map_opt py_int (nth grid_line f [])
       = Some [Z.of_nat nr1; Z.of_nat nr2; Z.of_nat nr3]
    /\ fc_nat (r_phid d) = nat_ /\ fc_nr1 (r_phid d) = nr1
    /\ fc_nr2 (r_phid d) = nr2 /\ fc_nr3 (r_phid d) = nr3
    /\ forall j1 j2 na1 na2 m1 m2 m3,
         (j1 < 3)%nat -> (j2 < 3)%nat -> (na1 < nat_)%nat ->
         (na2 < nat_)%nat -> (m1 < nr1)%nat -> (m2 < nr2)%nat ->
         (m3 < nr3)%nat ->
         exists line v,
           nth_error f
             (grid_line + 1
              + ((((j1 * 3 + j2) * nat_ + na1) * nat_ + na2)
                 * (1 + nr3 * (nr2 * nr1))
                 + 1 + ((m3 * nr2 + m2) * nr1 + m1)))%nat = Some line
           /\ line <> []
           /\ py_float (last line EmptyString) = Some v
           /\ mget (fc_phid (r_phid d) na1 na2 m1 m2 m3) j1 j2 = v.
Proof.
  intros Hload Hints.
  destruct (read_flfrc_loaded f d Hload)
    as (ntyp' & nat' & ibrav' & celldim' & amass & ityp & tau & c0 & flag
        & nr1 & nr2 & nr3 & f1 & f2 & f3 & Ei & _ & _ & H).
  rewrite Hints in Ei. injection Ei as E1 E2 <-.
  apply Nat2Z.inj in E1, E2. subst ntyp' nat'. cbv zeta in H.
  destruct H as (_ & _ & _ & Hflag & Hgrid & Hphid & _).
  exists flag, nr1, nr2, nr3. cbv zeta.
  split; [exact Hflag|]. split; [exact Hgrid|].
  destruct (phid_block _ _ _ _ _ _ _ Hphid) as (_ & H1 & H2 & H3 & H4 & He).
  repeat (split; [assumption|]).
  intros j1 j2 na1 na2 m1 m2 m3 Hj1 Hj2 Ha1 Ha2 Hm1 Hm2 Hm3.
  destruct (He (j1, j2, na1, na2, m1, m2, m3)) as (line & v & Hl & Hx).
  { cbn. lia. }
  exists line, v. rewrite nth_error_skipn in Hl. unfold line_of in Hl.
  split; [|exact Hx]. rewrite <- Hl. f_equal. lia.
Qed.

(** X21: for the lattice code 0 the lattice vectors that [read_flfrc]
    returns are the floats of the words of the three lines after the
    header. *)
Theorem read_flfrc_free_lattice (f : file) (d : flfrc) (ntyp nat_ : Z)
  (celldim : list R) :
  map_opt py_int (firstn 3 (nth 0 f [])) = Some [ntyp; nat_; 0%Z] ->
  read_flfrc py_int py_float junk_block f = Some (Loaded d) ->
  length (r_at d) = 3%nat
  /\ forall i, (i < 3)%nat ->
       map_opt py_float (nth (1 + i) f []) = Some (nth i (r_at d) []).
Proof.
  intros Hints Hload.
  destruct (read_flfrc_loaded f d Hload)
    as (ntyp' & nat' & ibrav' & celldim' & amass & ityp & tau & c0 & flag
        & nr1 & nr2 & nr3 & f1 & f2 & f3 & Ei & _ & Hl & _).
  rewrite Hints in Ei. injection Ei as _ _ <-.
  destruct Hl as [[_ [f' Ht]]|[E4 _]]; [|discriminate].
  destruct (table_lines _ _ _ _ Ht) as (_ & Hlen & Hrows).
  split; [exact Hlen|]. intros i Hi.
  rewrite <- (Hrows i Hi), nth_skipn. reflexivity.
Qed.

End ReadProofs.

Lemma hexagonal_file_loads :
  exists d,
    read_flfrc decimal_int decimal_float mzero hexagonal_file
    = Some (Loaded d).
Proof. eexists. reflexivity. Qed.

Lemma read_flfrc_atoms_witness :
  exists d,
    read_flfrc decimal_int decimal_float mzero hexagonal_file
    = Some (Loaded d)
    /\ nth_error (r_amass d) 0 = Some 16.
Proof.
  destruct hexagonal_file_loads as [d E]. exists d. split; [exact E|].
  destruct (read_flfrc_atoms decimal_int decimal_float mzero hexagonal_file
              d 2 1 4 [2; 0; 3] E eq_refl eq_refl)
    as (_ & _ & c0 & _ & H).
  destruct (H 0%nat (le_n 1))
    as (line & word & t & species & mass & xs & row & Hline & Hword & Ht
        & _ & Hsp & Hmass & Hd & _).
  vm_compute in Hline. injection Hline as <-.
  vm_compute in Hword. injection Hword as <-.
  vm_compute in Ht. injection Ht as <-.
  vm_compute in Hsp. injection Hsp as <-.
  cbn in Hmass. injection Hmass as <-. exact Hd.
Defined.

Lemma read_flfrc_hexagonal_witness :
  exists d a1 a2 a3,
    read_flfrc decimal_int decimal_float mzero hexagonal_file
    = Some (Loaded d)
    /\ r_at d = [a1; a2; a3]
    /\ vdot (row3 a1) (row3 a2) = - (2 * 2) / 2.
Proof.
  destruct hexagonal_file_loads as [d E].
  destruct (proj2 (read_flfrc_hexagonal decimal_int decimal_float mzero
                     hexagonal_file 2 1 [2; 0; 3] eq_refl eq_refl) d E)
    as (a & c & a1 & a2 & a3 & Ha & _ & Hat & _ & _ & _ & _ & _ & H12 & _).
  cbn in Ha. injection Ha as <-.
  exists d, a1, a2, a3. auto.
Defined.

Lemma read_flfrc_force_constants_witness :
  exists d,
    read_flfrc decimal_int decimal_float mzero hexagonal_file
    = Some (Loaded d)
    /\ mget (fc_phid (r_phid d) 0 0 0 0 0) 2 1 = 5.
Proof.
  destruct hexagonal_file_loads as [d E]. exists d. split; [exact E|].
  destruct (read_flfrc_force_constants decimal_int decimal_float mzero
              hexagonal_file d 2 1 4 E eq_refl)
    as (flag & nr1 & nr2 & nr3 & Hflag & Hgrid & _ & _ & _ & _ & H).
  vm_compute in Hflag. injection Hflag as <-.
  change (Some [1%Z; 1%Z; 1%Z]
          = Some [Z.of_nat nr1; Z.of_nat nr2; Z.of_nat nr3]) in Hgrid.
  injection Hgrid as G1 G2 G3.
  assert (nr1 = 1%nat) by lia. assert (nr2 = 1%nat) by lia.
  assert (nr3 = 1%nat) by lia. subst nr1 nr2 nr3.
  destruct (H 2%nat 1%nat 0%nat 0%nat 0%nat 0%nat 0%nat)
    as (line & v & Hline & _ & Hv & Hel); try lia.
  vm_compute in Hline. injection Hline as <-. cbn in Hv.
  injection Hv as <-. exact Hel.
Defined.

Lemma read_flfrc_free_lattice_witness :
  exists d,
    read_flfrc decimal_int decimal_float mzero free_file = Some (Loaded d)
    /\ nth 1 (r_at d) [] = [0; 2; 0].
Proof.
  assert (H : exists d, read_flfrc decimal_int decimal_float mzero free_file
                        = Some (Loaded d)) by (eexists; reflexivity).
  destruct H as [d E]. exists d. split; [exact E|].
  destruct (read_flfrc_free_lattice decimal_int decimal_float mzero free_file
              d 1 0 [1] eq_refl E) as [_ H].
  specialize (H 1%nat (le_S _ _ (le_n 2))). cbn in H.
  injection H as <-. reflexivity.
Defined.
